(** * WordleCalculator: the feedback engine and the guess selector

    A shallow embedding of [src/main.py].  Python strings are [string]s,
    Python lists are [list]s, the [defaultdict(list)] of partitions is a
    [gmap] keyed by the feedback string, the letter sets are [gset ascii].
    Integers are [Z].  Python floats are IEEE 754 binary64 numbers, the
    [spec_float]s of precision 53, with the rounding of every operation;
    a Python number is an [Int] or a [Float], and the arithmetic converts
    as Python does.  An exception raised by the source is the [Raise]
    outcome; the Python value [None] returned by the selector is
    [Ret None].  Calls to [print] are left out. *)

From Stdlib Require Import ZArith String Ascii List Permutation Sorted.
From Stdlib Require Import Floats.SpecFloat.
From stdpp Require Import gmap strings list fin_maps.


(** ** Outcomes: a returned value or a raised exception *)

Inductive exn : Set := IndexError | ValueError.

Inductive outcome (A : Type) : Type :=
| Ret (a : A)
| Raise (e : exn).

Arguments Ret {A} a.
Arguments Raise {A} e.

Global Instance exn_eq_dec : EqDecision exn.
Proof. solve_decision. Defined.

Global Instance outcome_eq_dec {A : Type} `{EqDecision A} : EqDecision (outcome A).
Proof. solve_decision. Defined.

Global Instance outcome_ret : MRet outcome := fun _ a => Ret a.
Global Instance outcome_bind : MBind outcome := fun _ _ k m =>
  match m with
  | Ret a => k a
  | Raise e => Raise e
  end.

(** [for x in l: s = body x s] *)
Fixpoint for_each {A S : Type} (l : list A) (body : A -> S -> outcome S) (s : S)
  : outcome S :=
  match l with
  | [] => Ret s
  | x :: l' => s' ← body x s; for_each l' body s'
  end.

(** [range(n)] *)
Definition range (n : nat) : list nat := seq 0 n.

(** [l[i]], which raises [IndexError] out of range *)
Definition index {A : Type} (l : list A) (i : nat) : outcome A :=
  match l !! i with
  | Some x => Ret x
  | None => Raise IndexError
  end.

(** [l.index(x)]: the first position holding [x], [ValueError] if none *)
Definition py_index {A : Type} `{EqDecision A} (l : list A) (x : A) : outcome nat :=
  match list_find (fun y => y = x) l with
  | Some (j, _) => Ret j
  | None => Raise ValueError
  end.

(** ** Python numbers *)

(** an [int] or a [float] *)
Inductive number : Type :=
| Int (z : Z)
| Float (f : spec_float).

Module Number.

Definition prec : Z := 53.
Definition emax : Z := 1024.

(** [float(z)]: the nearest float, ties to even; exact below 2^53, and
    the integers of the source are lengths of lists and sets *)
Definition of_int (z : Z) : spec_float := binary_normalize prec emax z 0 false.

(** the operand of a mixed operation *)
Definition to_float (x : number) : spec_float :=
  match x with
  | Int z => of_int z
  | Float f => f
  end.

(** [x + y] *)
Definition add (x y : number) : number :=
  match x, y with
  | Int a, Int b => Int (a + b)
  | _, _ => Float (SFadd prec emax (to_float x) (to_float y))
  end.

(** [x - y] *)
Definition sub (x y : number) : number :=
  match x, y with
  | Int a, Int b => Int (a - b)
  | _, _ => Float (SFsub prec emax (to_float x) (to_float y))
  end.

(** [x * y] *)
Definition mul (x y : number) : number :=
  match x, y with
  | Int a, Int b => Int (a * b)
  | _, _ => Float (SFmul prec emax (to_float x) (to_float y))
  end.

(** [-x] *)
Definition neg (x : number) : number :=
  match x with
  | Int a => Int (- a)
  | Float f => Float (SFopp f)
  end.

(** [x / y], always a float; the divisors of the source are 1000 and the
    length of a list that is not empty, so [ZeroDivisionError] does not
    arise, and below 2^53 the quotient of two integers is the quotient of
    their floats *)
Definition truediv (x y : number) : number :=
  Float (SFdiv prec emax (to_float x) (to_float y)).

(** a float literal with [k] decimals, such as [0.5] for [p = 5] and
    [k = 1]: the float nearest to p / 10^k, which is what the quotient of
    the two integers rounds to *)
Definition literal (p k : Z) : number := truediv (Int p) (Int (10 ^ k)).

(** [float('inf')] *)
Definition inf : number := Float (S754_infinity false).

(** [x < y]; a comparison with NaN is false, and an integer below 2^53
    compares with a float as its own float does *)
Definition lt (x y : number) : bool :=
  match x, y with
  | Int a, Int b => (a <? b)%Z
  | _, _ => SFltb (to_float x) (to_float y)
  end.

(** [x == y] *)
Definition eq (x y : number) : bool :=
  match x, y with
  | Int a, Int b => (a =? b)%Z
  | _, _ => SFeqb (to_float x) (to_float y)
  end.

(** the place of [x] and [y] in a comparison of tuples: [Eq] when
    [x == y], so that the next components decide, [Lt] when [x < y], and
    [Gt] otherwise, when the tuple of [x] is not below that of [y] *)
Definition compare (x y : number) : comparison :=
  if eq x y then Eq else if lt x y then Lt else Gt.

End Number.

(** ** get_feedback (main.py, lines 10-32) *)

Module Feedback.

Record state : Type := mk_state {
  feedback : list ascii;
  target_chars : list (option ascii);
  guess_chars : list (option ascii)
}.

(** body of the first loop: mark greens and remove them from both words *)
Definition mark_green (i : nat) (st : state) : outcome state :=
  g ← index (guess_chars st) i;
  t ← index (target_chars st) i;
  if decide (g = t)
  then Ret {| feedback := <[i:="G"%char]> (feedback st);
              target_chars := <[i:=None]> (target_chars st);
              guess_chars := <[i:=None]> (guess_chars st) |}
  else Ret st.

(** body of the second loop: mark yellows, consuming one target letter each *)
Definition mark_yellow (i : nat) (st : state) : outcome state :=
  g ← index (guess_chars st) i;
  match g with
  | Some c =>
      if decide (Some c ∈ target_chars st)
      then j ← py_index (target_chars st) (Some c);
           Ret {| feedback := <[i:="Y"%char]> (feedback st);
                  target_chars := <[j:=None]> (target_chars st);
                  guess_chars := guess_chars st |}
      else Ret st
  | None => Ret st
  end.

Definition initial (guess target : string) : state :=
  {| feedback := replicate 5 "B"%char;
     target_chars := Some <$> list_ascii_of_string target;
     guess_chars := Some <$> list_ascii_of_string guess |}.

End Feedback.

Definition get_feedback (guess target : string) : outcome string :=
  st1 ← for_each (range 5) Feedback.mark_green (Feedback.initial guess target);
  st2 ← for_each (range 5) Feedback.mark_yellow st1;
  Ret (string_of_list_ascii (Feedback.feedback st2)).

(** ** filter_words (lines 34-42) *)

Definition filter_words (words : list string) (guess feedback : string)
  : outcome (list string) :=
  for_each words
    (fun word valid_words =>
       fb ← get_feedback guess word;
       if decide (fb = feedback)
       then Ret (valid_words ++ [word])
       else Ret valid_words)
    [].

(** ** calculate_partitions (lines 44-52) *)

(** [partitions[key].append(word)] on a [defaultdict(list)] *)
Definition dict_append (partitions : gmap string (list string)) (key word : string)
  : gmap string (list string) :=
  <[key := default [] (partitions !! key) ++ [word]]> partitions.

Definition calculate_partitions (guess : string) (possible_words : list string)
  : outcome (gmap string (list string)) :=
  for_each possible_words
    (fun word partitions =>
       feedback ← get_feedback guess word;
       Ret (dict_append partitions feedback word))
    ∅.

(** ** evaluate_guess (lines 54-72) *)

(** [[len(partition) for partition in partitions.values()]] *)
Definition partition_sizes (partitions : gmap string (list string)) : list Z :=
  (fun kv => Z.of_nat (length kv.2)) <$> map_to_list partitions.

(** [max(sizes) if sizes else 0] *)
Definition max_or_zero (sizes : list Z) : Z :=
  match sizes with
  | [] => 0
  | x :: rest => foldl Z.max x rest
  end.

(** [sum(sizes) / len(sizes) if sizes else 0] *)
Definition avg_or_zero (sizes : list Z) : number :=
  match sizes with
  | [] => Int 0
  | _ => Number.truediv (Int (foldr Z.add 0%Z sizes)) (Int (Z.of_nat (length sizes)))
  end.

Definition evaluate_guess (guess : string) (possible_words all_words : list string)
  : outcome (Z * number * bool * number) :=
  partitions ← calculate_partitions guess possible_words;
  let is_possible_answer := bool_decide (guess ∈ possible_words) in
  let sizes := partition_sizes partitions in
  let max_remaining := max_or_zero sizes in
  let avg_remaining := avg_or_zero sizes in
  let total_eliminated :=
    Number.sub (Int (Z.of_nat (length possible_words))) avg_remaining in
  Ret (max_remaining, avg_remaining, is_possible_answer, total_eliminated).

(** ** Letter sets and letter frequencies (lines 74-84) *)

(** [set(word)] *)
Definition letters (word : string) : gset ascii :=
  list_to_set (list_ascii_of_string word).

(** [len(s)] of a set, as a Python integer *)
Definition len_set (s : gset ascii) : Z := Z.of_nat (size s).

(** [counter[k]] of a [Counter]: 0 for a missing key *)
Definition counter_get (counter : gmap ascii Z) (k : ascii) : Z :=
  default 0%Z (counter !! k).

Definition get_letter_frequencies (words : list string) : gmap ascii Z :=
  foldl
    (fun letter_freq word =>
       foldl (fun freq char => <[char := (counter_get freq char + 1)%Z]> freq)
         letter_freq (elements (letters word)))
    ∅ words.

Definition score_word_frequency (word : string) (letter_freq : gmap ascii Z) : Z :=
  foldr Z.add 0%Z (counter_get letter_freq <$> elements (letters word)).

(** truth value of a variable holding [None] or a string *)
Definition truthy (s : option string) : bool :=
  match s with
  | Some (String _ _) => true
  | _ => false
  end.

(** ** find_best_distinguishing_word (lines 86-161) *)

Module Distinguishing.

Record info : Type := mk_info {
  info_max_remaining : Z;
  info_avg_remaining : number;
  info_partitions : Z;
  info_unexplored : Z;
  info_excluded_used : Z
}.

Record best : Type := mk_best {
  best_word : option string;
  best_score : number;
  best_info : option info
}.

(** lines 103-112: the words that are evaluated *)
Definition evaluation_candidates (possible_words all_words : list string)
  : list string :=
  let evaluation_candidates :=
    filter (fun word => word ∉ possible_words) (take 500 all_words) in
  if decide (length possible_words <= 3)%nat
  then evaluation_candidates ++ possible_words
  else evaluation_candidates.

(** lines 131-138 *)
Definition score (max_remaining : Z) (avg_remaining : number)
    (unexplored excluded_used : Z) : number :=
  let exploration_bonus := Number.mul (Int unexplored) (Number.literal 1 1) in
  let excluded_penalty := Number.mul (Int excluded_used) (Number.literal 5 1) in
  Number.add
    (Number.sub
       (Number.add (Int max_remaining) (Number.truediv avg_remaining (Int 1000)))
       exploration_bonus)
    excluded_penalty.

(** lines 116-149: the body of the loop over the evaluated words *)
Definition step (possible_words : list string) (known_letters excluded_letters : gset ascii)
    (word : string) (b : best) : outcome best :=
  partitions ← calculate_partitions word possible_words;
  let sizes := partition_sizes partitions in
  let max_remaining := max_or_zero sizes in
  let avg_remaining := avg_or_zero sizes in
  let word_letters := letters word in
  let unexplored_letters := word_letters ∖ known_letters ∖ excluded_letters in
  let excluded_used := len_set (word_letters ∩ excluded_letters) in
  let score := score max_remaining avg_remaining (len_set unexplored_letters) excluded_used in
  if Number.lt score (best_score b)
  then Ret {| best_word := Some word;
              best_score := score;
              best_info := Some {| info_max_remaining := max_remaining;
                                   info_avg_remaining := avg_remaining;
                                   info_partitions := Z.of_nat (size partitions);
                                   info_unexplored := len_set unexplored_letters;
                                   info_excluded_used := excluded_used |} |}
  else Ret b.

Definition start : best :=
  {| best_word := None; best_score := Number.inf; best_info := None |}.

End Distinguishing.

Definition find_best_distinguishing_word (possible_words all_words : list string)
    (known_letters excluded_letters : gset ascii) : outcome (option string) :=
  if decide (length possible_words <= 1)%nat
  then match possible_words with
       | [] => Ret None
       | first :: _ => Ret (Some first)
       end
  else
    b ← for_each (Distinguishing.evaluation_candidates possible_words all_words)
          (Distinguishing.step possible_words known_letters excluded_letters)
          Distinguishing.start;
    if truthy (Distinguishing.best_word b) && bool_decide (is_Some (Distinguishing.best_info b))
    then Ret (Distinguishing.best_word b)
    else first ← index possible_words 0; Ret (Some first).

(** ** Sorting, as [list.sort] does it *)

(** lexicographic combination, as Python compares tuples *)
Definition lex (c1 c2 : comparison) : comparison :=
  match c1 with
  | Eq => c2
  | _ => c1
  end.

Definition is_lt (c : comparison) : bool :=
  match c with
  | Lt => true
  | _ => false
  end.

(** stable insertion of [x] in front of a sorted list *)
Fixpoint insert_sorted {A : Type} (cmp : A -> A -> comparison) (x : A) (l : list A)
  : list A :=
  match l with
  | [] => [x]
  | y :: l' => if is_lt (cmp y x) then y :: insert_sorted cmp x l' else x :: y :: l'
  end.

(** [l.sort()] *)
Definition py_sort {A : Type} (cmp : A -> A -> comparison) (l : list A) : list A :=
  foldr (insert_sorted cmp) [] l.

(** [l.sort(reverse=True)] *)
Definition py_sort_reverse {A : Type} (cmp : A -> A -> comparison) (l : list A)
  : list A :=
  py_sort (fun a b => cmp b a) l.

(** ** choose_best_word (lines 163-363) *)

Definition SMALL_SET_THRESHOLD : Z := 2.
Definition MEDIUM_SET_THRESHOLD : Z := 6.
Definition ELIMINATION_THRESHOLD : Z := 15.
Definition LATE_GAME_TURN : Z := 5.

(** lines 189-202: the first turn *)
Module Opening.

Definition proven_starters : list string := ["COURT"%string].

Definition choose (all_words : list string) : outcome (option string) :=
  let best_starter := head (filter (fun starter => starter ∈ all_words) proven_starters) in
  if truthy best_starter
  then Ret best_starter
  else Ret (Some "ADIEU"%string).

End Opening.

(** lines 210-258: the branch for exactly two words *)
Module TwoWords.

Record diff : Type := mk_diff {
  diff_positions : list nat;
  diff_letters : gset ascii
}.

(** lines 218-222 *)
Definition diff_step (word1 word2 : string) (i : nat) (d : diff) : outcome diff :=
  c1 ← index (list_ascii_of_string word1) i;
  c2 ← index (list_ascii_of_string word2) i;
  if decide (c1 ≠ c2)
  then Ret {| diff_positions := diff_positions d ++ [i];
              diff_letters := diff_letters d ∪ {[c1]} ∪ {[c2]} |}
  else Ret d.

(** line 246 *)
Definition score (word : string) (known_letters excluded_letters diff_letters : gset ascii)
  : Z :=
  let word_letters := letters word in
  let unexplored_letters := word_letters ∖ known_letters ∖ excluded_letters in
  let new_letter_bonus := len_set unexplored_letters in
  let tests_diff_letters := len_set (word_letters ∩ diff_letters) in
  (- new_letter_bonus - tests_diff_letters)%Z.

(** lines 232-250: the body of the loop over [all_words[:300]] *)
Definition step (possible_words : list string) (word1 word2 : string)
    (known_letters excluded_letters diff_letters : gset ascii)
    (word : string) (b : option string * number) : outcome (option string * number) :=
  if decide (word ∉ possible_words)
  then
    feedback1 ← get_feedback word word1;
    feedback2 ← get_feedback word word2;
    if decide (feedback1 ≠ feedback2)
    then
      let score := Int (score word known_letters excluded_letters diff_letters) in
      if Number.lt score b.2 then Ret (Some word, score) else Ret b
    else Ret b
  else Ret b.

Definition choose (possible_words all_words : list string)
    (known_letters excluded_letters : gset ascii) : outcome (option string) :=
  word1 ← index possible_words 0;
  word2 ← index possible_words 1;
  d ← for_each (range 5) (diff_step word1 word2)
        {| diff_positions := []; diff_letters := ∅ |};
  best_distinguisher ←
    match diff_positions d with
    | [] => Ret None
    | _ :: _ =>
        b ← for_each (take 300 all_words)
              (step possible_words word1 word2 known_letters excluded_letters
                 (diff_letters d))
              (None, Number.inf);
        Ret b.1
    end;
  if truthy best_distinguisher
  then Ret best_distinguisher
  else first ← index possible_words 0; Ret (Some first).

End TwoWords.

(** lines 260-363: more than ten words *)
Module General.

(** [len(word_letters - known_letters - excluded_letters)] *)
Definition unexplored (word : string) (known_letters excluded_letters : gset ascii) : Z :=
  len_set (letters word ∖ known_letters ∖ excluded_letters).

(** lines 267-288: above the elimination threshold *)
Definition elimination_set (possible_words all_words : list string)
    (known_letters excluded_letters : gset ascii) (letter_freq : gmap ascii Z)
  : list string :=
  let evaluation_set :=
    filter (fun word => (word ∉ possible_words)
                        ∧ (letters word ∩ excluded_letters = ∅)
                        ∧ (3 <= unexplored word known_letters excluded_letters)%Z)
      (take 800 all_words) in
  let evaluation_set :=
    if decide (length evaluation_set < 50)%nat
    then evaluation_set
         ++ filter (fun word => (word ∉ possible_words)
                                ∧ (0 < score_word_frequency word letter_freq)%Z)
              (take 800 all_words)
    else evaluation_set in
  take 150 evaluation_set.

Definition compare_counted (a b : Z * string) : comparison :=
  lex (a.1 ?= b.1)%Z (String.compare a.2 b.2).

(** lines 292-302: between the medium and the elimination threshold *)
Definition medium_set (possible_words all_words : list string)
    (known_letters excluded_letters : gset ascii) : list string :=
  let elimination_words :=
    (fun word => (unexplored word known_letters excluded_letters, word))
      <$> filter (fun word => (word ∉ possible_words)
                              ∧ (2 <= unexplored word known_letters excluded_letters)%Z)
            (take 600 all_words) in
  let elimination_words := py_sort_reverse compare_counted elimination_words in
  snd <$> take 100 elimination_words.

(** an element of [candidates], line 342 *)
Record scored : Type := mk_scored {
  sc_score : number;
  sc_word : string;
  sc_max_remaining : Z;
  sc_avg_remaining : number;
  sc_is_answer : bool;
  sc_unexplored : Z;
  sc_known : Z
}.

(** [a < b] on the tuples is [is_lt (compare_scored a b)] *)
Definition compare_scored (a b : scored) : comparison :=
  lex (Number.compare (sc_score a) (sc_score b))
  (lex (String.compare (sc_word a) (sc_word b))
  (lex (sc_max_remaining a ?= sc_max_remaining b)%Z
  (lex (Number.compare (sc_avg_remaining a) (sc_avg_remaining b))
  (lex (Bool.compare (sc_is_answer a) (sc_is_answer b))
  (lex (sc_unexplored a ?= sc_unexplored b)%Z
       (sc_known a ?= sc_known b)%Z))))).

(** lines 319-340 *)
Definition final_score (max_remaining : Z) (avg_remaining : number)
    (is_possible_answer : bool) (words_remaining turn : Z)
    (unexplored known_letters_in_word : Z) : number :=
  let base_score := Int max_remaining in
  let tie_breaker := Number.truediv avg_remaining (Int 1000) in
  let exploration_bonus :=
    if negb is_possible_answer && (MEDIUM_SET_THRESHOLD <? words_remaining)%Z
    then
      let exploration_bonus := Number.mul (Int (- unexplored)) (Number.literal 5 1) in
      let known_letter_penalty :=
        Number.mul (Int known_letters_in_word) (Number.literal 3 1) in
      Number.add exploration_bonus known_letter_penalty
    else Int 0 in
  let answer_bonus :=
    if is_possible_answer
    then if (words_remaining <=? SMALL_SET_THRESHOLD)%Z || (LATE_GAME_TURN <=? turn)%Z
         then Number.neg (Number.literal 10 1)
         else Number.literal 20 1
    else if (MEDIUM_SET_THRESHOLD <? words_remaining)%Z
         then Number.neg (Number.literal 5 1)
         else Int 0 in
  Number.add (Number.add (Number.add base_score tie_breaker) answer_bonus)
    exploration_bonus.

(** lines 310-342: the body of the loop over the evaluation set *)
Definition step (possible_words all_words : list string) (turn : Z)
    (known_letters excluded_letters : gset ascii)
    (word : string) (candidates : list scored) : outcome (list scored) :=
  r ← evaluate_guess word possible_words all_words;
  let '(max_remaining, avg_remaining, is_possible_answer, total_eliminated) := r in
  let words_remaining := Z.of_nat (length possible_words) in
  let word_letters := letters word in
  let unexplored_letters := unexplored word known_letters excluded_letters in
  let known_letters_in_word := len_set (word_letters ∩ known_letters) in
  let final_score :=
    final_score max_remaining avg_remaining is_possible_answer words_remaining turn
      unexplored_letters known_letters_in_word in
  Ret (candidates ++ [ {| sc_score := final_score;
                          sc_word := word;
                          sc_max_remaining := max_remaining;
                          sc_avg_remaining := avg_remaining;
                          sc_is_answer := is_possible_answer;
                          sc_unexplored := unexplored_letters;
                          sc_known := known_letters_in_word |} ]).

(** lines 310-363: score the evaluation set, sort, return the first *)
Definition pick (evaluation_set possible_words all_words : list string) (turn : Z)
    (known_letters excluded_letters : gset ascii) : outcome (option string) :=
  candidates ← for_each evaluation_set
                 (step possible_words all_words turn known_letters excluded_letters) [];
  let candidates := py_sort compare_scored candidates in
  first ← index candidates 0;
  Ret (Some (sc_word first)).

End General.

Definition choose_best_word (possible_words all_words : list string) (turn : Z)
    (known_letters excluded_letters : option (gset ascii)) : outcome (option string) :=
  if decide (length possible_words = 1)%nat
  then first ← index possible_words 0; Ret (Some first)
  else
    let known_letters := default ∅ known_letters in
    let excluded_letters := default ∅ excluded_letters in
    let words_remaining := Z.of_nat (length possible_words) in
    if decide (turn = 1)%Z
    then Opening.choose all_words
    else if decide (words_remaining <= 10)%Z
    then find_best_distinguishing_word possible_words all_words known_letters excluded_letters
    else if decide (words_remaining = 2)%Z
    then TwoWords.choose possible_words all_words known_letters excluded_letters
    else
      let letter_freq := get_letter_frequencies possible_words in
      if decide (words_remaining > ELIMINATION_THRESHOLD)%Z
      then General.pick
             (General.elimination_set possible_words all_words known_letters
                excluded_letters letter_freq)
             possible_words all_words turn known_letters excluded_letters
      else if decide (words_remaining > MEDIUM_SET_THRESHOLD)%Z
      then General.pick
             (General.medium_set possible_words all_words known_letters excluded_letters)
             possible_words all_words turn known_letters excluded_letters
      else find_best_distinguishing_word possible_words all_words known_letters
             excluded_letters.

(** ** The two passes of [get_feedback], read by recursion on the letters

    These functions are not in the source: they describe what the two
    index loops compute on words of equal length, and the lemmas below
    prove that they do. *)

Module Passes.

(** each guess letter with whether the first pass marks it green *)
Definition greens (gs ts : list ascii) : list (ascii * bool) :=
  zip_with (fun g t => (g, bool_decide (g = t))) gs ts.

Definition feedback_of (ps : list (ascii * bool)) : list ascii :=
  (fun p : ascii * bool => if p.2 then "G"%char else "B"%char) <$> ps.

Definition guess_of (ps : list (ascii * bool)) : list (option ascii) :=
  (fun p : ascii * bool => if p.2 then None else Some p.1) <$> ps.

Definition target_of (gs ts : list ascii) : list (option ascii) :=
  zip_with (fun g t => if bool_decide (g = t) then None else Some t) gs ts.

(** the first remaining [c] of the target is used up *)
Fixpoint consume (c : ascii) (tc : list (option ascii)) : list (option ascii) :=
  match tc with
  | [] => []
  | y :: tc' => if decide (y = Some c) then None :: tc' else y :: consume c tc'
  end.

Fixpoint yellows (gc : list (option ascii)) (fb : list ascii) (tc : list (option ascii))
  : list ascii :=
  match gc, fb with
  | Some c :: gc', f :: fb' =>
      if decide (Some c ∈ tc)
      then "Y"%char :: yellows gc' fb' (consume c tc)
      else f :: yellows gc' fb' tc
  | None :: gc', f :: fb' => f :: yellows gc' fb' tc
  | _, _ => fb
  end.

Definition marks (gs ts : list ascii) : list ascii :=
  yellows (guess_of (greens gs ts)) (feedback_of (greens gs ts)) (target_of gs ts).

End Passes.

(** ** Notions the properties are stated with *)

(** a word of the game: five letters *)
Definition five (w : string) : Prop := String.length w = 5%nat.

(** number of occurrences of the letter [L] in [w] *)
Definition occurrences (L : ascii) (w : string) : nat :=
  length (filter (fun c => c = L) (list_ascii_of_string w)).

(** number of positions of [guess] that hold [L] and are marked Green or
    Yellow in [fb] *)
Definition marked (L : ascii) (guess fb : string) : nat :=
  length (filter (fun p : ascii * ascii => p.1 = L ∧ (p.2 = "G"%char ∨ p.2 = "Y"%char))
            (zip (list_ascii_of_string guess) (list_ascii_of_string fb))).

(** the candidates whose feedback for [guess] is [k], in their order *)
Definition group (guess k : string) (words : list string) : list string :=
  filter (fun w => get_feedback guess w = Ret k) words.

(** all the words of all the groups of a dictionary of partitions *)
Definition members (partitions : gmap string (list string)) : list string :=
  concat ((map_to_list partitions).*2).

(** counts of a letter [L] along the two passes *)
Section Counts.

Variable L : ascii.

Definition cnt (l : list ascii) : nat := length (filter (fun c => c = L) l).
Definition cnt_left (tc : list (option ascii)) : nat :=
  length (filter (fun y => y = Some L) tc).
Definition cnt_green (ps : list (ascii * bool)) : nat :=
  length (filter (fun p : ascii * bool => p.1 = L ∧ p.2 = true) ps).
Definition cnt_other (ps : list (ascii * bool)) : nat :=
  length (filter (fun p : ascii * bool => p.1 = L ∧ p.2 = false) ps).
Definition cnt_marked (gs fb : list ascii) : nat :=
  length (filter (fun p : ascii * ascii => p.1 = L ∧ (p.2 = "G"%char ∨ p.2 = "Y"%char))
            (zip gs fb)).

End Counts.

(** a three-way comparison that orders its type: it is antisymmetric,
    [Lt] is transitive, and elements that compare [Eq] compare alike with
    every other element *)
Class Ordering {A : Type} (cmp : A -> A -> comparison) : Prop := {
  ord_opp : forall a b, cmp b a = CompOpp (cmp a b);
  ord_lt : forall a b c, cmp a b = Lt -> cmp b c = Lt -> cmp a c = Lt;
  ord_eq : forall a b c, cmp a b = Eq -> cmp a c = cmp b c
}.

(** the evaluation set of the general case (lines 265-302) *)
Definition general_pool (possible_words all_words : list string)
    (known_letters excluded_letters : gset ascii) : list string :=
  if decide (Z.of_nat (length possible_words) > ELIMINATION_THRESHOLD)%Z
  then General.elimination_set possible_words all_words known_letters excluded_letters
         (get_letter_frequencies possible_words)
  else General.medium_set possible_words all_words known_letters excluded_letters.

(** the tuple that line 342 appends for [word], given its partitions *)
Definition entry (possible_words : list string) (turn : Z)
    (known_letters excluded_letters : gset ascii) (word : string)
    (partitions : gmap string (list string)) : General.scored :=
  let max_remaining := max_or_zero (partition_sizes partitions) in
  let avg_remaining := avg_or_zero (partition_sizes partitions) in
  let is_possible_answer := bool_decide (word ∈ possible_words) in
  let unexplored := General.unexplored word known_letters excluded_letters in
  let known_letters_in_word := len_set (letters word ∩ known_letters) in
  {| General.sc_score :=
       General.final_score max_remaining avg_remaining is_possible_answer
         (Z.of_nat (length possible_words)) turn unexplored known_letters_in_word;
     General.sc_word := word;
     General.sc_max_remaining := max_remaining;
     General.sc_avg_remaining := avg_remaining;
     General.sc_is_answer := is_possible_answer;
     General.sc_unexplored := unexplored;
     General.sc_known := known_letters_in_word |}.

(** [sc] is the tuple of [word] in [candidates] *)
Definition scored_for (possible_words : list string) (turn : Z)
    (known_letters excluded_letters : gset ascii)
    (word : string) (sc : General.scored) : Prop :=
  exists partitions,
    calculate_partitions word possible_words = Ret partitions
    /\ sc = entry possible_words turn known_letters excluded_letters word partitions.

(** the terms of the score, as the specification words them *)
Module Stated.

(** -0.5 * unexplored + 0.3 * known_overlap, for a word that is not an
    answer when more than 6 candidates remain *)
Definition exploration_term (is_answer : bool) (remaining unexplored known_overlap : Z)
  : number :=
  if negb is_answer && (6 <? remaining)%Z
  then Number.add
         (Number.mul (Number.neg (Number.literal 5 1)) (Int unexplored))
         (Number.mul (Number.literal 3 1) (Int known_overlap))
  else Int 0.

Definition answer_term (is_answer : bool) (remaining turn : Z) : number :=
  if is_answer
  then if (remaining <=? 2)%Z || (5 <=? turn)%Z
       then Number.neg (Number.literal 10 1)
       else Number.literal 20 1
  else if (6 <? remaining)%Z then Number.neg (Number.literal 5 1) else Int 0.

(** worst_case + mean_case/1000 + exploration_term + answer_term, added
    in the order in which the specification writes the terms *)
Definition score_as_written (worst_case : Z) (mean_case exploration answer : number)
  : number :=
  Number.add
    (Number.add
       (Number.add (Int worst_case) (Number.truediv mean_case (Int 1000)))
       exploration)
    answer.

(** the same terms added in the order of the source (line 340) *)
Definition score_as_added (worst_case : Z) (mean_case exploration answer : number)
  : number :=
  Number.add
    (Number.add
       (Number.add (Int worst_case) (Number.truediv mean_case (Int 1000)))
       answer)
    exploration.

(** [worst] is the size of a largest group of [partitions] *)
Definition worst_case (partitions : gmap string (list string)) (worst : Z) : Prop :=
  (exists k g, partitions !! k = Some g /\ worst = Z.of_nat (length g))
  /\ forall k g, partitions !! k = Some g -> (Z.of_nat (length g) <= worst)%Z.

(** the average size of the groups of the candidates [words]: their
    number divided by the number of groups *)
Definition mean_case (partitions : gmap string (list string)) (words : list string)
  : number :=
  Number.truediv (Int (Z.of_nat (length words))) (Int (Z.of_nat (size partitions))).

(** the word that a scan in pool order keeping the first strictly lower
    score would return *)
Fixpoint first_lowest (best : option General.scored) (l : list General.scored)
  : option General.scored :=
  match l with
  | [] => best
  | x :: l' =>
      match best with
      | None => first_lowest (Some x) l'
      | Some b =>
          if Number.lt (General.sc_score x) (General.sc_score b)
          then first_lowest (Some x) l'
          else first_lowest best l'
      end
  end.

End Stated.

(** ** Concrete inputs *)

Module Inputs.

(** eleven candidates that differ in their first letter only *)
Definition ight : list string :=
  ["BIGHT"; "EIGHT"; "FIGHT"; "LIGHT"; "MIGHT"; "NIGHT"; "RIGHT"; "SIGHT";
   "TIGHT"; "WIGHT"; "DIGHT"]%string.

Definition ight_dictionary : list string := ight ++ ["COCOA"; "KAYAK"]%string.

Definition bake : list string := ["BAKER"; "BAKED"]%string.

Definition bake_dictionary : list string := ["DRYER"; "BAKER"; "BAKED"]%string.

End Inputs.

(** ** Notions for the further properties *)

(** a feedback mark *)
Definition gyb (c : ascii) : Prop := c = "G"%char \/ c = "Y"%char \/ c = "B"%char.

(** two states of [get_feedback] with lists of the same lengths, the
    second with marks only if the first has *)
Definition same_shape (st st' : Feedback.state) : Prop :=
  length (Feedback.guess_chars st') = length (Feedback.guess_chars st)
  /\ length (Feedback.target_chars st') = length (Feedback.target_chars st)
  /\ length (Feedback.feedback st') = length (Feedback.feedback st)
  /\ (Forall gyb (Feedback.feedback st) -> Forall gyb (Feedback.feedback st')).


(** a float that is a number: not an infinity, not NaN *)
Definition finite_float (x : number) : bool :=
  match x with
  | Float (S754_zero _) | Float (S754_finite _ _ _) => true
  | _ => false
  end.

(** [P] holds from [lo] on for [len] integers *)
Definition all_in (lo len : Z) (P : Z -> bool) : bool := forallb P (seqZ lo len).

(** the score of the distinguishing search for [n] candidates in [k]
    groups, the largest of [mx] words *)
Definition small_score (mx n k unexplored excluded_used : Z) : number :=
  Distinguishing.score mx (Number.truediv (Int n) (Int k)) unexplored excluded_used.

(** case analysis on the comparisons inside a comparison of floats *)
Ltac float_compare :=
  repeat match goal with
  | H : context [(?x ?= ?y)%Z] |- _ => destruct (Z.compare_spec x y)
  | |- context [(?x ?= ?y)%Z] => destruct (Z.compare_spec x y)
  | H : context [PosDef.Pos.compare_cont Eq ?x ?y] |- _ =>
      change (PosDef.Pos.compare_cont Eq x y) with (Pos.compare x y) in *;
      destruct (Pos.compare_spec x y)
  | |- context [PosDef.Pos.compare_cont Eq ?x ?y] =>
      change (PosDef.Pos.compare_cont Eq x y) with (Pos.compare x y) in *;
      destruct (Pos.compare_spec x y)
  end.

(** the score that the distinguishing search gives to a word (lines
    117-138) *)
Definition distinguishing_score_of (possible_words : list string)
    (known_letters excluded_letters : gset ascii) (word : string) : outcome number :=
  partitions ← calculate_partitions word possible_words;
  Ret (Distinguishing.score
         (max_or_zero (partition_sizes partitions))
         (avg_or_zero (partition_sizes partitions))
         (len_set (letters word ∖ known_letters ∖ excluded_letters))
         (len_set (letters word ∩ excluded_letters))).

(** [w], at position [i] of [pool], has the score [s]; in the comparison
    of Python no word of the pool has a lower score, and every earlier
    word has a higher one *)
Definition first_lowest_at (possible_words : list string)
    (known_letters excluded_letters : gset ascii)
    (pool : list string) (i : nat) (w : string) (s : number) : Prop :=
  pool !! i = Some w
  /\ distinguishing_score_of possible_words known_letters excluded_letters w = Ret s
  /\ forall j w' s',
       pool !! j = Some w' ->
       distinguishing_score_of possible_words known_letters excluded_letters w' = Ret s' ->
       Number.lt s' s = false /\ ((j < i)%nat -> Number.lt s s' = true).

(** the best so far of the distinguishing search after the words [pre] *)
Definition best_after (possible_words : list string)
    (known_letters excluded_letters : gset ascii)
    (pre : list string) (b : Distinguishing.best) : Prop :=
  (pre = [] /\ b = Distinguishing.start)
  \/ exists i w s info,
       first_lowest_at possible_words known_letters excluded_letters pre i w s
       /\ b = {| Distinguishing.best_word := Some w;
                 Distinguishing.best_score := s;
                 Distinguishing.best_info := Some info |}.


(** the words kept by the first loop of the elimination set (lines
    268-278) *)
Definition strict_words (possible_words all_words : list string)
    (known_letters excluded_letters : gset ascii) : list string :=
  filter (fun word => (word ∉ possible_words)
                      ∧ (letters word ∩ excluded_letters = ∅)
                      ∧ (3 <= General.unexplored word known_letters excluded_letters)%Z)
    (take 800 all_words).

(** the words added by its second loop (lines 282-286) *)
Definition widened_words (possible_words all_words : list string) : list string :=
  filter (fun word => (word ∉ possible_words)
                      ∧ (0 < score_word_frequency word
                               (get_letter_frequencies possible_words))%Z)
    (take 800 all_words).


(** ** The knowledge kept between the turns *)

Module Knowledge.

(** one position of the guess (solve_wordle_auto, lines 576-583) *)
Definition note (k : gset ascii * gset ascii) (p : ascii * ascii)
  : gset ascii * gset ascii :=
  let '(known_letters, excluded_letters) := k in
  let '(letter, fb) := p in
  if decide (fb = "G"%char)
  then (known_letters ∪ {[letter]}, excluded_letters)
  else if decide (fb = "Y"%char)
  then (known_letters ∪ {[letter]}, excluded_letters)
  else if decide (letter ∉ known_letters)
  then (known_letters, excluded_letters ∪ {[letter]})
  else (known_letters, excluded_letters).

(** [for i, (letter, fb) in enumerate(zip(guess, feedback))] *)
Definition update (guess feedback : string) (k : gset ascii * gset ascii)
  : gset ascii * gset ascii :=
  foldl note k (zip (list_ascii_of_string guess) (list_ascii_of_string feedback)).

(** what play_interactive_wordle keeps (lines 446-449); an empty string
    of [known_positions] is [None] *)
Record board : Type := mk_board {
  known_letters : gset ascii;
  known_positions : list (option ascii);
  excluded_letters : gset ascii;
  wrong_positions : gmap ascii (gset nat)
}.

(** one position of the guess (play_interactive_wordle, lines 499-508);
    [known_positions[i] = letter] raises out of range *)
Definition note_board (ip : nat * (ascii * ascii)) (b : board) : outcome board :=
  let '(i, (letter, fb)) := ip in
  if decide (fb = "G"%char)
  then
    if decide (i < length (known_positions b))%nat
    then Ret {| known_letters := known_letters b ∪ {[letter]};
                known_positions := <[i := Some letter]> (known_positions b);
                excluded_letters := excluded_letters b;
                wrong_positions := wrong_positions b |}
    else Raise IndexError
  else if decide (fb = "Y"%char)
  then Ret {| known_letters := known_letters b ∪ {[letter]};
              known_positions := known_positions b;
              excluded_letters := excluded_letters b;
              wrong_positions :=
                <[letter := default ∅ (wrong_positions b !! letter) ∪ {[i]}]>
                  (wrong_positions b) |}
  else if decide (letter ∉ known_letters b)
  then Ret {| known_letters := known_letters b;
              known_positions := known_positions b;
              excluded_letters := excluded_letters b ∪ {[letter]};
              wrong_positions := wrong_positions b |}
  else Ret b.

Definition update_board (suggestion feedback : string) (b : board) : outcome board :=
  let pairs := zip (list_ascii_of_string suggestion) (list_ascii_of_string feedback) in
  for_each (zip (seq 0 (length pairs)) pairs) note_board b.

(** the board at the start of a game (lines 446-449) *)
Definition empty_board : board :=
  {| known_letters := ∅;
     known_positions := replicate 5 None;
     excluded_letters := ∅;
     wrong_positions := ∅ |}.

End Knowledge.

(** ** solve_wordle_auto (lines 558-596) *)

Module Auto.

(** an exception of the selector or the feedback, or the [TypeError] of
    [get_feedback(None, target_word)] *)
Inductive error : Set :=
| Core (e : exn)
| TypeError.

Record state : Type := mk_state {
  possible_words : list string;
  guesses : list string;
  known_letters : gset ascii;
  excluded_letters : gset ascii
}.

Inductive turn_result : Type :=
| Solved (guesses : list string) (turn : Z)
| Continue (st : state).

(** the body of the loop over the turns (lines 568-593) *)
Definition play_turn (target_word : string) (word_list : list string) (turn : Z)
    (st : state) : error + turn_result :=
  match choose_best_word (possible_words st) word_list turn
          (Some (known_letters st)) (Some (excluded_letters st)) with
  | Raise e => inl (Core e)
  | Ret None => inl TypeError
  | Ret (Some guess) =>
      let guesses := guesses st ++ [guess] in
      match get_feedback guess target_word with
      | Raise e => inl (Core e)
      | Ret feedback =>
          let k := Knowledge.update guess feedback
                     (known_letters st, excluded_letters st) in
          if decide (feedback = "GGGGG"%string)
          then inr (Solved guesses turn)
          else
            match filter_words (possible_words st) guess feedback with
            | Raise e => inl (Core e)
            | Ret possible_words =>
                inr (Continue {| possible_words := possible_words;
                                 guesses := guesses;
                                 known_letters := k.1;
                                 excluded_letters := k.2 |})
            end
      end
  end.

(** [for turn in range(1, 7)], then line 596 *)
Fixpoint play (target_word : string) (word_list : list string) (turns : list Z)
    (st : state) : error + (list string * Z) :=
  match turns with
  | [] => inr (guesses st, 7%Z)
  | turn :: turns' =>
      match play_turn target_word word_list turn st with
      | inl e => inl e
      | inr (Solved guesses turn) => inr (guesses, turn)
      | inr (Continue st') => play target_word word_list turns' st'
      end
  end.

End Auto.

Definition solve_wordle_auto (target_word : string) (word_list : list string)
  : Auto.error + (list string * Z) :=
  Auto.play target_word word_list [1; 2; 3; 4; 5; 6]%Z
    {| Auto.possible_words := word_list;
       Auto.guesses := [];
       Auto.known_letters := ∅;
       Auto.excluded_letters := ∅ |}.


(** a letter of the guess with a Green or Yellow mark *)
Definition marked_pair (p : ascii * ascii) : Prop :=
  p.2 = "G"%char \/ p.2 = "Y"%char.

Global Instance marked_pair_dec (p : ascii * ascii) : Decision (marked_pair p).
Proof. unfold marked_pair. apply _. Defined.

(** * Properties *)

(** ** get_feedback on the scenarios of the specification *)

Example get_feedback_court : get_feedback "COURT" "COURT" = Ret "GGGGG"%string.
Proof. reflexivity. Qed.

Example get_feedback_arise : get_feedback "ARISE" "RAISE" = Ret "YYGGG"%string.
Proof. reflexivity. Qed.

(** two E in the guess, two in the target: both are yellow, the D is not *)
Example get_feedback_speed : get_feedback "SPEED" "ERASE" = Ret "YBYYB"%string.
Proof. vm_compute. reflexivity. Qed.

(** one E in the target only: the second E of the guess stays black *)
Example get_feedback_eerie : get_feedback "EERIE" "COVER" = Ret "YBYBB"%string.
Proof. vm_compute. reflexivity. Qed.

(** a word that is too short makes the first loop raise *)
Example get_feedback_short : get_feedback "CAT" "COURT" = Raise IndexError.
Proof. vm_compute. reflexivity. Qed.

(** ** get_feedback: the index loops compute the two passes *)

Section FeedbackLoops.
Import Feedback Passes.

Lemma mark_green_cons i f fb t tc g gc :
  mark_green (S i) (mk_state (f :: fb) (t :: tc) (g :: gc))
  = (mark_green i (mk_state fb tc gc) ≫= fun st =>
       Ret (mk_state (f :: feedback st) (t :: target_chars st) (g :: guess_chars st))).
Proof.
  unfold mark_green, index; simpl.
  destruct (gc !! i) as [a|]; simpl; [|reflexivity].
  destruct (tc !! i) as [b|]; simpl; [|reflexivity].
  destruct (decide (a = b)); reflexivity.
Qed.

Lemma for_each_green_cons n : forall a f fb t tc g gc,
  for_each (seq (S a) n) mark_green (mk_state (f :: fb) (t :: tc) (g :: gc))
  = (for_each (seq a n) mark_green (mk_state fb tc gc) ≫= fun st =>
       Ret (mk_state (f :: feedback st) (t :: target_chars st) (g :: guess_chars st))).
Proof.
  induction n as [|n IH]; intros a f fb t tc g gc; simpl; [reflexivity|].
  rewrite mark_green_cons.
  destruct (mark_green a (mk_state fb tc gc)) as [[fb' tc' gc']|e]; simpl; [|reflexivity].
  apply IH.
Qed.

Lemma first_pass gs : forall ts,
  length gs = length ts ->
  for_each (seq 0 (length gs)) mark_green
    (mk_state (replicate (length gs) "B"%char) (Some <$> ts) (Some <$> gs))
  = Ret (mk_state (feedback_of (greens gs ts)) (target_of gs ts) (guess_of (greens gs ts))).
Proof.
  induction gs as [|g gs IH]; intros [|t ts] Hlen; simpl in Hlen; try discriminate;
    [reflexivity|].
  injection Hlen as Hlen.
  cbn [length seq for_each replicate fmap list_fmap].
  unfold mark_green at 1, index; cbn.
  unfold greens, target_of, feedback_of, guess_of; cbn.
  destruct (decide (Some g = Some t)) as [Heq|Hne].
  - injection Heq as ->. rewrite bool_decide_eq_true_2 by reflexivity.
    cbn. rewrite for_each_green_cons, (IH ts Hlen). reflexivity.
  - rewrite bool_decide_eq_false_2 by congruence.
    cbn. rewrite for_each_green_cons, (IH ts Hlen). reflexivity.
Qed.

Lemma py_index_consume c tc :
  Some c ∈ tc ->
  exists j, py_index tc (Some c) = Ret j /\ <[j:=None]> tc = consume c tc.
Proof.
  unfold py_index.
  induction tc as [|y tc IH]; intros Hin; [by apply elem_of_nil in Hin|].
  cbn [list_find consume].
  destruct (decide (y = Some c)) as [->|Hne].
  - exists 0%nat. split; reflexivity.
  - apply elem_of_cons in Hin as [Heq|Hin]; [congruence|].
    destruct (IH Hin) as (j & Hj & Hins).
    destruct (list_find (fun y0 => y0 = Some c) tc) as [[j' x]|]; [|discriminate].
    injection Hj as ->.
    exists (S j). split; [reflexivity|]. cbn [insert list_insert]. by f_equal.
Qed.

Lemma mark_yellow_cons i f fb tc g gc :
  mark_yellow (S i) (mk_state (f :: fb) tc (g :: gc))
  = (mark_yellow i (mk_state fb tc gc) ≫= fun st =>
       Ret (mk_state (f :: feedback st) (target_chars st) (g :: guess_chars st))).
Proof.
  unfold mark_yellow, index; simpl.
  destruct (gc !! i) as [[c|]|]; simpl; try reflexivity.
  destruct (decide (Some c ∈ tc)); [|reflexivity].
  destruct (py_index tc (Some c)); reflexivity.
Qed.

Lemma for_each_yellow_cons n : forall a f fb tc g gc,
  for_each (seq (S a) n) mark_yellow (mk_state (f :: fb) tc (g :: gc))
  = (for_each (seq a n) mark_yellow (mk_state fb tc gc) ≫= fun st =>
       Ret (mk_state (f :: feedback st) (target_chars st) (g :: guess_chars st))).
Proof.
  induction n as [|n IH]; intros a f fb tc g gc; simpl; [reflexivity|].
  rewrite mark_yellow_cons.
  destruct (mark_yellow a (mk_state fb tc gc)) as [[fb' tc' gc']|e]; simpl; [|reflexivity].
  apply IH.
Qed.

Lemma second_pass gc : forall fb tc,
  length gc = length fb ->
  exists tc',
    for_each (seq 0 (length gc)) mark_yellow (mk_state fb tc gc)
    = Ret (mk_state (yellows gc fb tc) tc' gc).
Proof.
  induction gc as [|g gc IH]; intros [|f fb] tc Hlen; simpl in Hlen; try discriminate.
  { exists tc. reflexivity. }
  injection Hlen as Hlen.
  cbn [length seq for_each].
  unfold mark_yellow at 1, index; cbn.
  destruct g as [c|].
  - destruct (decide (Some c ∈ tc)) as [Hin|Hnin].
    + destruct (py_index_consume c tc Hin) as (j & Hj & Hc). rewrite Hj. cbn. rewrite Hc.
      rewrite for_each_yellow_cons.
      destruct (IH fb (consume c tc) Hlen) as [tc' ->].
      exists tc'. reflexivity.
    + cbn. rewrite for_each_yellow_cons.
      destruct (IH fb tc Hlen) as [tc' ->].
      exists tc'. reflexivity.
  - cbn. rewrite for_each_yellow_cons.
    destruct (IH fb tc Hlen) as [tc' ->].
    exists tc'. reflexivity.
Qed.

End FeedbackLoops.

Lemma length_list_ascii_of_string (s : string) :
  length (list_ascii_of_string s) = String.length s.
Proof. induction s as [|a s IH]; simpl; [reflexivity | by rewrite IH]. Qed.

(** on five-letter words [get_feedback] returns, and returns the marks of
    the two passes *)
Lemma get_feedback_marks (guess target : string) :
  five guess -> five target ->
  get_feedback guess target
  = Ret (string_of_list_ascii
           (Passes.marks (list_ascii_of_string guess) (list_ascii_of_string target))).
Proof.
  unfold five. intros Hg Ht.
  rewrite <- length_list_ascii_of_string in Hg, Ht.
  unfold get_feedback, Feedback.initial, range.
  rewrite <- Hg at 1 2.
  rewrite first_pass by congruence. cbn [mbind outcome_bind].
  set (ps := Passes.greens _ _).
  assert (Hlen : length (Passes.guess_of ps) = length (Passes.feedback_of ps)).
  { unfold Passes.guess_of, Passes.feedback_of. by rewrite !length_fmap. }
  assert (H5 : length (Passes.guess_of ps) = 5%nat).
  { unfold Passes.guess_of, ps, Passes.greens.
    rewrite length_fmap, length_zip_with. lia. }
  destruct (second_pass (Passes.guess_of ps) (Passes.feedback_of ps)
              (Passes.target_of (list_ascii_of_string guess) (list_ascii_of_string target))
              Hlen) as [tc' Hsecond].
  rewrite H5 in Hsecond. rewrite Hsecond. reflexivity.
Qed.

(** ** get_feedback: counting the marks of a letter *)

Section FeedbackCount.
Import Passes.

Variable L : ascii.

Lemma cnt_left_absent tc : Some L ∉ tc -> cnt_left L tc = 0%nat.
Proof.
  unfold cnt_left. induction tc as [|y tc IH]; intros Hnin; [reflexivity|].
  apply not_elem_of_cons in Hnin as [Hne Hnin].
  rewrite filter_cons_False by congruence. by apply IH.
Qed.

Lemma cnt_left_consume_same tc :
  Some L ∈ tc -> S (cnt_left L (consume L tc)) = cnt_left L tc.
Proof.
  unfold cnt_left. induction tc as [|y tc IH]; intros Hin; [by apply elem_of_nil in Hin|].
  cbn [consume]. destruct (decide (y = Some L)) as [->|Hne].
  - rewrite filter_cons_False by discriminate.
    rewrite filter_cons_True by reflexivity. reflexivity.
  - apply elem_of_cons in Hin as [Heq|Hin]; [congruence|].
    rewrite !filter_cons_False by assumption. by apply IH.
Qed.

Lemma cnt_left_consume_other c tc :
  c ≠ L -> cnt_left L (consume c tc) = cnt_left L tc.
Proof.
  unfold cnt_left. intros Hne. induction tc as [|y tc IH]; [reflexivity|].
  cbn [consume]. destruct (decide (y = Some c)) as [->|Hy].
  - rewrite !filter_cons_False by congruence. reflexivity.
  - destruct (decide (y = Some L)) as [->|Hy'].
    + rewrite !filter_cons_True by reflexivity. cbn. by rewrite IH.
    + rewrite !filter_cons_False by assumption. apply IH.
Qed.

(** the second pass marks yellow as many of the non-green [L] of the
    guess as the target has [L] left *)
Lemma yellows_count ps : forall tc,
  cnt_marked L (ps.*1) (yellows (guess_of ps) (feedback_of ps) tc)
  = (cnt_green L ps + Nat.min (cnt_other L ps) (cnt_left L tc))%nat.
Proof.
  unfold cnt_marked, cnt_green, cnt_other.
  induction ps as [|[g b] ps IH]; intros tc; [reflexivity|].
  cbn [fmap list_fmap guess_of feedback_of fst snd yellows].
  destruct b; cbn [yellows zip zip_with].
  - rewrite (filter_cons_False (fun p : ascii * bool => p.1 = L ∧ p.2 = false))
      by (cbn; intros [_ ?]; discriminate).
    destruct (decide (g = L)) as [->|Hne].
    + rewrite !filter_cons_True by (cbn; auto). cbn [length].
      specialize (IH tc). unfold guess_of, feedback_of in IH. rewrite IH. lia.
    + rewrite !filter_cons_False by (cbn; intros [? _]; done).
      apply IH.
  - rewrite (filter_cons_False (fun p : ascii * bool => p.1 = L ∧ p.2 = true))
      by (cbn; intros [_ ?]; discriminate).
    destruct (decide (Some g ∈ tc)) as [Hin|Hnin]; cbn [zip zip_with].
    + destruct (decide (g = L)) as [->|Hne].
      * rewrite !filter_cons_True by (cbn; auto). cbn [length].
        specialize (IH (consume L tc)). unfold guess_of, feedback_of in IH. rewrite IH.
        pose proof (cnt_left_consume_same tc Hin). lia.
      * rewrite !filter_cons_False by (cbn; intros [? _]; done).
        specialize (IH (consume g tc)). unfold guess_of, feedback_of in IH. rewrite IH.
        by rewrite cnt_left_consume_other.
    + rewrite (filter_cons_False _ (g, "B"%char))
        by (cbn; intros [_ [?|?]]; discriminate).
      destruct (decide (g = L)) as [->|Hne].
      * rewrite filter_cons_True by (cbn; auto). cbn [length].
        specialize (IH tc). unfold guess_of, feedback_of in IH. rewrite IH.
        rewrite (cnt_left_absent tc Hnin). lia.
      * rewrite filter_cons_False by (cbn; intros [? _]; done).
        apply IH.
Qed.

Lemma greens_fst gs : forall ts, length gs = length ts -> (greens gs ts).*1 = gs.
Proof.
  induction gs as [|g gs IH]; intros [|t ts] Hlen; simpl in Hlen; try discriminate;
    [reflexivity|].
  injection Hlen as Hlen. unfold greens in *. cbn. by rewrite IH.
Qed.

Lemma greens_guess_count gs : forall ts,
  length gs = length ts ->
  (cnt_green L (greens gs ts) + cnt_other L (greens gs ts))%nat = cnt L gs.
Proof.
  unfold cnt_green, cnt_other, cnt, greens.
  induction gs as [|g gs IH]; intros [|t ts] Hlen; simpl in Hlen; try discriminate;
    [reflexivity|].
  injection Hlen as Hlen. specialize (IH ts Hlen). cbn [zip_with].
  destruct (decide (g = L)) as [->|Hne].
  - rewrite (filter_cons_True (fun c => c = L)) by reflexivity. cbn [length].
    destruct (bool_decide (L = t)).
    + rewrite filter_cons_True by (cbn; auto).
      rewrite filter_cons_False by (cbn; intros [_ ?]; discriminate).
      cbn [length]. lia.
    + rewrite filter_cons_False by (cbn; intros [_ ?]; discriminate).
      rewrite filter_cons_True by (cbn; auto).
      cbn [length]. lia.
  - rewrite !filter_cons_False by (cbn; try intros [? _]; done).
    exact IH.
Qed.

Lemma greens_target_count gs : forall ts,
  length gs = length ts ->
  (cnt_green L (greens gs ts) + cnt_left L (target_of gs ts))%nat = cnt L ts.
Proof.
  unfold cnt_green, cnt_left, cnt, greens, target_of.
  induction gs as [|g gs IH]; intros [|t ts] Hlen; simpl in Hlen; try discriminate;
    [reflexivity|].
  injection Hlen as Hlen. specialize (IH ts Hlen). cbn [zip_with].
  destruct (decide (g = t)) as [->|Hgt].
  - rewrite !bool_decide_eq_true_2 by reflexivity.
    rewrite (filter_cons_False (fun y => y = Some L)) by discriminate.
    destruct (decide (t = L)) as [->|Hne].
    + rewrite !filter_cons_True by (cbn; auto). cbn [length]. lia.
    + rewrite !filter_cons_False by (cbn; try intros [? _]; done). exact IH.
  - rewrite !bool_decide_eq_false_2 by assumption.
    rewrite (filter_cons_False (fun p : ascii * bool => p.1 = L ∧ p.2 = true))
      by (cbn; intros [_ ?]; discriminate).
    destruct (decide (t = L)) as [->|Hne].
    + rewrite !filter_cons_True by reflexivity. cbn [length]. lia.
    + rewrite !filter_cons_False by congruence. exact IH.
Qed.

Lemma marks_count gs ts :
  length gs = length ts ->
  cnt_marked L gs (marks gs ts) = Nat.min (cnt L gs) (cnt L ts).
Proof.
  intros Hlen. unfold marks.
  rewrite <- (greens_fst gs ts Hlen) at 1.
  rewrite yellows_count.
  pose proof (greens_guess_count gs ts Hlen).
  pose proof (greens_target_count gs ts Hlen).
  lia.
Qed.

End FeedbackCount.

Lemma marks_same ts : forall tc,
  Passes.yellows (Passes.guess_of (Passes.greens ts ts))
    (Passes.feedback_of (Passes.greens ts ts)) tc
  = replicate (length ts) "G"%char.
Proof.
  unfold Passes.greens, Passes.guess_of, Passes.feedback_of.
  induction ts as [|t ts IH]; intros tc; [reflexivity|].
  cbn [zip_with fmap list_fmap]. rewrite bool_decide_eq_true_2 by reflexivity.
  cbn. f_equal. apply IH.
Qed.

Lemma marks_length gs : forall ts,
  length gs = length ts -> length (Passes.marks gs ts) = length gs.
Proof.
  intros ts Hlen. unfold Passes.marks.
  assert (Hy : forall gc fb tc, length gc = length fb ->
                 length (Passes.yellows gc fb tc) = length fb).
  { induction gc as [|[c|] gc IH]; intros [|f fb] tc Hl; simpl in Hl; try discriminate;
      try reflexivity; cbn [Passes.yellows].
    - destruct (decide (Some c ∈ tc)); cbn [length]; f_equal; apply IH; congruence.
    - cbn [length]; f_equal; apply IH; congruence. }
  rewrite Hy; unfold Passes.guess_of, Passes.feedback_of, Passes.greens;
    rewrite !length_fmap, ?length_zip_with; lia.
Qed.

(** C3: on five-letter words, [get_feedback guess target] marks Green or
    Yellow exactly min(occurrences of L in guess, occurrences of L in
    target) of the positions of the guess that hold the letter L, and
    [get_feedback target target] is all Green. *)
Theorem get_feedback_letter_count (guess target : string) (L : ascii) :
  five guess -> five target ->
  exists fb,
    get_feedback guess target = Ret fb
    /\ String.length fb = 5%nat
    /\ marked L guess fb = Nat.min (occurrences L guess) (occurrences L target)
    /\ get_feedback target target = Ret "GGGGG"%string.
Proof.
  intros Hg Ht.
  pose proof Hg as Hg'. pose proof Ht as Ht'. unfold five in Hg', Ht'.
  rewrite <- length_list_ascii_of_string in Hg', Ht'.
  eexists. split; [apply get_feedback_marks; assumption|].
  split; [|split].
  - rewrite <- length_list_ascii_of_string, list_ascii_of_string_of_list_ascii.
    rewrite marks_length; congruence.
  - unfold marked, occurrences.
    rewrite list_ascii_of_string_of_list_ascii.
    apply (marks_count L). congruence.
  - rewrite get_feedback_marks by assumption.
    unfold Passes.marks. rewrite marks_same, Ht'. reflexivity.
Qed.

Lemma get_feedback_letter_count_witness :
  exists fb,
    get_feedback "SPEED" "ERASE" = Ret fb
    /\ String.length fb = 5%nat
    /\ marked "E" "SPEED" fb
       = Nat.min (occurrences "E" "SPEED") (occurrences "E" "ERASE")
    /\ get_feedback "ERASE" "ERASE" = Ret "GGGGG"%string.
Proof.
  apply (get_feedback_letter_count "SPEED" "ERASE" "E"); reflexivity.
Defined.

(** ** filter_words *)

Arguments get_feedback : simpl never.

Lemma filter_words_loop (guess feedback : string) (words : list string) :
  forall valid_words l,
  for_each words
    (fun word valid_words =>
       fb ← get_feedback guess word;
       if decide (fb = feedback)
       then Ret (valid_words ++ [word])
       else Ret valid_words)
    valid_words = Ret l ->
  l = valid_words ++ filter (fun c => get_feedback guess c = Ret feedback) words.
Proof.
  induction words as [|w words IH]; intros acc l Hrun; cbn in Hrun.
  - injection Hrun as <-. by rewrite app_nil_r.
  - destruct (get_feedback guess w) as [fb|e] eqn:Hfb; [|discriminate].
    cbn in Hrun. destruct (decide (fb = feedback)) as [->|Hne].
    + rewrite filter_cons_True by assumption.
      rewrite (IH _ _ Hrun), <- app_assoc. reflexivity.
    + rewrite filter_cons_False by congruence.
      apply (IH _ _ Hrun).
Qed.

Lemma filter_words_loop_returns (guess feedback : string) (words : list string) :
  five guess -> Forall five words ->
  forall valid_words, exists l,
  for_each words
    (fun word valid_words =>
       fb ← get_feedback guess word;
       if decide (fb = feedback)
       then Ret (valid_words ++ [word])
       else Ret valid_words)
    valid_words = Ret l.
Proof.
  intros Hg Hw.
  induction Hw as [|w words Hfive _ IH]; intros acc; cbn; [eauto|].
  rewrite (get_feedback_marks guess w Hg Hfive). cbn.
  destruct (decide _); apply IH.
Qed.

Lemma filter_words_returns (guess feedback : string) (words : list string) :
  five guess -> Forall five words ->
  exists l, filter_words words guess feedback = Ret l.
Proof. intros Hg Hw. by apply filter_words_loop_returns. Qed.

(** C9: [filter_words] returns exactly the candidates whose feedback for
    the guess is the pattern, in their order, so no more words than it
    was given. *)
Theorem filter_words_exact (words : list string) (guess feedback : string) :
  five guess -> Forall five words ->
  exists l,
    filter_words words guess feedback = Ret l
    /\ l = filter (fun c => get_feedback guess c = Ret feedback) words
    /\ (length l <= length words)%nat.
Proof.
  intros Hg Hw.
  destruct (filter_words_returns guess feedback words Hg Hw) as [l Hl].
  exists l. split; [assumption|].
  assert (Heq : l = filter (fun c => get_feedback guess c = Ret feedback) words).
  { apply (filter_words_loop guess feedback words [] l Hl). }
  split; [assumption|]. rewrite Heq. apply length_filter.
Qed.

Lemma filter_words_exact_witness :
  exists l,
    filter_words ["RAISE"; "ARISE"; "ERASE"]%string "ARISE" "YYGGG" = Ret l
    /\ l = filter (fun c => get_feedback "ARISE" c = Ret "YYGGG"%string)
             ["RAISE"; "ARISE"; "ERASE"]%string
    /\ (length l <= length ["RAISE"; "ARISE"; "ERASE"]%string)%nat.
Proof.
  apply (filter_words_exact ["RAISE"; "ARISE"; "ERASE"]%string "ARISE" "YYGGG").
  - reflexivity.
  - repeat constructor.
Defined.

(** C7: filtering by the feedback that the guess gets against a target
    keeps the target. *)
Theorem filter_words_keeps_target (candidates : list string) (guess target : string) :
  five guess -> Forall five candidates -> target ∈ candidates ->
  exists fb l,
    get_feedback guess target = Ret fb
    /\ filter_words candidates guess fb = Ret l
    /\ target ∈ l.
Proof.
  intros Hg Hc Hin.
  assert (Ht : five target) by (rewrite Forall_forall in Hc; by apply Hc).
  pose proof (get_feedback_marks guess target Hg Ht) as Hfb.
  set (fb := string_of_list_ascii _) in Hfb.
  destruct (filter_words_returns guess fb candidates Hg Hc) as [l Hl].
  exists fb, l. split; [exact Hfb|]. split; [exact Hl|].
  rewrite (filter_words_loop _ _ _ _ _ Hl). cbn.
  apply list_elem_of_filter. split; assumption.
Qed.

Lemma filter_words_keeps_target_witness :
  exists fb l,
    get_feedback "ARISE" "RAISE" = Ret fb
    /\ filter_words ["ERASE"; "RAISE"; "ARISE"]%string "ARISE" fb = Ret l
    /\ "RAISE"%string ∈ l.
Proof.
  apply (filter_words_keeps_target ["ERASE"; "RAISE"; "ARISE"]%string "ARISE" "RAISE").
  - reflexivity.
  - repeat constructor.
  - apply list_elem_of_In. right. left. reflexivity.
Defined.

(** ** calculate_partitions *)

Section Partitions.

Variable guess : string.

Lemma concat_perm {A : Type} (l1 l2 : list (list A)) :
  l1 ≡ₚ l2 -> concat l1 ≡ₚ concat l2.
Proof.
  induction 1 as [|x l l' _ IH|x y l|l l' l'' _ IH1 _ IH2]; cbn.
  - reflexivity.
  - by rewrite IH.
  - rewrite !app_assoc. f_equiv. apply Permutation_app_comm.
  - by rewrite IH1.
Qed.

Lemma dict_append_lookup (m : gmap string (list string)) (key word k : string) :
  default [] (dict_append m key word !! k)
  = default [] (m !! k) ++ (if decide (key = k) then [word] else []).
Proof.
  unfold dict_append. destruct (decide (key = k)) as [->|Hne].
  - by rewrite lookup_insert_eq.
  - rewrite lookup_insert_ne by assumption. by rewrite app_nil_r.
Qed.

Lemma dict_append_members (m : gmap string (list string)) (key word : string) :
  members (dict_append m key word) ≡ₚ members m ++ [word].
Proof.
  unfold members, dict_append.
  destruct (m !! key) as [l|] eqn:Hkey; cbn [default].
  - rewrite <- insert_delete_eq.
    rewrite (concat_perm _ ((l ++ [word]) :: (map_to_list (delete key m)).*2)).
    2:{ rewrite map_to_list_insert by apply lookup_delete_eq. reflexivity. }
    rewrite (concat_perm ((map_to_list m).*2) (l :: (map_to_list (delete key m)).*2)).
    2:{ rewrite <- (map_to_list_delete m key l Hkey). reflexivity. }
    cbn [concat]. rewrite <- !app_assoc. f_equiv. apply Permutation_app_comm.
  - rewrite (concat_perm _ ([word] :: (map_to_list m).*2)).
    2:{ rewrite map_to_list_insert by assumption. reflexivity. }
    cbn [concat]. apply Permutation_app_comm.
Qed.

Lemma partitions_loop (words : list string) :
  forall m m',
  for_each words
    (fun word partitions =>
       feedback ← get_feedback guess word;
       Ret (dict_append partitions feedback word))
    m = Ret m' ->
  (forall k, default [] (m' !! k) = default [] (m !! k) ++ group guess k words)
  /\ members m' ≡ₚ members m ++ words.
Proof.
  induction words as [|w words IH]; intros m m' Hrun; cbn [for_each] in Hrun.
  - injection Hrun as <-. split; [intros k|]; by rewrite app_nil_r.
  - destruct (get_feedback guess w) as [fb|e] eqn:Hfb; [|discriminate].
    cbn [mbind outcome_bind] in Hrun.
    destruct (IH _ _ Hrun) as [Hlook Hmem]. split.
    + intros k. rewrite Hlook, dict_append_lookup, <- app_assoc. f_equal.
      unfold group. destruct (decide (fb = k)) as [->|Hne].
      * by rewrite filter_cons_True.
      * rewrite filter_cons_False by congruence. reflexivity.
    + rewrite Hmem, dict_append_members, <- app_assoc. reflexivity.
Qed.

Lemma partitions_loop_returns (words : list string) :
  five guess -> Forall five words ->
  forall m, exists m',
  for_each words
    (fun word partitions =>
       feedback ← get_feedback guess word;
       Ret (dict_append partitions feedback word))
    m = Ret m'.
Proof.
  intros Hg Hw.
  induction Hw as [|w words Hfive _ IH]; intros m; cbn [for_each]; [eauto|].
  rewrite (get_feedback_marks guess w Hg Hfive). cbn [mbind outcome_bind]. apply IH.
Qed.

Lemma calculate_partitions_returns (words : list string) :
  five guess -> Forall five words ->
  exists m, calculate_partitions guess words = Ret m.
Proof. intros Hg Hw. by apply partitions_loop_returns. Qed.

Lemma calculate_partitions_groups (words : list string) (m : gmap string (list string)) :
  calculate_partitions guess words = Ret m ->
  (forall k l, m !! k = Some l -> l = group guess k words)
  /\ (forall k, group guess k words ≠ [] -> m !! k = Some (group guess k words))
  /\ members m ≡ₚ words.
Proof.
  intros Hrun. destruct (partitions_loop words ∅ m Hrun) as [Hlook Hmem].
  split; [|split].
  - intros k l Hk. specialize (Hlook k). rewrite Hk, lookup_empty in Hlook. exact Hlook.
  - intros k Hne. specialize (Hlook k). rewrite lookup_empty in Hlook.
    destruct (m !! k) as [l|]; cbn in Hlook; [by rewrite Hlook | congruence].
  - rewrite Hmem. unfold members. rewrite map_to_list_empty. reflexivity.
Qed.

End Partitions.

(** C8: the groups of [calculate_partitions guess candidates] are pairwise
    disjoint, their union is the candidate list (each candidate is in
    exactly one group), and no candidates give the empty dictionary. *)
Theorem calculate_partitions_cover (guess : string) (candidates : list string) :
  five guess -> Forall five candidates ->
  exists m,
    calculate_partitions guess candidates = Ret m
    /\ (forall k1 k2 l1 l2 w,
          m !! k1 = Some l1 -> m !! k2 = Some l2 -> k1 ≠ k2 -> w ∈ l1 -> w ∉ l2)
    /\ members m ≡ₚ candidates
    /\ (forall w, w ∈ candidates ->
          exists k l, m !! k = Some l /\ w ∈ l
                      /\ forall k' l', m !! k' = Some l' -> w ∈ l' -> k' = k)
    /\ calculate_partitions guess [] = Ret ∅.
Proof.
  intros Hg Hc.
  destruct (calculate_partitions_returns guess candidates Hg Hc) as [m Hm].
  destruct (calculate_partitions_groups guess candidates m Hm) as (Hgrp & Hsome & Hmem).
  assert (Hfb : forall k l w, m !! k = Some l -> w ∈ l -> get_feedback guess w = Ret k).
  { intros k l w Hk Hw. rewrite (Hgrp k l Hk) in Hw.
    unfold group in Hw. apply list_elem_of_filter in Hw. tauto. }
  exists m. split; [assumption|]. split; [|split; [assumption|split; [|reflexivity]]].
  - intros k1 k2 l1 l2 w H1 H2 Hne Hw1 Hw2.
    pose proof (Hfb _ _ _ H1 Hw1) as E1. pose proof (Hfb _ _ _ H2 Hw2) as E2.
    congruence.
  - intros w Hw.
    assert (Hfive : five w) by (rewrite Forall_forall in Hc; by apply Hc).
    pose proof (get_feedback_marks guess w Hg Hfive) as Hk.
    set (k := string_of_list_ascii _) in Hk.
    assert (Hin : w ∈ group guess k candidates).
    { unfold group. apply list_elem_of_filter. split; assumption. }
    exists k, (group guess k candidates). split; [|split; [assumption|]].
    + apply Hsome. intros Hnil. rewrite Hnil in Hin. by apply elem_of_nil in Hin.
    + intros k' l' Hk' Hw'. pose proof (Hfb _ _ _ Hk' Hw'). congruence.
Qed.

Lemma calculate_partitions_cover_witness :
  exists m,
    calculate_partitions "ARISE" ["RAISE"; "ERASE"; "ARISE"]%string = Ret m
    /\ (forall k1 k2 l1 l2 w,
          m !! k1 = Some l1 -> m !! k2 = Some l2 -> k1 ≠ k2 -> w ∈ l1 -> w ∉ l2)
    /\ members m ≡ₚ ["RAISE"; "ERASE"; "ARISE"]%string
    /\ (forall w, w ∈ ["RAISE"; "ERASE"; "ARISE"]%string ->
          exists k l, m !! k = Some l /\ w ∈ l
                      /\ forall k' l', m !! k' = Some l' -> w ∈ l' -> k' = k)
    /\ calculate_partitions "ARISE" [] = Ret ∅.
Proof.
  apply (calculate_partitions_cover "ARISE" ["RAISE"; "ERASE"; "ARISE"]%string).
  - reflexivity.
  - repeat constructor.
Defined.

(** ** Comparisons and [list.sort] *)

Section OrderingFacts.

Context {A : Type} (cmp : A -> A -> comparison) `{!Ordering cmp}.

Lemma ord_eq_r a b c : cmp a b = Eq -> cmp c a = cmp c b.
Proof.
  intros Heq. rewrite (ord_opp a c), (ord_opp b c). f_equal. by apply ord_eq.
Qed.

Lemma ord_gt a b c : cmp a b = Gt -> cmp b c = Gt -> cmp a c = Gt.
Proof.
  intros Hab Hbc.
  rewrite (ord_opp b a) in Hab. rewrite (ord_opp c b) in Hbc.
  rewrite (ord_opp c a).
  destruct (cmp b a) eqn:Eba; try discriminate.
  destruct (cmp c b) eqn:Ecb; try discriminate.
  by rewrite (ord_lt c b a Ecb Eba).
Qed.

(** "not smaller" is transitive *)
Lemma ord_not_lt a b c : cmp a b ≠ Lt -> cmp b c ≠ Lt -> cmp a c ≠ Lt.
Proof.
  intros Hab Hbc.
  destruct (cmp a b) eqn:Eab; [| congruence |].
  - by rewrite (ord_eq a b c Eab).
  - destruct (cmp b c) eqn:Ebc; [| congruence |].
    + rewrite <- (ord_eq_r b c a Ebc). congruence.
    + by rewrite (ord_gt a b c Eab Ebc).
Qed.

Lemma insert_sorted_elem x y l : y ∈ insert_sorted cmp x l <-> y = x \/ y ∈ l.
Proof.
  induction l as [|z l IH]; cbn.
  - rewrite list_elem_of_singleton, elem_of_nil. tauto.
  - destruct (is_lt (cmp z x)); rewrite !elem_of_cons, ?IH; tauto.
Qed.

Lemma py_sort_elem y l : y ∈ py_sort cmp l <-> y ∈ l.
Proof.
  unfold py_sort. induction l as [|x l IH]; cbn; [reflexivity|].
  rewrite insert_sorted_elem, elem_of_cons, IH. reflexivity.
Qed.

Lemma py_sort_length l : length (py_sort cmp l) = length l.
Proof.
  unfold py_sort. induction l as [|x l IH]; cbn; [reflexivity|].
  rewrite <- IH. generalize (foldr (insert_sorted cmp) [] l). intros s.
  induction s as [|z s IHs]; cbn; [reflexivity|].
  destruct (is_lt (cmp z x)); cbn; [by rewrite IHs | reflexivity].
Qed.

Lemma ord_refl a : cmp a a = Eq.
Proof. pose proof (ord_opp a a) as H. destruct (cmp a a); done. Qed.

(** the first element of the sorted list: nothing in the list is smaller *)
Lemma py_sort_head l : forall h,
  head (py_sort cmp l) = Some h ->
  h ∈ l /\ forall y, y ∈ l -> cmp y h ≠ Lt.
Proof.
  induction l as [|x l IH]; intros h Hh; [discriminate|].
  change (py_sort cmp (x :: l)) with (insert_sorted cmp x (py_sort cmp l)) in Hh.
  destruct (py_sort cmp l) as [|z s] eqn:Hs.
  - assert (l = []) as ->.
    { apply nil_length_inv. by rewrite <- (py_sort_length l), Hs. }
    cbn in Hh. injection Hh as <-. split; [apply list_elem_of_here|].
    intros y Hy. apply list_elem_of_singleton in Hy as ->. by rewrite ord_refl.
  - destruct (IH z eq_refl) as [Hz Hmin]. cbn in Hh.
    destruct (is_lt (cmp z x)) eqn:Hzx; cbn in Hh; injection Hh as <-.
    + split; [by apply list_elem_of_further|].
      intros y Hy. apply elem_of_cons in Hy as [->|Hy]; [|by apply Hmin].
      rewrite (ord_opp z x). destruct (cmp z x); done.
    + split; [apply list_elem_of_here|].
      intros y Hy. apply elem_of_cons in Hy as [->|Hy]; [by rewrite ord_refl|].
      apply (ord_not_lt y z x); [by apply Hmin|].
      intros Hlt. by rewrite Hlt in Hzx.
Qed.

Lemma py_sort_head_some l :
  l ≠ [] -> exists h, index (py_sort cmp l) 0 = Ret h /\ head (py_sort cmp l) = Some h.
Proof.
  intros Hne. pose proof (py_sort_length l) as Hlen.
  destruct (py_sort cmp l) as [|h s]; [|by exists h].
  destruct l; [done | discriminate].
Qed.

End OrderingFacts.

(** the comparisons that the sorts of the source use are orderings *)

Lemma ordering_lex {A : Type} (cmp1 cmp2 : A -> A -> comparison) :
  Ordering cmp1 -> Ordering cmp2 ->
  Ordering (fun a b => lex (cmp1 a b) (cmp2 a b)).
Proof.
  intros H1 H2. split.
  - intros a b. rewrite (ord_opp (cmp:=cmp1) a b), (ord_opp (cmp:=cmp2) a b).
    by destruct (cmp1 a b).
  - intros a b c Hab Hbc. unfold lex in *.
    destruct (cmp1 a b) eqn:Eab; try discriminate.
    + rewrite (ord_eq (cmp:=cmp1) a b c Eab).
      destruct (cmp1 b c); try done. by apply (ord_lt (cmp:=cmp2) a b c).
    + destruct (cmp1 b c) eqn:Ebc; try discriminate.
      * by rewrite <- (ord_eq_r cmp1 b c a Ebc), Eab.
      * by rewrite (ord_lt (cmp:=cmp1) a b c Eab Ebc).
  - intros a b c Hab. unfold lex in *.
    destruct (cmp1 a b) eqn:Eab; try discriminate.
    rewrite (ord_eq (cmp:=cmp1) a b c Eab), (ord_eq (cmp:=cmp2) a b c Hab).
    reflexivity.
Qed.

Lemma ordering_on {A B : Type} (f : A -> B) (cmp : B -> B -> comparison) :
  Ordering cmp -> Ordering (fun a b => cmp (f a) (f b)).
Proof.
  intros H. split; intros.
  - apply ord_opp.
  - by apply (ord_lt (f a) (f b) (f c)).
  - by apply ord_eq.
Qed.

Lemma ordering_flip {A : Type} (cmp : A -> A -> comparison) :
  Ordering cmp -> Ordering (fun a b => cmp b a).
Proof.
  intros H. split; intros.
  - apply ord_opp.
  - by apply (ord_lt c b a).
  - symmetry. by apply (ord_eq_r cmp).
Qed.

Global Instance ordering_Z : Ordering Z.compare.
Proof.
  split.
  - intros a b. apply Z.compare_antisym.
  - intros a b c. rewrite !Z.compare_lt_iff. lia.
  - intros a b c ->%Z.compare_eq_iff. reflexivity.
Qed.

Global Instance ordering_bool : Ordering Bool.compare.
Proof. split; [intros [] [] | intros [] [] [] | intros [] [] []]; done. Qed.

Global Instance ordering_ascii : Ordering Ascii.compare.
Proof.
  unfold Ascii.compare. split.
  - intros a b. apply N.compare_antisym.
  - intros a b c. rewrite !N.compare_lt_iff. lia.
  - intros a b c ->%N.compare_eq_iff. reflexivity.
Qed.

Global Instance ordering_string : Ordering String.compare.
Proof.
  split.
  - intros a b. apply String.compare_antisym.
  - intros a. induction a as [|x a IH]; intros [|y b] [|z c]; cbn; try done.
    destruct (Ascii.compare x y) eqn:Exy; try done.
    + rewrite (ord_eq (cmp:=Ascii.compare) x y z Exy).
      destruct (Ascii.compare y z); try done. apply IH.
    + destruct (Ascii.compare y z) eqn:Eyz; try done.
      * by rewrite <- (ord_eq_r Ascii.compare y z x Eyz), Exy.
      * by rewrite (ord_lt (cmp:=Ascii.compare) x y z Exy Eyz).
  - intros a b c ->%String.compare_eq_iff. reflexivity.
Qed.

Global Instance ordering_counted : Ordering General.compare_counted.
Proof.
  unfold General.compare_counted.
  apply (ordering_lex (fun a b : Z * string => (a.1 ?= b.1)%Z)
           (fun a b : Z * string => String.compare a.2 b.2)).
  - exact (ordering_on fst Z.compare _).
  - exact (ordering_on snd String.compare _).
Qed.

(** ** choose_best_word *)

Arguments find_best_distinguishing_word : simpl never.

Lemma choose_best_word_single (w : string) all_words turn known excluded :
  choose_best_word [w] all_words turn known excluded = Ret (Some w).
Proof. reflexivity. Qed.

Lemma opening_choose (all_words : list string) :
  Opening.choose all_words
  = Ret (Some (if decide ("COURT"%string ∈ all_words) then "COURT" else "ADIEU")%string).
Proof.
  unfold Opening.choose, Opening.proven_starters.
  rewrite filter_cons, filter_nil.
  destruct (decide ("COURT"%string ∈ all_words)); reflexivity.
Qed.

Lemma choose_best_word_opening possible_words all_words known excluded :
  length possible_words ≠ 1%nat ->
  choose_best_word possible_words all_words 1 known excluded = Opening.choose all_words.
Proof.
  intros Hlen. unfold choose_best_word.
  destruct (decide (length possible_words = 1%nat)); [done|]. reflexivity.
Qed.

(** up to ten words on a later turn: the distinguishing search, also for
    exactly two words *)
Lemma choose_best_word_small possible_words all_words turn known excluded :
  length possible_words ≠ 1%nat -> turn ≠ 1%Z -> (length possible_words <= 10)%nat ->
  choose_best_word possible_words all_words turn known excluded
  = find_best_distinguishing_word possible_words all_words
      (default ∅ known) (default ∅ excluded).
Proof.
  intros Hlen Hturn Hten. unfold choose_best_word.
  destruct (decide (length possible_words = 1%nat)); [done|].
  destruct (decide (turn = 1%Z)); [done|].
  destruct (decide (Z.of_nat (length possible_words) <= 10)%Z); [reflexivity | lia].
Qed.

(** more than ten words on a later turn: the general case *)
Lemma choose_best_word_general possible_words all_words turn known excluded :
  turn ≠ 1%Z -> (10 < length possible_words)%nat ->
  choose_best_word possible_words all_words turn known excluded
  = General.pick
      (general_pool possible_words all_words (default ∅ known) (default ∅ excluded))
      possible_words all_words turn (default ∅ known) (default ∅ excluded).
Proof.
  intros Hturn Hten. unfold choose_best_word, general_pool.
  unfold ELIMINATION_THRESHOLD, MEDIUM_SET_THRESHOLD.
  destruct (decide (length possible_words = 1%nat)); [lia|].
  destruct (decide (turn = 1%Z)); [done|].
  destruct (decide (Z.of_nat (length possible_words) <= 10)%Z); [lia|].
  destruct (decide (Z.of_nat (length possible_words) = 2)%Z); [lia|].
  destruct (decide (Z.of_nat (length possible_words) > 15)%Z); [reflexivity|].
  destruct (decide (Z.of_nat (length possible_words) > 6)%Z); [reflexivity | lia].
Qed.

(** C10: with no candidate left on a turn after the first,
    [choose_best_word] returns [None] and raises nothing. *)
Theorem choose_best_word_no_candidates (all_words : list string) (turn : Z)
    (known excluded : option (gset ascii)) :
  (2 <= turn)%Z ->
  choose_best_word [] all_words turn known excluded = Ret None.
Proof.
  intros Hturn. rewrite choose_best_word_small; cbn; try lia; try done.
Qed.

Lemma choose_best_word_no_candidates_witness :
  choose_best_word [] ["COURT"; "SLATE"]%string 3 None None = Ret None.
Proof.
  apply (choose_best_word_no_candidates ["COURT"; "SLATE"]%string 3 None None). lia.
Defined.

(** C5, as stated, fails: a single candidate is returned before the
    opener is looked at, also on the first turn. *)
Lemma opener_single_candidate_counterexample :
  "COURT"%string ∈ ["COURT"; "SLATE"]%string
  /\ choose_best_word ["SLATE"]%string ["COURT"; "SLATE"]%string 1 None None
     = Ret (Some "SLATE"%string)
  /\ choose_best_word ["SLATE"]%string ["COURT"; "SLATE"]%string 1 None None
     ≠ Ret (Some "COURT"%string).
Proof.
  split; [apply list_elem_of_here|]. split; [reflexivity | discriminate].
Qed.

(** C5, amended: on the first turn, unless exactly one candidate is left,
    [choose_best_word] returns COURT when the dictionary contains it and
    ADIEU when it does not, whatever the candidates. *)
Theorem choose_best_word_opener (possible_words all_words : list string)
    (known excluded : option (gset ascii)) :
  length possible_words ≠ 1%nat ->
  ("COURT"%string ∈ all_words ->
   choose_best_word possible_words all_words 1 known excluded = Ret (Some "COURT"%string))
  /\ ("COURT"%string ∉ all_words ->
      choose_best_word possible_words all_words 1 known excluded
      = Ret (Some "ADIEU"%string)).
Proof.
  intros Hlen. rewrite choose_best_word_opening, opening_choose by assumption.
  destruct (decide ("COURT"%string ∈ all_words)); split; intros; done.
Qed.

Lemma choose_best_word_opener_witness :
  ("COURT"%string ∈ ["SLATE"; "COURT"]%string ->
   choose_best_word ["SLATE"; "COURT"]%string ["SLATE"; "COURT"]%string 1 None None
   = Ret (Some "COURT"%string))
  /\ ("COURT"%string ∉ ["SLATE"; "COURT"]%string ->
      choose_best_word ["SLATE"; "COURT"]%string ["SLATE"; "COURT"]%string 1 None None
      = Ret (Some "ADIEU"%string)).
Proof.
  apply (choose_best_word_opener ["SLATE"; "COURT"]%string ["SLATE"; "COURT"]%string
           None None).
  cbn. lia.
Defined.

(** C2: with exactly two candidates the branch for two words is not
    reached, the test for up to ten words comes first and returns: on
    BAKER/BAKED the distinguishing search answers BAKER, where the branch
    for two words would have answered DRYER. *)
Theorem two_words_branch_unreached :
  choose_best_word Inputs.bake Inputs.bake_dictionary 2 None None
  = find_best_distinguishing_word Inputs.bake Inputs.bake_dictionary ∅ ∅
  /\ choose_best_word Inputs.bake Inputs.bake_dictionary 2 None None
     = Ret (Some "BAKER"%string)
  /\ TwoWords.choose Inputs.bake Inputs.bake_dictionary ∅ ∅ = Ret (Some "DRYER"%string).
Proof.
  split; [reflexivity|]. split; vm_compute; reflexivity.
Qed.

(** ** The general case: scoring the evaluation set *)

Section GeneralCase.

Variables (possible_words all_words : list string) (turn : Z).
Variables (known_letters excluded_letters : gset ascii).

Hypothesis possible_five : Forall five possible_words.

Lemma general_step (word : string) (candidates : list General.scored) :
  General.step possible_words all_words turn known_letters excluded_letters word candidates
  = (calculate_partitions word possible_words ≫= fun partitions =>
       Ret (candidates
            ++ [entry possible_words turn known_letters excluded_letters word partitions])).
Proof.
  unfold General.step, evaluate_guess.
  destruct (calculate_partitions word possible_words); reflexivity.
Qed.

Local Abbreviation scored_for :=
  (scored_for possible_words turn known_letters excluded_letters).

Lemma general_loop (pool : list string) :
  Forall five pool ->
  forall acc, exists candidates,
    for_each pool
      (General.step possible_words all_words turn known_letters excluded_letters) acc
    = Ret (acc ++ candidates)
    /\ Forall2 scored_for pool candidates.
Proof.
  induction 1 as [|w pool Hw _ IH]; intros acc; cbn [for_each].
  - exists []. rewrite app_nil_r. split; [reflexivity | constructor].
  - rewrite general_step.
    destruct (calculate_partitions_returns w possible_words Hw possible_five) as [m Hm].
    rewrite Hm. cbn [mbind outcome_bind].
    destruct (IH (acc ++ [entry possible_words turn known_letters excluded_letters w m]))
      as (cands & Hrun & Hall).
    eexists (_ :: cands). rewrite Hrun, <- app_assoc. split; [reflexivity|].
    constructor; [|assumption]. exists m. split; [assumption | reflexivity].
Qed.

Lemma scored_for_word w sc : scored_for w sc -> General.sc_word sc = w.
Proof. intros (m & _ & ->). reflexivity. Qed.

Lemma scored_for_words pool candidates :
  Forall2 scored_for pool candidates -> General.sc_word <$> candidates = pool.
Proof.
  induction 1 as [|w sc pool cands Hsc _ IH]; cbn; [reflexivity|].
  by rewrite (scored_for_word w sc Hsc), IH.
Qed.

(** the sorted list is not empty when the evaluation set is not, and
    the word of its first tuple is returned *)
Lemma general_pick (pool : list string) :
  Forall five pool -> pool ≠ [] ->
  exists candidates first,
    for_each pool
      (General.step possible_words all_words turn known_letters excluded_letters) []
    = Ret candidates
    /\ Forall2 scored_for pool candidates
    /\ first ∈ candidates
    /\ General.pick pool possible_words all_words turn known_letters excluded_letters
       = Ret (Some (General.sc_word first)).
Proof.
  intros Hpool Hne.
  destruct (general_loop pool Hpool []) as (cands & Hrun & Hall). cbn [app] in Hrun.
  assert (Hcands : cands ≠ []).
  { intros ->. apply Forall2_length in Hall. destruct pool; [done | discriminate]. }
  destruct (py_sort_head_some General.compare_scored cands Hcands) as (h & Hidx & Hhead).
  exists cands, h. repeat split; try assumption.
  - apply (py_sort_elem General.compare_scored). apply head_Some_elem_of. exact Hhead.
  - unfold General.pick. rewrite Hrun. cbn [mbind outcome_bind]. rewrite Hidx. reflexivity.
Qed.

End GeneralCase.

(** the evaluation set of the general case holds dictionary words that
    are not candidates *)
Lemma general_pool_elem possible_words all_words known excluded w :
  w ∈ general_pool possible_words all_words known excluded ->
  w ∈ all_words /\ w ∉ possible_words.
Proof.
  unfold general_pool, General.elimination_set, General.medium_set.
  destruct (decide _) as [_|_]; intros Hin.
  - apply subseteq_take in Hin.
    assert (Hw : w ∈ filter (fun word => (word ∉ possible_words)
                       ∧ (letters word ∩ excluded = ∅)
                       ∧ (3 <= General.unexplored word known excluded)%Z)
                   (take 800 all_words)
                 \/ w ∈ filter (fun word => (word ∉ possible_words)
                       ∧ (0 < score_word_frequency word
                                (get_letter_frequencies possible_words))%Z)
                     (take 800 all_words)).
    { destruct (decide (_ < 50)%nat); [by apply elem_of_app in Hin | by left]. }
    destruct Hw as [Hw|Hw]; apply list_elem_of_filter in Hw as [HP Hw];
      apply subseteq_take in Hw; tauto.
  - apply list_elem_of_fmap in Hin as ([n w'] & -> & Hin). cbn.
    apply subseteq_take in Hin. unfold py_sort_reverse in Hin.
    apply py_sort_elem in Hin.
    apply list_elem_of_fmap in Hin as (w'' & [= -> ->] & Hin).
    apply list_elem_of_filter in Hin as [HP Hw].
    apply subseteq_take in Hw. tauto.
Qed.

(** ** The distinguishing search *)

Section DistinguishingSearch.
Import Distinguishing.

Variables (possible_words : list string) (known_letters excluded_letters : gset ascii).

Hypothesis possible_five : Forall five possible_words.

(** one word either leaves the best so far or takes its place *)
Lemma distinguishing_step (w : string) (b : best) :
  five w ->
  step possible_words known_letters excluded_letters w b = Ret b
  \/ exists sc i,
       step possible_words known_letters excluded_letters w b
       = Ret {| best_word := Some w; best_score := sc; best_info := Some i |}.
Proof.
  intros Hw. unfold step.
  destruct (calculate_partitions_returns w possible_words Hw possible_five) as [m ->].
  cbn [mbind outcome_bind].
  destruct (Number.lt _ (best_score b)); [right | by left].
  eexists _, _. reflexivity.
Qed.

(** the loop returns; its best word is the one it started with or a word
    of the list, and then comes with its information *)
Lemma distinguishing_loop (pool : list string) :
  Forall five pool ->
  forall b, exists b',
    for_each pool (step possible_words known_letters excluded_letters) b = Ret b'
    /\ (b' = b
        \/ exists w, w ∈ pool /\ best_word b' = Some w /\ is_Some (best_info b')).
Proof.
  induction 1 as [|w pool Hw _ IH]; intros b; cbn [for_each].
  - exists b. split; [reflexivity | by left].
  - destruct (distinguishing_step w b Hw) as [->|(sc & i & ->)]; cbn [mbind outcome_bind].
    + destruct (IH b) as (b' & -> & Hb').
      exists b'. split; [reflexivity|].
      destruct Hb' as [->|(w' & Hin & Hbest & Hinfo)]; [by left|].
      right. exists w'. split; [by apply list_elem_of_further | by split].
    + destruct (IH {| best_word := Some w; best_score := sc; best_info := Some i |})
        as (b' & -> & Hb').
      exists b'. split; [reflexivity|]. right.
      destruct Hb' as [->|(w' & Hin & Hbest & Hinfo)].
      * exists w. split; [apply list_elem_of_here|]. split; [reflexivity | by eexists].
      * exists w'. split; [by apply list_elem_of_further | by split].
Qed.

Lemma evaluation_candidates_elem all_words w :
  w ∈ evaluation_candidates possible_words all_words ->
  w ∈ all_words \/ w ∈ possible_words.
Proof.
  unfold evaluation_candidates. intros Hin.
  assert (Hw : w ∈ filter (fun word => word ∉ possible_words) (take 500 all_words)
               \/ w ∈ possible_words).
  { destruct (decide (_ <= 3)%nat); [by apply elem_of_app in Hin | by left]. }
  destruct Hw as [Hw|Hw]; [left | by right].
  apply list_elem_of_filter in Hw as [_ Hw]. by apply subseteq_take in Hw.
Qed.

Lemma five_truthy w : five w -> truthy (Some w) = true.
Proof. unfold five. destruct w; [discriminate | reflexivity]. Qed.

(** two words or more: the search returns a word, one that it evaluated
    or the first candidate, and the first candidate when it evaluated none *)
Lemma find_best_distinguishing_word_returns all_words :
  Forall five all_words -> (2 <= length possible_words)%nat ->
  exists w,
    find_best_distinguishing_word possible_words all_words known_letters excluded_letters
    = Ret (Some w)
    /\ (w ∈ all_words \/ w ∈ possible_words)
    /\ (evaluation_candidates possible_words all_words = [] -> head possible_words = Some w).
Proof.
  intros Hall Hlen. unfold find_best_distinguishing_word.
  destruct (decide (length possible_words <= 1)%nat); [lia|].
  assert (Hpool : Forall five (evaluation_candidates possible_words all_words)).
  { apply Forall_forall. intros w Hw.
    rewrite Forall_forall in Hall. rewrite Forall_forall in possible_five.
    apply evaluation_candidates_elem in Hw as [Hw|Hw]; auto. }
  destruct (distinguishing_loop _ Hpool start) as (b & -> & Hb).
  cbn [mbind outcome_bind].
  destruct possible_words as [|first rest] eqn:Hposs; [cbn in Hlen; lia|].
  rewrite <- Hposs in *.
  destruct Hb as [->|(w & Hin & Hbest & Hinfo)].
  - cbn. rewrite Hposs. cbn. exists first.
    split; [reflexivity|]. split; [right; apply list_elem_of_here | done].
  - rewrite Hbest.
    assert (Hw : five w) by (rewrite Forall_forall in Hpool; by apply Hpool).
    rewrite (five_truthy w Hw), (bool_decide_eq_true_2 _ Hinfo). cbn.
    exists w. split; [reflexivity|]. split.
    + by apply (evaluation_candidates_elem all_words).
    + intros Hnil. rewrite Hnil in Hin. by apply elem_of_nil in Hin.
Qed.

End DistinguishingSearch.

(** C1, as stated, fails: on the first turn the fixed word ADIEU is
    returned when COURT is not in the dictionary, be it a word of the
    dictionary or of the candidates or not. *)
Lemma fallback_opener_counterexample :
  choose_best_word ["SLATE"; "CRANE"]%string ["SLATE"; "CRANE"]%string 1 None None
  = Ret (Some "ADIEU"%string)
  /\ "ADIEU"%string ∉ ["SLATE"; "CRANE"]%string.
Proof.
  split; [reflexivity|].
  intros Hin. repeat (apply elem_of_cons in Hin as [Hin|Hin]; [discriminate|]).
  by apply elem_of_nil in Hin.
Qed.

(** the general case has no fallback: an empty evaluation set raises *)
Lemma general_case_empty_pool_raises :
  general_pool Inputs.ight Inputs.ight ∅ ∅ = []
  /\ choose_best_word Inputs.ight Inputs.ight 2 None None = Raise IndexError.
Proof. split; vm_compute; reflexivity. Qed.

(** C1, amended: for a non-empty list of candidates, on the first turn,
    with up to ten candidates, or with a non-empty evaluation set,
    [choose_best_word] returns a word and raises nothing; the word is in
    the dictionary or among the candidates, or it is ADIEU on a first
    turn without COURT; and when the distinguishing search has nothing to
    evaluate it returns the first candidate. *)
Theorem choose_best_word_returns (possible_words all_words : list string) (turn : Z)
    (known excluded : option (gset ascii)) :
  possible_words ≠ [] -> Forall five possible_words -> Forall five all_words ->
  (turn = 1%Z \/ (length possible_words <= 10)%nat
   \/ general_pool possible_words all_words (default ∅ known) (default ∅ excluded) ≠ []) ->
  exists w,
    choose_best_word possible_words all_words turn known excluded = Ret (Some w)
    /\ (w ∈ all_words \/ w ∈ possible_words
        \/ (turn = 1%Z /\ ("COURT"%string ∉ all_words) /\ w = "ADIEU"%string))
    /\ (turn ≠ 1%Z -> (length possible_words <= 10)%nat ->
        Distinguishing.evaluation_candidates possible_words all_words = [] ->
        head possible_words = Some w).
Proof.
  intros Hne Hposs Hall Hcase.
  destruct (decide (length possible_words = 1%nat)) as [Hone|Hone].
  { destruct possible_words as [|w [|? ?]]; try discriminate.
    exists w. rewrite choose_best_word_single.
    split; [reflexivity|]. split; [right; left; apply list_elem_of_here | done]. }
  destruct (decide (turn = 1%Z)) as [->|Hturn].
  { rewrite choose_best_word_opening, opening_choose by assumption.
    destruct (decide ("COURT"%string ∈ all_words)); eexists;
      (split; [reflexivity|]); (split; [|done]); [by left | by right; right]. }
  assert (Hlen : (2 <= length possible_words)%nat).
  { destruct possible_words as [|? [|? ?]]; cbn in *; try done; lia. }
  destruct (decide (length possible_words <= 10)%nat) as [Hten|Hten].
  - rewrite choose_best_word_small by assumption.
    destruct (find_best_distinguishing_word_returns possible_words (default ∅ known)
                (default ∅ excluded) Hposs all_words Hall Hlen) as (w & -> & Hin & Hfall).
    exists w. split; [reflexivity|]. split; [tauto|]. intros _ _. exact Hfall.
  - destruct Hcase as [?|[?|Hpool]]; try done.
    rewrite choose_best_word_general by lia.
    set (pool := general_pool _ _ _ _) in *.
    assert (Hfive : Forall five pool).
    { apply Forall_forall. intros w Hw. apply general_pool_elem in Hw as [Hw _].
      rewrite Forall_forall in Hall. by apply Hall. }
    destruct (general_pick possible_words all_words turn (default ∅ known)
                (default ∅ excluded) Hposs pool Hfive Hpool)
      as (cands & h & _ & Hsc & Hin & ->).
    exists (General.sc_word h). split; [reflexivity|]. split; [|lia].
    left. apply (general_pool_elem possible_words all_words (default ∅ known)
                   (default ∅ excluded)).
    fold pool. rewrite <- (scored_for_words _ _ _ _ _ _ Hsc).
    by apply list_elem_of_fmap_2.
Qed.

Lemma choose_best_word_returns_witness :
  exists w,
    choose_best_word Inputs.bake Inputs.bake_dictionary 2 None None = Ret (Some w)
    /\ (w ∈ Inputs.bake_dictionary \/ w ∈ Inputs.bake
        \/ (2%Z = 1%Z /\ ("COURT"%string ∉ Inputs.bake_dictionary) /\ w = "ADIEU"%string))
    /\ (2%Z ≠ 1%Z -> (length Inputs.bake <= 10)%nat ->
        Distinguishing.evaluation_candidates Inputs.bake Inputs.bake_dictionary = [] ->
        head Inputs.bake = Some w).
Proof.
  apply (choose_best_word_returns Inputs.bake Inputs.bake_dictionary 2 None None).
  - discriminate.
  - repeat constructor.
  - repeat constructor.
  - right. left. cbn. lia.
Defined.

(** * Further properties *)

(** ** get_feedback: when it raises, and the shape of what it returns *)

Section FeedbackShape.
Import Feedback.

Lemma same_shape_refl st : same_shape st st.
Proof. unfold same_shape. tauto. Qed.

Lemma same_shape_trans st1 st2 st3 :
  same_shape st1 st2 -> same_shape st2 st3 -> same_shape st1 st3.
Proof. unfold same_shape. intros (-> & -> & -> & ?) (-> & -> & -> & ?). tauto. Qed.

Lemma index_lt {A : Type} (l : list A) (i : nat) :
  (i < length l)%nat -> exists x, index l i = Ret x /\ l !! i = Some x.
Proof.
  intros Hi. unfold index. destruct (lookup_lt_is_Some_2 l i Hi) as [x Hx].
  rewrite Hx. by exists x.
Qed.

Lemma index_ge {A : Type} (l : list A) (i : nat) :
  (length l <= i)%nat -> index l i = Raise IndexError.
Proof. intros Hi. unfold index. by rewrite lookup_ge_None_2. Qed.

Lemma mark_green_ok i st :
  (i < length (guess_chars st))%nat -> (i < length (target_chars st))%nat ->
  exists st', mark_green i st = Ret st' /\ same_shape st st'.
Proof.
  intros Hg Ht. unfold mark_green.
  destruct (index_lt _ _ Hg) as (g & -> & _). destruct (index_lt _ _ Ht) as (t & -> & _).
  cbn [mbind outcome_bind].
  destruct (decide (g = t)); eexists; (split; [reflexivity|]); [|apply same_shape_refl].
  unfold same_shape; cbn. rewrite !length_insert. repeat split.
  intros Hfb. apply Forall_insert; [assumption | by left].
Qed.

Lemma mark_green_short i st :
  (length (guess_chars st) <= i)%nat \/ (length (target_chars st) <= i)%nat ->
  mark_green i st = Raise IndexError.
Proof.
  intros Hshort. unfold mark_green.
  destruct (decide (i < length (guess_chars st))%nat) as [Hg|Hg].
  - destruct (index_lt _ _ Hg) as (g & -> & _). cbn [mbind outcome_bind].
    rewrite (index_ge (target_chars st)) by lia. reflexivity.
  - rewrite (index_ge (guess_chars st)) by lia. reflexivity.
Qed.

Lemma mark_yellow_ok i st :
  (i < length (guess_chars st))%nat ->
  exists st', mark_yellow i st = Ret st' /\ same_shape st st'.
Proof.
  intros Hg. unfold mark_yellow.
  destruct (index_lt _ _ Hg) as ([c|] & -> & _); cbn [mbind outcome_bind].
  - destruct (decide (Some c ∈ target_chars st)) as [Hin|Hnin].
    + destruct (py_index_consume c _ Hin) as (j & -> & _). cbn [mbind outcome_bind].
      eexists. split; [reflexivity|].
      unfold same_shape; cbn. rewrite !length_insert. repeat split.
      intros Hfb. apply Forall_insert; [assumption | by right; left].
    + eexists. split; [reflexivity | apply same_shape_refl].
  - eexists. split; [reflexivity | apply same_shape_refl].
Qed.

Lemma green_loop n : forall a st,
  (a + n <= length (guess_chars st))%nat -> (a + n <= length (target_chars st))%nat ->
  exists st', for_each (seq a n) mark_green st = Ret st' /\ same_shape st st'.
Proof.
  induction n as [|n IH]; intros a st Hg Ht; cbn [seq for_each].
  - exists st. split; [reflexivity | apply same_shape_refl].
  - destruct (mark_green_ok a st) as (st1 & -> & Hs1); [lia..|].
    cbn [mbind outcome_bind].
    pose proof Hs1 as (Hg1 & Ht1 & _).
    destruct (IH (S a) st1) as (st2 & -> & Hs2); [lia..|].
    exists st2. split; [reflexivity | by eapply same_shape_trans].
Qed.

Lemma yellow_loop n : forall a st,
  (a + n <= length (guess_chars st))%nat ->
  exists st', for_each (seq a n) mark_yellow st = Ret st' /\ same_shape st st'.
Proof.
  induction n as [|n IH]; intros a st Hg; cbn [seq for_each].
  - exists st. split; [reflexivity | apply same_shape_refl].
  - destruct (mark_yellow_ok a st) as (st1 & -> & Hs1); [lia|].
    cbn [mbind outcome_bind].
    pose proof Hs1 as (Hg1 & _).
    destruct (IH (S a) st1) as (st2 & -> & Hs2); [lia|].
    exists st2. split; [reflexivity | by eapply same_shape_trans].
Qed.

(** the first loop stops with [IndexError] at the end of the shorter word *)
Lemma green_loop_short n : forall a st,
  (a <= length (guess_chars st))%nat -> (a <= length (target_chars st))%nat ->
  (length (guess_chars st) < a + n)%nat \/ (length (target_chars st) < a + n)%nat ->
  for_each (seq a n) mark_green st = Raise IndexError.
Proof.
  induction n as [|n IH]; intros a st Hg Ht Hshort; [lia|].
  cbn [seq for_each].
  destruct (decide (a < length (guess_chars st) /\ a < length (target_chars st))%nat)
    as [[Hg' Ht']|Hend].
  - destruct (mark_green_ok a st Hg' Ht') as (st1 & -> & (Hg1 & Ht1 & _)).
    cbn [mbind outcome_bind]. apply IH; lia.
  - rewrite mark_green_short by lia. reflexivity.
Qed.

End FeedbackShape.

Lemma length_string_of_list_ascii (l : list ascii) :
  String.length (string_of_list_ascii l) = length l.
Proof. by rewrite <- length_list_ascii_of_string, list_ascii_of_string_of_list_ascii. Qed.

Lemma get_feedback_long (guess target : string) :
  (5 <= String.length guess)%nat -> (5 <= String.length target)%nat ->
  exists fb, get_feedback guess target = Ret fb
             /\ String.length fb = 5%nat /\ Forall gyb (list_ascii_of_string fb).
Proof.
  intros Hg Ht. rewrite <- length_list_ascii_of_string in Hg, Ht.
  unfold get_feedback, range.
  destruct (green_loop 5 0 (Feedback.initial guess target)) as (st1 & -> & Hs1);
    [cbn; rewrite length_fmap; lia..|].
  cbn [mbind outcome_bind].
  destruct Hs1 as (Hg1 & Ht1 & Hf1 & Hm1).
  destruct (yellow_loop 5 0 st1) as (st2 & -> & (Hg2 & Ht2 & Hf2 & Hm2)).
  { rewrite Hg1. cbn. rewrite length_fmap. lia. }
  cbn [mbind outcome_bind]. eexists. split; [reflexivity|]. split.
  - rewrite length_string_of_list_ascii, Hf2, Hf1. reflexivity.
  - rewrite list_ascii_of_string_of_list_ascii. apply Hm2, Hm1.
    cbn. repeat constructor; by right; right.
Qed.

Lemma get_feedback_short_raises (guess target : string) :
  (String.length guess < 5)%nat \/ (String.length target < 5)%nat ->
  get_feedback guess target = Raise IndexError.
Proof.
  intros Hshort. rewrite <- !length_list_ascii_of_string in Hshort.
  unfold get_feedback, range.
  rewrite green_loop_short; [reflexivity | cbn; lia.. |].
  cbn. rewrite !length_fmap. lia.
Qed.

(** X1: [get_feedback] raises exactly when the guess or the target has
    fewer than five letters, and then it is an [IndexError]. *)
Theorem get_feedback_raises_iff (guess target : string) :
  (get_feedback guess target = Raise IndexError
   <-> (String.length guess < 5)%nat \/ (String.length target < 5)%nat)
  /\ get_feedback guess target ≠ Raise ValueError.
Proof.
  destruct (decide (5 <= String.length guess /\ 5 <= String.length target)%nat)
    as [[Hg Ht]|Hshort].
  - destruct (get_feedback_long guess target Hg Ht) as (fb & -> & _).
    split; [split; [discriminate | lia] | discriminate].
  - rewrite get_feedback_short_raises by lia.
    split; [split; [lia | reflexivity] | discriminate].
Qed.

(** X2: the string that [get_feedback] returns has five characters, each
    of them G, Y or B, also for words of more than five letters. *)
Theorem get_feedback_five_marks (guess target fb : string) :
  get_feedback guess target = Ret fb ->
  String.length fb = 5%nat /\ Forall gyb (list_ascii_of_string fb).
Proof.
  intros Hfb.
  destruct (decide (5 <= String.length guess /\ 5 <= String.length target)%nat)
    as [[Hg Ht]|Hshort].
  - destruct (get_feedback_long guess target Hg Ht) as (fb' & Hfb' & Hlen & Hmarks).
    rewrite Hfb in Hfb'. injection Hfb' as ->. by split.
  - rewrite get_feedback_short_raises in Hfb by lia. discriminate.
Qed.

Lemma get_feedback_five_marks_witness :
  String.length "YYBGB" = 5%nat /\ Forall gyb (list_ascii_of_string "YYBGB").
Proof.
  apply (get_feedback_five_marks "ELEVATE" "SOLVENT" "YYBGB").
  vm_compute. reflexivity.
Defined.

(** ** get_feedback: what a mark at a position says *)

Lemma get_lookup (s : string) (i : nat) :
  String.get i s = list_ascii_of_string s !! i.
Proof.
  revert i. induction s as [|c s IH]; intros [|i]; cbn; try reflexivity. apply IH.
Qed.

Lemma list_ascii_of_string_inj (s1 s2 : string) :
  list_ascii_of_string s1 = list_ascii_of_string s2 -> s1 = s2.
Proof.
  intros Heq. rewrite <- (string_of_list_ascii_of_string s1),
    <- (string_of_list_ascii_of_string s2). by rewrite Heq.
Qed.

Section FeedbackPositions.
Import Passes.

(** the second pass leaves the greens of the first and adds none *)
Lemma yellows_green ps : forall tc i,
  yellows (guess_of ps) (feedback_of ps) tc !! i = Some "G"%char
  <-> exists c, ps !! i = Some (c, true).
Proof.
  unfold guess_of, feedback_of.
  induction ps as [|[c b] ps IH]; intros tc i.
  - cbn. rewrite lookup_nil. split; [discriminate | intros [? ?]; discriminate].
  - cbn [fmap list_fmap fst snd yellows]. destruct b.
    + destruct i as [|i]; cbn.
      * split; [by exists c | reflexivity].
      * apply IH.
    + destruct (decide (Some c ∈ tc)); destruct i as [|i]; cbn; try apply IH;
        (split; [discriminate | intros [? [=]]]).
Qed.

Lemma greens_lookup gs : forall ts i c,
  greens gs ts !! i = Some (c, true)
  <-> gs !! i = Some c /\ ts !! i = Some c.
Proof.
  unfold greens.
  induction gs as [|g gs IH]; intros [|t ts] i c; cbn.
  - rewrite !lookup_nil. split; [discriminate | intros [? _]; discriminate].
  - rewrite !lookup_nil. split; [discriminate | intros [? _]; discriminate].
  - rewrite lookup_nil. split; [discriminate | intros [_ ?]; discriminate].
  - destruct i as [|i]; cbn; [|apply IH]. split.
    + intros [= -> Hb]. apply bool_decide_eq_true_1 in Hb as ->. by split.
    + intros [[= ->] [= ->]]. by rewrite bool_decide_eq_true_2.
Qed.

Lemma marks_green gs ts i :
  length gs = length ts -> (i < length gs)%nat ->
  marks gs ts !! i = Some "G"%char <-> gs !! i = ts !! i.
Proof.
  intros Hlen Hi. unfold marks. rewrite yellows_green.
  destruct (lookup_lt_is_Some_2 gs i Hi) as [g Hg].
  destruct (lookup_lt_is_Some_2 ts i) as [t Ht]; [lia|].
  rewrite Hg, Ht. split.
  - intros [c Hc%greens_lookup]. destruct Hc as [Hc1 Hc2]. congruence.
  - intros [= ->]. exists t. by apply greens_lookup.
Qed.

End FeedbackPositions.

(** X3: on five-letter words a position is marked Green exactly when the
    guess and the target have the same letter there. *)
Theorem get_feedback_green_iff (guess target : string) :
  five guess -> five target ->
  exists fb,
    get_feedback guess target = Ret fb
    /\ forall i, (i < 5)%nat ->
         String.get i fb = Some "G"%char <-> String.get i guess = String.get i target.
Proof.
  intros Hg Ht. eexists. split; [by apply get_feedback_marks|].
  unfold five in Hg, Ht. rewrite <- length_list_ascii_of_string in Hg, Ht.
  intros i Hi. rewrite !get_lookup, list_ascii_of_string_of_list_ascii.
  apply marks_green; lia.
Qed.

Lemma get_feedback_green_iff_witness :
  exists fb,
    get_feedback "SPEED" "SPELT" = Ret fb
    /\ forall i, (i < 5)%nat ->
         String.get i fb = Some "G"%char <-> String.get i "SPEED" = String.get i "SPELT".
Proof. apply (get_feedback_green_iff "SPEED" "SPELT"); reflexivity. Defined.

Lemma get_feedback_all_green_helper (guess target : string) :
  five guess -> five target ->
  get_feedback guess target = Ret "GGGGG"%string -> guess = target.
Proof.
  intros Hg Ht. rewrite (get_feedback_marks guess target Hg Ht).
  unfold five in Hg, Ht. rewrite <- length_list_ascii_of_string in Hg, Ht.
  intros Heq. apply list_ascii_of_string_inj, list_eq. intros i.
  destruct (decide (i < 5)%nat) as [Hi|Hi].
  - apply marks_green; [lia..|].
    assert (Hm : Passes.marks (list_ascii_of_string guess) (list_ascii_of_string target)
                 = list_ascii_of_string "GGGGG").
    { injection Heq as Heq. rewrite <- Heq.
      by rewrite list_ascii_of_string_of_list_ascii. }
    rewrite Hm. do 5 (destruct i as [|i]; [reflexivity|]). lia.
  - rewrite !lookup_ge_None_2 by lia. reflexivity.
Qed.

(** X4: on five-letter words the feedback is GGGGG exactly when the guess
    is the target, so the test for a solved game is sound and complete. *)
Theorem get_feedback_all_green_iff (guess target : string) :
  five guess -> five target ->
  get_feedback guess target = Ret "GGGGG"%string <-> guess = target.
Proof.
  intros Hg Ht. rewrite (get_feedback_marks guess target Hg Ht).
  unfold five in Hg, Ht. rewrite <- length_list_ascii_of_string in Hg, Ht.
  split.
  - intros Heq. apply list_ascii_of_string_inj, list_eq. intros i.
    destruct (decide (i < 5)%nat) as [Hi|Hi].
    + apply marks_green; [lia..|].
      assert (Hm : Passes.marks (list_ascii_of_string guess) (list_ascii_of_string target)
                   = list_ascii_of_string "GGGGG").
      { injection Heq as Heq. rewrite <- Heq.
        by rewrite list_ascii_of_string_of_list_ascii. }
      rewrite Hm. do 5 (destruct i as [|i]; [reflexivity|]). lia.
    + rewrite !lookup_ge_None_2 by lia. reflexivity.
  - intros ->. unfold Passes.marks. rewrite marks_same, Ht. reflexivity.
Qed.

Lemma get_feedback_all_green_iff_witness :
  get_feedback "SLATE" "SLATE" = Ret "GGGGG"%string
  <-> "SLATE"%string = "SLATE"%string.
Proof. apply (get_feedback_all_green_iff "SLATE" "SLATE"); reflexivity. Defined.

Section FeedbackLetters.

Variable L : ascii.

Lemma cnt_marked_le gs : forall fb, (cnt_marked L gs fb <= cnt L gs)%nat.
Proof.
  unfold cnt_marked, cnt.
  induction gs as [|g gs IH]; intros [|f fb]; try (cbn; lia).
  specialize (IH fb). change (zip (g :: gs) (f :: fb)) with ((g, f) :: zip gs fb).
  rewrite !filter_cons. cbn [fst snd].
  repeat case_decide; cbn [length]; try lia; tauto.
Qed.

(** a position holding [L] without a Green or Yellow mark is not counted *)
Lemma cnt_marked_lt gs : forall fb i m,
  gs !! i = Some L -> fb !! i = Some m -> m ≠ "G"%char -> m ≠ "Y"%char ->
  (cnt_marked L gs fb < cnt L gs)%nat.
Proof.
  induction gs as [|g gs IH]; intros [|f fb] i m Hg Hf HG HY; try discriminate.
  destruct i as [|i]; cbn in Hg, Hf.
  - injection Hg as ->. injection Hf as ->.
    pose proof (cnt_marked_le gs fb) as Hle.
    unfold cnt_marked, cnt in *.
    change (zip (L :: gs) (m :: fb)) with ((L, m) :: zip gs fb).
    rewrite filter_cons_False by (cbn; tauto).
    rewrite filter_cons_True by reflexivity. cbn [length]. lia.
  - specialize (IH fb i m Hg Hf HG HY).
    unfold cnt_marked, cnt in *.
    change (zip (g :: gs) (f :: fb)) with ((g, f) :: zip gs fb).
    rewrite !filter_cons. cbn [fst snd].
    repeat case_decide; cbn [length]; try lia; tauto.
Qed.

Lemma cnt_marked_pos gs : forall fb i m,
  gs !! i = Some L -> fb !! i = Some m -> m = "G"%char \/ m = "Y"%char ->
  (1 <= cnt_marked L gs fb)%nat.
Proof.
  unfold cnt_marked.
  induction gs as [|g gs IH]; intros [|f fb] i m Hg Hf Hm; try discriminate.
  destruct i as [|i]; cbn in Hg, Hf.
  - injection Hg as ->. injection Hf as ->.
    change (zip (L :: gs) (m :: fb)) with ((L, m) :: zip gs fb).
    rewrite filter_cons_True by (cbn; tauto). cbn [length]. lia.
  - specialize (IH fb i m Hg Hf Hm).
    change (zip (g :: gs) (f :: fb)) with ((g, f) :: zip gs fb).
    rewrite filter_cons. case_decide; cbn [length]; lia.
Qed.

End FeedbackLetters.

(** X5: on five-letter words, a Black mark on a letter of the guess means
    that the guess has more of that letter than the target (none of it,
    when the guess has it once); a Green or Yellow mark means that the
    target has the letter. *)
Theorem get_feedback_mark_meaning (guess target : string) (i : nat) (L : ascii) :
  five guess -> five target ->
  String.get i guess = Some L ->
  exists fb,
    get_feedback guess target = Ret fb
    /\ (String.get i fb = Some "B"%char ->
        (occurrences L target < occurrences L guess)%nat)
    /\ (forall m, String.get i fb = Some m -> m ≠ "B"%char ->
        (1 <= occurrences L target)%nat).
Proof.
  intros Hg Ht HL.
  destruct (get_feedback_long guess target) as (fb & Hfb & Hlen & Hmarks);
    [unfold five in *; lia..|].
  exists fb. split; [assumption|].
  rewrite (get_feedback_marks guess target Hg Ht) in Hfb. injection Hfb as Hfb.
  unfold five in Hg, Ht. rewrite <- length_list_ascii_of_string in Hg, Ht.
  assert (Hcount :
    cnt_marked L (list_ascii_of_string guess) (list_ascii_of_string fb)
    = Nat.min (occurrences L guess) (occurrences L target)).
  { rewrite <- Hfb, list_ascii_of_string_of_list_ascii.
    apply marks_count. congruence. }
  rewrite get_lookup in HL. split.
  - intros HB. rewrite get_lookup in HB.
    pose proof (cnt_marked_lt L _ _ i _ HL HB) as Hlt.
    unfold occurrences in *. fold (cnt L (list_ascii_of_string guess)) in *.
    fold (cnt L (list_ascii_of_string target)) in *.
    specialize (Hlt ltac:(discriminate) ltac:(discriminate)). lia.
  - intros m Hm HnB. rewrite get_lookup in Hm.
    assert (HGY : m = "G"%char \/ m = "Y"%char).
    { rewrite Forall_forall in Hmarks.
      destruct (Hmarks m) as [?|[?|?]]; [|tauto..|done].
      apply list_elem_of_lookup. by exists i. }
    pose proof (cnt_marked_pos L _ _ i _ HL Hm HGY). lia.
Qed.

Lemma get_feedback_mark_meaning_witness :
  exists fb,
    get_feedback "GEESE" "THOSE" = Ret fb
    /\ (String.get 1 fb = Some "B"%char ->
        (occurrences "E" "THOSE" < occurrences "E" "GEESE")%nat)
    /\ (forall m, String.get 1 fb = Some m -> m ≠ "B"%char ->
        (1 <= occurrences "E" "THOSE")%nat).
Proof.
  apply (get_feedback_mark_meaning "GEESE" "THOSE" 1 "E"); reflexivity.
Defined.

(** ** filter_words and calculate_partitions together *)

Lemma filter_words_is_filter (words : list string) (guess feedback : string) :
  five guess -> Forall five words ->
  filter_words words guess feedback
  = Ret (filter (fun c => get_feedback guess c = Ret feedback) words).
Proof.
  intros Hg Hw.
  destruct (filter_words_returns guess feedback words Hg Hw) as [l Hl].
  rewrite Hl. f_equal. apply (filter_words_loop guess feedback words [] l Hl).
Qed.

Lemma Forall_five_filter (P : string -> Prop) `{!forall w, Decision (P w)}
    (words : list string) :
  Forall five words -> Forall five (filter P words).
Proof.
  rewrite !Forall_forall. intros Hw w Hin. apply Hw.
  apply list_elem_of_filter in Hin. tauto.
Qed.

(** X6: two rounds of filtering give the same candidates in either
    order. *)
Theorem filter_words_commute (words : list string) (guess1 fb1 guess2 fb2 : string) :
  five guess1 -> five guess2 -> Forall five words ->
  exists l1 l2 l,
    filter_words words guess1 fb1 = Ret l1
    /\ filter_words l1 guess2 fb2 = Ret l
    /\ filter_words words guess2 fb2 = Ret l2
    /\ filter_words l2 guess1 fb1 = Ret l.
Proof.
  intros H1 H2 Hw. eexists _, _, _.
  split; [by apply filter_words_is_filter|].
  split; [apply filter_words_is_filter; [assumption | by apply Forall_five_filter]|].
  split; [by apply filter_words_is_filter|].
  rewrite filter_words_is_filter; [|assumption | by apply Forall_five_filter].
  f_equal. rewrite !list_filter_filter. apply list_filter_iff. tauto.
Qed.

Lemma filter_words_commute_witness :
  exists l1 l2 l,
    filter_words Inputs.ight "LIGHT" "BGGGG" = Ret l1
    /\ filter_words l1 "FIRST" "BGBBG" = Ret l
    /\ filter_words Inputs.ight "FIRST" "BGBBG" = Ret l2
    /\ filter_words l2 "LIGHT" "BGGGG" = Ret l.
Proof.
  apply (filter_words_commute Inputs.ight "LIGHT" "BGGGG" "FIRST" "BGBBG");
    [reflexivity | reflexivity | repeat constructor].
Defined.

(** X7: filtering again with the same guess and feedback changes
    nothing. *)
Theorem filter_words_idempotent (words : list string) (guess feedback : string) :
  five guess -> Forall five words ->
  exists l,
    filter_words words guess feedback = Ret l
    /\ filter_words l guess feedback = Ret l.
Proof.
  intros Hg Hw. eexists. split; [by apply filter_words_is_filter|].
  rewrite filter_words_is_filter; [|assumption | by apply Forall_five_filter].
  f_equal. rewrite list_filter_filter. apply list_filter_iff. tauto.
Qed.

Lemma filter_words_idempotent_witness :
  exists l,
    filter_words Inputs.ight "LIGHT" "BGGGG" = Ret l
    /\ filter_words l "LIGHT" "BGGGG" = Ret l.
Proof.
  apply (filter_words_idempotent Inputs.ight "LIGHT" "BGGGG");
    [reflexivity | repeat constructor].
Defined.

(** X8: the group that [calculate_partitions] files under a feedback is
    what [filter_words] returns for that feedback, and a feedback without
    a group filters everything out. *)
Theorem partitions_agree_with_filter (guess : string) (words : list string) :
  five guess -> Forall five words ->
  exists m,
    calculate_partitions guess words = Ret m
    /\ forall feedback,
         filter_words words guess feedback = Ret (default [] (m !! feedback)).
Proof.
  intros Hg Hw.
  destruct (calculate_partitions_returns guess words Hg Hw) as [m Hm].
  destruct (calculate_partitions_groups guess words m Hm) as (Hgrp & Hsome & _).
  exists m. split; [assumption|]. intros fb.
  rewrite filter_words_is_filter by assumption. f_equal.
  fold (group guess fb words).
  destruct (m !! fb) as [l|] eqn:Hfb; cbn.
  - symmetry. by apply Hgrp.
  - destruct (group guess fb words) as [|w l] eqn:Hgroup; [reflexivity|].
    rewrite Hsome in Hfb; [discriminate | by rewrite Hgroup].
Qed.

Lemma partitions_agree_with_filter_witness :
  exists m,
    calculate_partitions "LIGHT" Inputs.ight = Ret m
    /\ forall feedback,
         filter_words Inputs.ight "LIGHT" feedback = Ret (default [] (m !! feedback)).
Proof.
  apply (partitions_agree_with_filter "LIGHT" Inputs.ight);
    [reflexivity | repeat constructor].
Defined.

Lemma partitions_loop_nonempty (guess : string) (words : list string) :
  forall m m',
  for_each words
    (fun word partitions =>
       feedback ← get_feedback guess word;
       Ret (dict_append partitions feedback word))
    m = Ret m' ->
  (forall k l, m !! k = Some l -> l ≠ []) ->
  forall k l, m' !! k = Some l -> l ≠ [].
Proof.
  induction words as [|w words IH]; intros m m' Hrun Hm; cbn [for_each] in Hrun.
  - by injection Hrun as <-.
  - destruct (get_feedback guess w) as [fb|e]; [|discriminate].
    cbn [mbind outcome_bind] in Hrun. apply (IH _ _ Hrun).
    intros k l. unfold dict_append. destruct (decide (fb = k)) as [->|Hne].
    + rewrite lookup_insert_eq. intros [= <-]. by destruct (default [] (m !! k)).
    + rewrite lookup_insert_ne by assumption. apply Hm.
Qed.

Lemma concat_length_ge {A : Type} (ls : list (list A)) :
  Forall (fun l => l ≠ []) ls -> (length ls <= length (concat ls))%nat.
Proof.
  induction 1 as [|l ls Hl _ IH]; cbn; [lia|].
  rewrite length_app. destruct l; [done | cbn; lia].
Qed.

Lemma partitions_values_nonempty (m : gmap string (list string)) :
  (forall k l, m !! k = Some l -> l ≠ []) ->
  Forall (fun l : list string => l ≠ []) ((map_to_list m).*2).
Proof.
  intros Hm. apply Forall_fmap, Forall_forall. intros [k l] Hin. cbn.
  apply (Hm k). by apply elem_of_map_to_list.
Qed.

(** X9: no group of [calculate_partitions] is empty: there are at most as
    many groups as candidates, and at least one when there is a
    candidate. *)
Theorem partitions_groups_nonempty (guess : string) (words : list string) :
  five guess -> Forall five words ->
  exists m,
    calculate_partitions guess words = Ret m
    /\ (forall k l, m !! k = Some l -> l ≠ [])
    /\ (size m <= length words)%nat
    /\ (words ≠ [] -> (1 <= size m)%nat).
Proof.
  intros Hg Hw.
  destruct (calculate_partitions_returns guess words Hg Hw) as [m Hm].
  destruct (calculate_partitions_groups guess words m Hm) as (_ & _ & Hmem).
  assert (Hne : forall k l, m !! k = Some l -> l ≠ []).
  { apply (partitions_loop_nonempty guess words ∅ m Hm).
    intros k l. by rewrite lookup_empty. }
  exists m. split; [assumption|]. split; [assumption|].
  pose proof (concat_length_ge _ (partitions_values_nonempty m Hne)) as Hle.
  fold (members m) in Hle. rewrite (Permutation_length Hmem) in Hle.
  rewrite length_fmap, length_map_to_list in Hle. split; [assumption|].
  intros Hwords. destruct (decide (size m = 0)%nat) as [Hz|]; [|lia].
  apply map_size_empty_iff in Hz. subst m.
  unfold members in Hmem. rewrite map_to_list_empty in Hmem. cbn in Hmem.
  apply Permutation_nil in Hmem. done.
Qed.

Lemma partitions_groups_nonempty_witness :
  exists m,
    calculate_partitions "LIGHT" Inputs.ight = Ret m
    /\ (forall k l, m !! k = Some l -> l ≠ [])
    /\ (size m <= length Inputs.ight)%nat
    /\ (Inputs.ight ≠ [] -> (1 <= size m)%nat).
Proof.
  apply (partitions_groups_nonempty "LIGHT" Inputs.ight);
    [reflexivity | repeat constructor].
Defined.

(** ** evaluate_guess *)

Lemma sizes_sum (kvs : list (string * list string)) :
  foldr Z.add 0%Z ((fun kv => Z.of_nat (length kv.2)) <$> kvs)
  = Z.of_nat (length (concat (kvs.*2))).
Proof.
  induction kvs as [|[k l] kvs IH]; cbn; [reflexivity|].
  rewrite length_app. cbn in IH. lia.
Qed.

Lemma foldl_max_bounds (rest : list Z) : forall x,
  (x <= foldl Z.max x rest)%Z
  /\ Forall (fun y => (y <= foldl Z.max x rest)%Z) rest
  /\ (foldl Z.max x rest ∈ x :: rest).
Proof.
  induction rest as [|y rest IH]; intros x; cbn.
  - split; [lia|]. split; [constructor | apply list_elem_of_here].
  - destruct (IH (Z.max x y)) as (Hx & Hall & Hin). split; [lia|]. split.
    + constructor; [lia | assumption].
    + apply elem_of_cons in Hin as [Heq|Hin].
      * rewrite Heq. destruct (Z.max_spec x y) as [[_ ->]|[_ ->]].
        -- apply list_elem_of_further, list_elem_of_here.
        -- apply list_elem_of_here.
      * by do 2 apply list_elem_of_further.
Qed.

(** for sizes that are all at least one: the largest is between one and
    the sum, and the sum between the number of sizes and that number
    times the largest *)
Lemma sizes_bounds (sizes : list Z) :
  Forall (fun x => (1 <= x)%Z) sizes -> sizes ≠ [] ->
  (1 <= max_or_zero sizes <= foldr Z.add 0 sizes)%Z
  /\ (Z.of_nat (length sizes) <= foldr Z.add 0 sizes)%Z
  /\ (foldr Z.add 0 sizes <= max_or_zero sizes * Z.of_nat (length sizes))%Z.
Proof.
  intros Hpos Hne.
  assert (Hsum : forall l, Forall (fun x => (1 <= x)%Z) l ->
            (Z.of_nat (length l) <= foldr Z.add 0 l)%Z
            /\ Forall (fun x => (x <= foldr Z.add 0 l)%Z) l).
  { induction 1 as [|x l Hx Hl [IH1 IH2]]; cbn [foldr length]; [split; [lia | constructor]|].
    split; [lia|]. constructor; [lia|].
    eapply Forall_impl; [exact IH2|]. cbn. intros; lia. }
  assert (Hmax : forall l M, Forall (fun x => (x <= M)%Z) l ->
            (foldr Z.add 0 l <= M * Z.of_nat (length l))%Z).
  { induction 1 as [|x l Hx Hl IH]; cbn [foldr length]; lia. }
  destruct sizes as [|x rest]; [done|].
  destruct (foldl_max_bounds rest x) as (Hx & Hall & Hin).
  destruct (Hsum _ Hpos) as [Hlen Hle].
  cbn [max_or_zero]. split; [|split; [assumption|]].
  - split.
    + apply Forall_cons_1 in Hpos as [Hx1 _]. lia.
    + rewrite Forall_forall in Hle. by apply Hle.
  - apply Hmax. constructor; assumption.
Qed.

Lemma partition_sizes_facts (guess : string) (words : list string)
    (m : gmap string (list string)) :
  calculate_partitions guess words = Ret m ->
  Forall (fun x => (1 <= x)%Z) (partition_sizes m)
  /\ foldr Z.add 0%Z (partition_sizes m) = Z.of_nat (length words)
  /\ length (partition_sizes m) = size m.
Proof.
  intros Hm.
  destruct (calculate_partitions_groups guess words m Hm) as (_ & _ & Hmem).
  assert (Hne : forall k l, m !! k = Some l -> l ≠ []).
  { apply (partitions_loop_nonempty guess words ∅ m Hm).
    intros k l. by rewrite lookup_empty. }
  unfold partition_sizes. split; [|split].
  - apply Forall_fmap, Forall_forall. intros [k l] Hin. cbn.
    apply elem_of_map_to_list in Hin. specialize (Hne k l Hin).
    destruct l; [done | cbn; lia].
  - rewrite sizes_sum. fold (members m). by rewrite (Permutation_length Hmem).
  - by rewrite length_fmap, length_map_to_list.
Qed.

(** the largest size is the size of a group, and of a largest one *)
Lemma max_or_zero_worst_case (m : gmap string (list string)) :
  m ≠ ∅ -> Stated.worst_case m (max_or_zero (partition_sizes m)).
Proof.
  intros Hne. unfold partition_sizes.
  assert (Hin : forall k g, m !! k = Some g ->
            Z.of_nat (length g)
            ∈ (fun kv : string * list string => Z.of_nat (length kv.2)) <$> map_to_list m).
  { intros k g Hk. apply list_elem_of_fmap. exists (k, g).
    split; [reflexivity | by apply elem_of_map_to_list]. }
  destruct ((fun kv : string * list string => Z.of_nat (length kv.2)) <$> map_to_list m)
    as [|x rest] eqn:Hsizes.
  { apply fmap_nil_inv, map_to_list_empty_iff in Hsizes. done. }
  cbn [max_or_zero].
  destruct (foldl_max_bounds rest x) as (Hx & Hrest & Hmax). split.
  - rewrite <- Hsizes in Hmax.
    apply list_elem_of_fmap in Hmax as ([k g] & Heq & Hkg).
    apply elem_of_map_to_list in Hkg. by exists k, g.
  - intros k g Hk. specialize (Hin k g Hk).
    apply elem_of_cons in Hin as [->|Hin]; [assumption|].
    rewrite Forall_forall in Hrest. by apply Hrest.
Qed.

(** the average of the sizes is the number of candidates divided by the
    number of groups *)
Lemma avg_or_zero_mean_case (guess : string) (words : list string)
    (m : gmap string (list string)) :
  calculate_partitions guess words = Ret m -> words ≠ [] ->
  m ≠ ∅ /\ avg_or_zero (partition_sizes m) = Stated.mean_case m words.
Proof.
  intros Hm Hne.
  destruct (partition_sizes_facts guess words m Hm) as (_ & Hsum & Hlen).
  assert (Hsizes : partition_sizes m ≠ []).
  { intros Hnil. rewrite Hnil in Hsum. cbn in Hsum. destruct words; [done | cbn in Hsum; lia]. }
  split.
  - intros ->. apply Hsizes. unfold partition_sizes. by rewrite map_to_list_empty.
  - unfold avg_or_zero, Stated.mean_case. rewrite Hsum, Hlen.
    destruct (partition_sizes m); [done | reflexivity].
Qed.

(** X10: [evaluate_guess] raises nothing on five-letter words.  With no
    candidates it returns the integers 0.  Otherwise the worst case is
    the size of a largest group, between 1 and the number of candidates,
    and times the number of groups it is at least the number of
    candidates; the average is the float quotient of the number of
    candidates by the number of groups; the words eliminated are the
    number of candidates less the average, in floats. *)
Theorem evaluate_guess_bounds (guess : string) (possible_words all_words : list string) :
  five guess -> Forall five possible_words ->
  exists m max_remaining avg_remaining total_eliminated,
    calculate_partitions guess possible_words = Ret m
    /\ evaluate_guess guess possible_words all_words
       = Ret (max_remaining, avg_remaining, bool_decide (guess ∈ possible_words),
              total_eliminated)
    /\ (possible_words = [] ->
        max_remaining = 0%Z /\ avg_remaining = Int 0 /\ total_eliminated = Int 0)
    /\ (possible_words ≠ [] ->
        Stated.worst_case m max_remaining
        /\ (1 <= max_remaining <= Z.of_nat (length possible_words))%Z
        /\ (Z.of_nat (length possible_words) <= max_remaining * Z.of_nat (size m))%Z
        /\ avg_remaining = Stated.mean_case m possible_words
        /\ total_eliminated
           = Float (SFsub Number.prec Number.emax
                      (Number.of_int (Z.of_nat (length possible_words)))
                      (Number.to_float avg_remaining))).
Proof.
  intros Hg Hw.
  destruct (calculate_partitions_returns guess possible_words Hg Hw) as [m Hm].
  destruct (partition_sizes_facts guess possible_words m Hm) as (Hpos & Hsum & Hlen).
  exists m. eexists _, _, _. split; [assumption|].
  unfold evaluate_guess. rewrite Hm. cbn [mbind outcome_bind].
  split; [reflexivity|]. split.
  - intros ->. cbn in Hm. injection Hm as <-. by vm_compute.
  - intros Hne.
    destruct (avg_or_zero_mean_case guess possible_words m Hm Hne) as [Hm0 Havg].
    assert (Hsizes : partition_sizes m ≠ []).
    { intros Hnil. rewrite Hnil in Hsum. cbn in Hsum.
      destruct possible_words; [done | cbn in Hsum; lia]. }
    destruct (sizes_bounds (partition_sizes m) Hpos Hsizes) as ((Hmax1 & Hmax2) & _ & Hmul).
    rewrite Hsum in Hmax2, Hmul. rewrite Hlen in Hmul.
    split; [by apply max_or_zero_worst_case|]. split; [lia|]. split; [lia|].
    split; [exact Havg|].
    rewrite Havg. reflexivity.
Qed.

Lemma evaluate_guess_bounds_witness :
  exists m max_remaining avg_remaining total_eliminated,
    calculate_partitions "LIGHT" Inputs.ight = Ret m
    /\ evaluate_guess "LIGHT" Inputs.ight Inputs.ight_dictionary
       = Ret (max_remaining, avg_remaining, bool_decide ("LIGHT"%string ∈ Inputs.ight),
              total_eliminated)
    /\ (Inputs.ight = [] ->
        max_remaining = 0%Z /\ avg_remaining = Int 0 /\ total_eliminated = Int 0)
    /\ (Inputs.ight ≠ [] ->
        Stated.worst_case m max_remaining
        /\ (1 <= max_remaining <= Z.of_nat (length Inputs.ight))%Z
        /\ (Z.of_nat (length Inputs.ight) <= max_remaining * Z.of_nat (size m))%Z
        /\ avg_remaining = Stated.mean_case m Inputs.ight
        /\ total_eliminated
           = Float (SFsub Number.prec Number.emax
                      (Number.of_int (Z.of_nat (length Inputs.ight)))
                      (Number.to_float avg_remaining))).
Proof.
  apply (evaluate_guess_bounds "LIGHT" Inputs.ight Inputs.ight_dictionary);
    [reflexivity | repeat constructor].
Defined.

(** ** Letter frequencies *)

Lemma counter_get_insert (freq : gmap ascii Z) (x c : ascii) (v : Z) :
  counter_get (<[x := v]> freq) c = if decide (c = x) then v else counter_get freq c.
Proof.
  unfold counter_get. destruct (decide (c = x)) as [->|Hne].
  - by rewrite lookup_insert_eq.
  - by rewrite lookup_insert_ne.
Qed.

(** one word adds one to each of its letters *)
Lemma count_word (chars : list ascii) : forall (freq : gmap ascii Z) (c : ascii),
  NoDup chars ->
  counter_get
    (foldl (fun freq char => <[char := (counter_get freq char + 1)%Z]> freq) freq chars) c
  = (counter_get freq c + (if decide (c ∈ chars) then 1 else 0))%Z.
Proof.
  induction chars as [|x chars IH]; intros freq c Hnd; cbn [foldl].
  - rewrite decide_False by apply not_elem_of_nil. lia.
  - apply NoDup_cons in Hnd as [Hx Hnd]. rewrite IH by assumption.
    rewrite counter_get_insert.
    destruct (decide (c = x)) as [->|Hne].
    + rewrite (decide_False (P := x ∈ chars)) by assumption.
      rewrite decide_True by apply list_elem_of_here. lia.
    + destruct (decide (c ∈ chars)) as [Hin|Hnin].
      * rewrite decide_True by (by apply list_elem_of_further). reflexivity.
      * rewrite decide_False; [reflexivity|].
        intros [->|Hin]%elem_of_cons; done.
Qed.

Lemma count_words (words : list string) : forall (freq : gmap ascii Z) (c : ascii),
  counter_get
    (foldl
       (fun letter_freq word =>
          foldl (fun freq char => <[char := (counter_get freq char + 1)%Z]> freq)
            letter_freq (elements (letters word)))
       freq words) c
  = (counter_get freq c
     + Z.of_nat (length (filter (fun w => c ∈ list_ascii_of_string w) words)))%Z.
Proof.
  induction words as [|w words IH]; intros freq c; cbn [foldl].
  - rewrite filter_nil. cbn. lia.
  - rewrite IH, count_word by apply NoDup_elements.
    rewrite filter_cons.
    assert (Hiff : c ∈ elements (letters w) <-> c ∈ list_ascii_of_string w).
    { unfold letters. rewrite elem_of_elements, elem_of_list_to_set. reflexivity. }
    destruct (decide (c ∈ elements (letters w))) as [Hin|Hnin].
    + rewrite decide_True by (by apply Hiff). cbn [length]. lia.
    + rewrite decide_False by (by rewrite <- Hiff). lia.
Qed.

Lemma letter_frequency_count (words : list string) (c : ascii) :
  counter_get (get_letter_frequencies words) c
  = Z.of_nat (length (filter (fun w => c ∈ list_ascii_of_string w) words)).
Proof.
  unfold get_letter_frequencies. rewrite count_words.
  unfold counter_get at 1. rewrite lookup_empty. cbn [default]. lia.
Qed.

(** X11: the frequency of a letter is the number of words that contain
    it, each word counted once however often it has the letter; it is at
    most the number of words, and 0 exactly for a letter of no word. *)
Theorem get_letter_frequencies_counts (words : list string) (c : ascii) :
  counter_get (get_letter_frequencies words) c
  = Z.of_nat (length (filter (fun w => c ∈ list_ascii_of_string w) words))
  /\ (0 <= counter_get (get_letter_frequencies words) c <= Z.of_nat (length words))%Z
  /\ (counter_get (get_letter_frequencies words) c = 0%Z
      <-> forall w, w ∈ words -> c ∉ list_ascii_of_string w).
Proof.
  rewrite letter_frequency_count. split; [reflexivity|].
  pose proof (length_filter (fun w => c ∈ list_ascii_of_string w) words) as Hle.
  split; [lia|]. split.
  - intros Hz w Hw Hc.
    assert (Hin : w ∈ filter (fun w => c ∈ list_ascii_of_string w) words)
      by (by apply list_elem_of_filter).
    destruct (filter _ words); [by apply elem_of_nil in Hin | cbn in Hz; lia].
  - intros Hnone.
    destruct (filter (fun w => c ∈ list_ascii_of_string w) words) as [|w l] eqn:Hf;
      [reflexivity|].
    assert (Hw : w ∈ filter (fun w => c ∈ list_ascii_of_string w) words)
      by (rewrite Hf; apply list_elem_of_here).
    apply list_elem_of_filter in Hw as [Hc Hw]. by destruct (Hnone w Hw).
Qed.

Lemma sum_positive {A : Type} (f : A -> Z) (l : list A) :
  (forall x, 0 <= f x)%Z ->
  (0 <= foldr Z.add 0 (f <$> l))%Z
  /\ ((0 < foldr Z.add 0 (f <$> l))%Z <-> exists x, x ∈ l /\ (0 < f x)%Z).
Proof.
  intros Hf. induction l as [|x l [IH1 IH2]]; cbn [fmap list_fmap foldr].
  - split; [lia|]. split; [lia | intros (x & Hin & _); by apply elem_of_nil in Hin].
  - specialize (Hf x) as Hx. split; [lia|]. split.
    + intros Hpos. destruct (decide (0 < f x)%Z) as [Hfx|Hfx].
      * exists x. split; [apply list_elem_of_here | assumption].
      * destruct (proj1 IH2) as (y & Hin & Hy); [lia|].
        exists y. split; [by apply list_elem_of_further | assumption].
    + intros (y & Hin & Hy). apply elem_of_cons in Hin as [->|Hin]; [lia|].
      assert (0 < foldr Z.add 0 (f <$> l))%Z by (apply IH2; eauto). lia.
Qed.

(** X12: the frequency score of a word against the candidates is the sum,
    over the distinct letters of the word, of the number of candidates
    with that letter; it is positive exactly when the word shares a
    letter with a candidate. *)
Theorem score_word_frequency_positive (word : string) (words : list string) :
  score_word_frequency word (get_letter_frequencies words)
  = foldr Z.add 0%Z
      ((fun c => Z.of_nat (length (filter (fun w => c ∈ list_ascii_of_string w) words)))
         <$> elements (letters word))
  /\ ((0 < score_word_frequency word (get_letter_frequencies words))%Z
      <-> exists w c, w ∈ words /\ c ∈ list_ascii_of_string word
                      /\ c ∈ list_ascii_of_string w).
Proof.
  assert (Heq : score_word_frequency word (get_letter_frequencies words)
    = foldr Z.add 0%Z
        ((fun c => Z.of_nat (length (filter (fun w => c ∈ list_ascii_of_string w) words)))
           <$> elements (letters word))).
  { unfold score_word_frequency. f_equal. apply list_fmap_ext.
    intros i c _. apply letter_frequency_count. }
  split; [exact Heq|]. rewrite Heq.
  rewrite (proj2 (sum_positive
    (fun c => Z.of_nat (length (filter (fun w => c ∈ list_ascii_of_string w) words)))
    (elements (letters word)) ltac:(intros; cbn beta; lia))).
  split.
  - intros (c & Hc & Hpos).
    unfold letters in Hc. rewrite elem_of_elements, elem_of_list_to_set in Hc.
    destruct (filter (fun w => c ∈ list_ascii_of_string w) words) as [|w l] eqn:Hf;
      [cbn in Hpos; lia|].
    assert (Hw : w ∈ filter (fun w => c ∈ list_ascii_of_string w) words)
      by (rewrite Hf; apply list_elem_of_here).
    apply list_elem_of_filter in Hw as [Hcw Hw]. by exists w, c.
  - intros (w & c & Hw & Hc & Hcw). exists c. split.
    + unfold letters. by rewrite elem_of_elements, elem_of_list_to_set.
    + assert (Hin : w ∈ filter (fun w => c ∈ list_ascii_of_string w) words)
        by (by apply list_elem_of_filter).
      destruct (filter _ words); [by apply elem_of_nil in Hin | cbn; lia].
Qed.

(** ** The order of the finite floats *)

Lemma lt_inf (s : number) : finite_float s = true -> Number.lt s Number.inf = true.
Proof. destruct s as [z|[| | |]]; try discriminate; intros _; reflexivity. Qed.

Lemma lt_irrefl (s : number) : Number.lt s s = false.
Proof.
  destruct s as [z|f]; cbn; [apply Z.ltb_irrefl|].
  unfold SFltb, SFcompare. destruct f as [s|s| |s m e]; try destruct s; try reflexivity;
    float_compare; cbn; try reflexivity; lia.
Qed.

(** a < b and b <= c give a < c *)
Lemma lt_le_trans (a b c : number) :
  finite_float a = true -> finite_float b = true -> finite_float c = true ->
  Number.lt a b = true -> Number.lt c b = false -> Number.lt a c = true.
Proof.
  destruct a as [?|[sa| | |sa ma ea]], b as [?|[sb| | |sb mb eb]],
    c as [?|[sc| | |sc mc ec]]; try discriminate; intros _ _ _;
    cbn; unfold SFltb, SFcompare;
    repeat match goal with s : bool |- _ => destruct s end;
    try discriminate; try reflexivity;
    float_compare; cbn; try discriminate; try reflexivity; intros; lia.
Qed.

Lemma lt_asym (a b : number) :
  finite_float a = true -> finite_float b = true ->
  Number.lt a b = true -> Number.lt b a = false.
Proof.
  destruct a as [?|[sa| | |sa ma ea]], b as [?|[sb| | |sb mb eb]];
    try discriminate; intros _ _;
    cbn; unfold SFltb, SFcompare;
    repeat match goal with s : bool |- _ => destruct s end;
    try discriminate; try reflexivity;
    float_compare; cbn; try discriminate; try reflexivity; intros; lia.
Qed.

Lemma all_in_spec (lo len : Z) (P : Z -> bool) :
  all_in lo len P = true -> forall z, (lo <= z < lo + len)%Z -> P z = true.
Proof.
  unfold all_in. rewrite forallb_forall. intros Hall z Hz.
  apply Hall, list_elem_of_In, elem_of_seqZ. lia.
Qed.

(** with up to ten candidates and five letters every score of the
    distinguishing search is a finite float *)
Lemma small_scores_finite :
  all_in 1 10 (fun n => all_in 1 n (fun mx => all_in 1 n (fun k =>
  all_in 0 6 (fun u => all_in 0 6 (fun e =>
    finite_float (small_score mx n k u e))))))
  = true.
Proof. vm_compute. reflexivity. Qed.

(** with two candidates, a word that tells them apart and has no
    excluded letter scores below every word that does not *)
Lemma two_scores_apart :
  all_in 0 6 (fun u1 => all_in 0 6 (fun u2 => all_in 0 6 (fun e2 =>
    Number.lt (small_score 1 2 2 u1 0) (small_score 2 2 1 u2 e2))))
  = true.
Proof. vm_compute. reflexivity. Qed.

Lemma small_score_finite (mx n k u e : Z) :
  (1 <= n <= 10)%Z -> (1 <= mx <= n)%Z -> (1 <= k <= n)%Z ->
  (0 <= u <= 5)%Z -> (0 <= e <= 5)%Z ->
  finite_float (small_score mx n k u e) = true.
Proof.
  intros Hn Hmx Hk Hu He.
  pose proof small_scores_finite as Hall.
  apply all_in_spec with (z := n) in Hall; [|lia].
  apply all_in_spec with (z := mx) in Hall; [|lia].
  apply all_in_spec with (z := k) in Hall; [|lia].
  apply all_in_spec with (z := u) in Hall; [|lia].
  apply all_in_spec with (z := e) in Hall; [assumption | lia].
Qed.

Lemma two_scores_apart_lt (u1 u2 e2 : Z) :
  (0 <= u1 <= 5)%Z -> (0 <= u2 <= 5)%Z -> (0 <= e2 <= 5)%Z ->
  Number.lt (small_score 1 2 2 u1 0) (small_score 2 2 1 u2 e2) = true.
Proof.
  intros Hu1 Hu2 He2.
  pose proof two_scores_apart as Hall.
  apply all_in_spec with (z := u1) in Hall; [|lia].
  apply all_in_spec with (z := u2) in Hall; [|lia].
  apply all_in_spec with (z := e2) in Hall; [assumption | lia].
Qed.

Lemma size_letters (w : string) : (size (letters w) <= String.length w)%nat.
Proof.
  unfold letters. rewrite <- length_list_ascii_of_string.
  induction (list_ascii_of_string w) as [|c l IH].
  - cbn [list_to_set length]. by rewrite size_empty.
  - rewrite list_to_set_cons, size_union_alt, size_singleton. cbn [length].
    assert (Hsub : (list_to_set l : gset ascii) ∖ {[c]} ⊆ list_to_set l)
      by (by apply subseteq_difference_l).
    apply subseteq_size in Hsub. lia.
Qed.

Lemma unexplored_bounds (w : string) (known excluded : gset ascii) :
  five w -> (0 <= len_set (letters w ∖ known ∖ excluded) <= 5)%Z.
Proof.
  intros Hw. unfold len_set.
  assert (Hsub : letters w ∖ known ∖ excluded ⊆ letters w)
    by (by do 2 apply subseteq_difference_l).
  apply subseteq_size in Hsub. pose proof (size_letters w) as Hsize.
  unfold five in Hw. lia.
Qed.

Lemma overlap_bounds (w : string) (other : gset ascii) :
  five w -> (0 <= len_set (letters w ∩ other) <= 5)%Z.
Proof.
  intros Hw. unfold len_set.
  assert (Hsub : letters w ∩ other ⊆ letters w) by apply intersection_subseteq_l.
  apply subseteq_size in Hsub. pose proof (size_letters w) as Hsize.
  unfold five in Hw. lia.
Qed.

(** the score of a word is that of the sizes of its partitions *)
Lemma distinguishing_score_small (possible_words : list string)
    (known_letters excluded_letters : gset ascii) (w : string) :
  five w -> Forall five possible_words -> possible_words ≠ [] ->
  exists m,
    calculate_partitions w possible_words = Ret m
    /\ (1 <= max_or_zero (partition_sizes m) <= Z.of_nat (length possible_words))%Z
    /\ (1 <= Z.of_nat (size m) <= Z.of_nat (length possible_words))%Z
    /\ distinguishing_score_of possible_words known_letters excluded_letters w
       = Ret (small_score (max_or_zero (partition_sizes m))
                (Z.of_nat (length possible_words)) (Z.of_nat (size m))
                (len_set (letters w ∖ known_letters ∖ excluded_letters))
                (len_set (letters w ∩ excluded_letters))).
Proof.
  intros Hw Hposs Hne.
  destruct (calculate_partitions_returns w possible_words Hw Hposs) as [m Hm].
  destruct (partition_sizes_facts w possible_words m Hm) as (Hpos & Hsum & Hlen).
  assert (Hsizes : partition_sizes m ≠ []).
  { intros Hnil. rewrite Hnil in Hsum. cbn in Hsum.
    destruct possible_words; [done | cbn in Hsum; lia]. }
  destruct (sizes_bounds (partition_sizes m) Hpos Hsizes) as ((Hmax1 & Hmax2) & Hcount & _).
  rewrite Hsum in Hmax2, Hcount. rewrite Hlen in Hcount.
  exists m. split; [assumption|]. split; [lia|]. split.
  { split; [|lia]. destruct (partition_sizes m); [done|]. cbn in Hlen. lia. }
  unfold distinguishing_score_of, small_score. rewrite Hm. cbn [mbind outcome_bind].
  do 2 f_equal. unfold avg_or_zero. rewrite Hsum, Hlen.
  destruct (partition_sizes m); [done | reflexivity].
Qed.

(** with up to ten candidates the score of a five-letter word is a finite
    float *)
Lemma distinguishing_score_finite (possible_words : list string)
    (known_letters excluded_letters : gset ascii) (w : string) (s : number) :
  Forall five possible_words -> (1 <= length possible_words <= 10)%nat ->
  five w ->
  distinguishing_score_of possible_words known_letters excluded_letters w = Ret s ->
  finite_float s = true.
Proof.
  intros Hposs Hlen Hw Hs.
  assert (Hne : possible_words ≠ []) by (intros ->; cbn in Hlen; lia).
  destruct (distinguishing_score_small possible_words known_letters excluded_letters
              w Hw Hposs Hne) as (m & _ & Hmax & Hsize & Hscore).
  rewrite Hscore in Hs. injection Hs as <-.
  apply small_score_finite; try lia.
  - by apply unexplored_bounds.
  - by apply overlap_bounds.
Qed.

(** ** The distinguishing search returns the first word of lowest score *)

Section DistinguishingLowest.
Import Distinguishing.

Variables (possible_words : list string) (known_letters excluded_letters : gset ascii).

Hypothesis possible_five : Forall five possible_words.
Hypothesis possible_few : (1 <= length possible_words <= 10)%nat.

Local Abbreviation score_of :=
  (distinguishing_score_of possible_words known_letters excluded_letters).
Local Abbreviation lowest_at :=
  (first_lowest_at possible_words known_letters excluded_letters).
Local Abbreviation after :=
  (best_after possible_words known_letters excluded_letters).

Lemma distinguishing_step_score (w : string) (b : best) :
  five w ->
  exists s,
    score_of w = Ret s
    /\ ((Number.lt s (best_score b) = true
         /\ exists info,
              step possible_words known_letters excluded_letters w b
              = Ret {| best_word := Some w; best_score := s;
                       best_info := Some info |})
        \/ (Number.lt s (best_score b) = false
            /\ step possible_words known_letters excluded_letters w b = Ret b)).
Proof.
  intros Hw. unfold distinguishing_score_of, step.
  destruct (calculate_partitions_returns w possible_words Hw possible_five) as [m ->].
  cbn [mbind outcome_bind]. eexists. split; [reflexivity|].
  destruct (Number.lt _ (best_score b)); [left | right; by split].
  split; [reflexivity|]. eexists. reflexivity.
Qed.

Local Abbreviation finite_score :=
  (distinguishing_score_finite possible_words known_letters excluded_letters).

Lemma best_after_step (pre : list string) (w : string) (b : best) :
  Forall five pre -> five w -> after pre b ->
  exists b',
    step possible_words known_letters excluded_letters w b = Ret b'
    /\ after (pre ++ [w]) b'.
Proof.
  intros Hpre Hw Hb.
  destruct (distinguishing_step_score w b Hw) as (s & Hs & Hstep).
  pose proof (finite_score w s possible_five possible_few Hw Hs) as Hfin.
  destruct Hb as [[-> ->]|(i & w0 & s0 & info0 & (Hi & Hs0 & Hmin) & ->)].
  - destruct Hstep as [(_ & info & ->)|(Hbelow & _)].
    2:{ cbn [best_score start] in Hbelow. by rewrite (lt_inf s Hfin) in Hbelow. }
    eexists. split; [reflexivity|]. right. exists 0%nat, w, s, info.
    split; [|reflexivity]. split; [reflexivity|]. split; [assumption|].
    intros [|j] w' s' Hj Hs'; [|discriminate]. injection Hj as <-.
    rewrite Hs in Hs'. injection Hs' as <-. split; [apply lt_irrefl | lia].
  - pose proof (lookup_lt_Some _ _ _ Hi) as Hlt.
    assert (Hfin0 : finite_float s0 = true).
    { apply (finite_score w0 s0 possible_five possible_few); [|assumption].
      rewrite Forall_forall in Hpre. apply Hpre, list_elem_of_lookup. by exists i. }
    destruct Hstep as [(Hbelow & info & ->)|(Hbelow & ->)];
      cbn [best_score] in Hbelow.
    + eexists. split; [reflexivity|]. right. exists (length pre), w, s, info.
      split; [|reflexivity]. split; [|split; [assumption|]].
      { rewrite lookup_app_r by lia. by rewrite Nat.sub_diag. }
      intros j w' s' Hj Hs'.
      destruct (decide (j < length pre)%nat) as [Hjlt|Hjge].
      * rewrite lookup_app_l in Hj by assumption.
        destruct (Hmin j w' s' Hj Hs') as [Hle _].
        assert (Hfin' : finite_float s' = true).
        { apply (finite_score w' s' possible_five possible_few); [|assumption].
          rewrite Forall_forall in Hpre. apply Hpre, list_elem_of_lookup. by exists j. }
        assert (Hss' : Number.lt s s' = true) by (by apply (lt_le_trans s s0 s')).
        split; [by apply lt_asym | done].
      * rewrite lookup_app_r in Hj by lia.
        destruct (j - length pre)%nat as [|k] eqn:Hk; [|discriminate].
        injection Hj as <-. rewrite Hs in Hs'. injection Hs' as <-.
        split; [apply lt_irrefl | lia].
    + eexists. split; [reflexivity|]. right. exists i, w0, s0, info0.
      split; [|reflexivity]. split; [|split; [assumption|]].
      { by rewrite lookup_app_l. }
      intros j w' s' Hj Hs'.
      destruct (decide (j < length pre)%nat) as [Hjlt|Hjge].
      * rewrite lookup_app_l in Hj by assumption. by apply (Hmin j w' s').
      * rewrite lookup_app_r in Hj by lia.
        destruct (j - length pre)%nat as [|k] eqn:Hk; [|discriminate].
        injection Hj as <-. rewrite Hs in Hs'. injection Hs' as <-.
        split; [assumption | lia].
Qed.

Lemma best_after_loop (rest : list string) :
  Forall five rest ->
  forall pre b, Forall five pre -> after pre b ->
  exists b',
    for_each rest (step possible_words known_letters excluded_letters) b = Ret b'
    /\ after (pre ++ rest) b'.
Proof.
  induction 1 as [|w rest Hw _ IH]; intros pre b Hpre Hb; cbn [for_each].
  - exists b. rewrite app_nil_r. by split.
  - destruct (best_after_step pre w b Hpre Hw Hb) as (b1 & -> & Hb1).
    cbn [mbind outcome_bind].
    assert (Hpre1 : Forall five (pre ++ [w])) by (apply Forall_app; by repeat constructor).
    destruct (IH (pre ++ [w]) b1 Hpre1 Hb1) as (b' & -> & Hb').
    exists b'. split; [reflexivity|]. by rewrite <- app_assoc in Hb'.
Qed.

End DistinguishingLowest.

(** X13: with two to ten candidates, which is when [choose_best_word]
    calls it, and something to evaluate, the distinguishing search returns
    a word that it evaluated: no evaluated word has a lower score, in the
    comparison of floats, and every word evaluated before it has a higher
    one. *)
Theorem find_best_distinguishing_word_lowest (possible_words all_words : list string)
    (known_letters excluded_letters : gset ascii) :
  (2 <= length possible_words <= 10)%nat ->
  Forall five possible_words -> Forall five all_words ->
  Distinguishing.evaluation_candidates possible_words all_words ≠ [] ->
  exists i w s,
    first_lowest_at possible_words known_letters excluded_letters
      (Distinguishing.evaluation_candidates possible_words all_words) i w s
    /\ find_best_distinguishing_word possible_words all_words known_letters
         excluded_letters
       = Ret (Some w).
Proof.
  intros Hlen Hposs Hall Hne.
  set (pool := Distinguishing.evaluation_candidates possible_words all_words) in *.
  assert (Hpool : Forall five pool).
  { apply Forall_forall. intros w Hw.
    rewrite Forall_forall in Hall. rewrite Forall_forall in Hposs.
    apply evaluation_candidates_elem in Hw as [Hw|Hw]; auto. }
  destruct (best_after_loop possible_words known_letters excluded_letters Hposs
              ltac:(lia) pool Hpool [] Distinguishing.start) as (b & Hrun & Hb).
  { constructor. }
  { left. by split. }
  cbn [app] in Hb. destruct Hb as [[Hnil _]|(i & w & s & info & Hlow & ->)]; [done|].
  exists i, w, s. split; [assumption|].
  unfold find_best_distinguishing_word.
  destruct (decide (length possible_words <= 1)%nat); [lia|].
  fold pool. rewrite Hrun. cbn [mbind outcome_bind Distinguishing.best_word
    Distinguishing.best_info].
  assert (Hw : five w).
  { destruct Hlow as (Hi & _). rewrite Forall_forall in Hpool.
    apply Hpool, list_elem_of_lookup. by exists i. }
  rewrite (five_truthy w Hw). rewrite bool_decide_eq_true_2 by (by eexists).
  reflexivity.
Qed.

Lemma find_best_distinguishing_word_lowest_witness :
  exists i w s,
    first_lowest_at Inputs.bake ∅ ∅
      (Distinguishing.evaluation_candidates Inputs.bake Inputs.bake_dictionary) i w s
    /\ find_best_distinguishing_word Inputs.bake Inputs.bake_dictionary ∅ ∅
       = Ret (Some w).
Proof.
  apply (find_best_distinguishing_word_lowest Inputs.bake Inputs.bake_dictionary ∅ ∅).
  - cbn. lia.
  - repeat constructor.
  - repeat constructor.
  - vm_compute. discriminate.
Defined.

(** ** The general case: what is evaluated and what is returned *)

Lemma general_loop_words possible_words all_words turn known excluded
    (pool : list string) :
  forall acc candidates,
  for_each pool (General.step possible_words all_words turn known excluded) acc
  = Ret candidates ->
  General.sc_word <$> candidates = (General.sc_word <$> acc) ++ pool.
Proof.
  induction pool as [|w pool IH]; intros acc cands Hrun; cbn [for_each] in Hrun.
  - injection Hrun as <-. by rewrite app_nil_r.
  - rewrite general_step in Hrun.
    destruct (calculate_partitions w possible_words) as [m|e]; [|discriminate].
    cbn [mbind outcome_bind] in Hrun.
    rewrite (IH _ _ Hrun), fmap_app, <- app_assoc. reflexivity.
Qed.

Lemma general_pick_word pool possible_words all_words turn known excluded r :
  General.pick pool possible_words all_words turn known excluded = Ret r ->
  exists w, r = Some w /\ w ∈ pool.
Proof.
  unfold General.pick. intros Hpick.
  destruct (for_each pool _ []) as [cands|e] eqn:Hrun; [|discriminate].
  cbn [mbind outcome_bind] in Hpick.
  apply general_loop_words in Hrun. cbn [fmap list_fmap app] in Hrun.
  unfold index in Hpick.
  destruct (py_sort General.compare_scored cands !! 0%nat) as [first|] eqn:Hfirst;
    [|discriminate].
  cbn [mbind outcome_bind] in Hpick. injection Hpick as <-.
  exists (General.sc_word first). split; [reflexivity|].
  rewrite <- Hrun. apply list_elem_of_fmap_2.
  apply (py_sort_elem General.compare_scored). apply list_elem_of_lookup. by exists 0%nat.
Qed.

Lemma take_take_elem {A : Type} (n k : nat) (l : list A) (x : A) :
  (n <= k)%nat -> x ∈ take n l -> x ∈ take k l.
Proof.
  intros Hle. rewrite !elem_of_take. intros (i & Hi & Hlt). exists i. split; [assumption | lia].
Qed.

Lemma elimination_set_unfold possible_words all_words known excluded :
  General.elimination_set possible_words all_words known excluded
    (get_letter_frequencies possible_words)
  = take 150
      (if decide (length (strict_words possible_words all_words known excluded) < 50)%nat
       then strict_words possible_words all_words known excluded
            ++ widened_words possible_words all_words
       else strict_words possible_words all_words known excluded).
Proof. reflexivity. Qed.

Lemma medium_set_elem possible_words all_words known excluded w :
  w ∈ General.medium_set possible_words all_words known excluded ->
  w ∈ take 600 all_words /\ (w ∉ possible_words)
  /\ (2 <= General.unexplored w known excluded)%Z.
Proof.
  unfold General.medium_set. intros Hin.
  apply list_elem_of_fmap in Hin as ([n w'] & -> & Hin). cbn.
  apply subseteq_take in Hin. unfold py_sort_reverse in Hin.
  apply py_sort_elem in Hin.
  apply list_elem_of_fmap in Hin as (w'' & [= -> ->] & Hin).
  apply list_elem_of_filter in Hin as [HP Hw]. tauto.
Qed.

Lemma general_pool_prefix possible_words all_words known excluded w :
  w ∈ general_pool possible_words all_words known excluded ->
  w ∈ take 800 all_words /\ w ∉ possible_words.
Proof.
  unfold general_pool. destruct (decide _) as [_|_]; intros Hin.
  - rewrite elimination_set_unfold in Hin. apply subseteq_take in Hin.
    assert (Hw : w ∈ strict_words possible_words all_words known excluded
                 \/ w ∈ widened_words possible_words all_words).
    { case_decide; [by apply elem_of_app in Hin | by left]. }
    unfold strict_words, widened_words in Hw.
    rewrite !list_elem_of_filter in Hw. tauto.
  - apply medium_set_elem in Hin as (Hin & Hnot & _).
    split; [|assumption]. apply (take_take_elem 600 800); [lia | assumption].
Qed.

(** X14: with more than ten candidates, after the first turn, a word that
    [choose_best_word] returns is one of the first 800 words of the
    dictionary and is never a candidate; [None] is not returned. *)
Theorem general_case_never_candidate (possible_words all_words : list string) (turn : Z)
    (known excluded : option (gset ascii)) (r : option string) :
  (10 < length possible_words)%nat -> turn ≠ 1%Z ->
  choose_best_word possible_words all_words turn known excluded = Ret r ->
  exists w, r = Some w /\ w ∈ take 800 all_words /\ w ∉ possible_words.
Proof.
  intros Hten Hturn Hr. rewrite choose_best_word_general in Hr by assumption.
  apply general_pick_word in Hr as (w & -> & Hw).
  exists w. split; [reflexivity|]. by apply general_pool_prefix in Hw.
Qed.

Lemma general_case_never_candidate_witness :
  exists w, Some "COCOA"%string = Some w
            /\ w ∈ take 800 Inputs.ight_dictionary /\ w ∉ Inputs.ight.
Proof.
  apply (general_case_never_candidate Inputs.ight Inputs.ight_dictionary 2 None None).
  - cbn. lia.
  - lia.
  - vm_compute. reflexivity.
Defined.

(** X15: with more than ten five-letter candidates, after the first turn,
    [choose_best_word] raises [IndexError] exactly when its evaluation
    set is empty; no first candidate is returned instead. *)
Theorem general_case_raises_iff (possible_words all_words : list string) (turn : Z)
    (known excluded : option (gset ascii)) :
  (10 < length possible_words)%nat -> turn ≠ 1%Z ->
  Forall five possible_words -> Forall five all_words ->
  choose_best_word possible_words all_words turn known excluded = Raise IndexError
  <-> general_pool possible_words all_words (default ∅ known) (default ∅ excluded) = [].
Proof.
  intros Hten Hturn Hposs Hall. rewrite choose_best_word_general by assumption.
  set (pool := general_pool _ _ _ _). split.
  - intros Hraise. destruct (decide (pool = [])) as [|Hne]; [assumption|].
    assert (Hfive : Forall five pool).
    { apply Forall_forall. intros w Hw. apply general_pool_elem in Hw as [Hw _].
      rewrite Forall_forall in Hall. by apply Hall. }
    destruct (general_pick possible_words all_words turn (default ∅ known)
                (default ∅ excluded) Hposs pool Hfive Hne)
      as (cands & h & _ & _ & _ & Hpick).
    rewrite Hpick in Hraise. discriminate.
  - intros ->. reflexivity.
Qed.

Lemma general_case_raises_iff_witness :
  choose_best_word Inputs.ight Inputs.ight 2 None None = Raise IndexError
  <-> general_pool Inputs.ight Inputs.ight (default ∅ None) (default ∅ None) = [].
Proof.
  apply (general_case_raises_iff Inputs.ight Inputs.ight 2 None None).
  - cbn. lia.
  - lia.
  - repeat constructor.
  - repeat constructor.
Defined.

(** X16: above the elimination threshold the evaluation set has at most
    150 words; a word with an excluded letter, or with fewer than three
    unexplored letters, is in it only when the first loop kept fewer than
    50 words, and then it shares a letter with a candidate. *)
Theorem elimination_set_shape (possible_words all_words : list string)
    (known excluded : gset ascii) (w : string) :
  w ∈ General.elimination_set possible_words all_words known excluded
        (get_letter_frequencies possible_words) ->
  (length (General.elimination_set possible_words all_words known excluded
             (get_letter_frequencies possible_words)) <= 150)%nat
  /\ ((letters w ∩ excluded = ∅ /\ (3 <= General.unexplored w known excluded)%Z)
      \/ ((length (strict_words possible_words all_words known excluded) < 50)%nat
          /\ (0 < score_word_frequency w (get_letter_frequencies possible_words))%Z)).
Proof.
  rewrite elimination_set_unfold. intros Hin. split.
  - rewrite length_take. lia.
  - apply subseteq_take in Hin.
    destruct (decide (_ < 50)%nat) as [Hlt|Hge].
    + apply elem_of_app in Hin as [Hin|Hin].
      * left. unfold strict_words in Hin. apply list_elem_of_filter in Hin as [HP _].
        cbn beta in HP. tauto.
      * right. unfold widened_words in Hin. apply list_elem_of_filter in Hin as [HP _].
        cbn beta in HP. tauto.
    + left. unfold strict_words in Hin. apply list_elem_of_filter in Hin as [HP _].
        cbn beta in HP. tauto.
Qed.

Lemma elimination_set_shape_witness :
  (length (General.elimination_set ["SLATE"]%string ["CRANE"; "SLATE"]%string ∅ ∅
             (get_letter_frequencies ["SLATE"]%string)) <= 150)%nat
  /\ ((letters "CRANE" ∩ ∅ = (∅ : gset ascii)
       /\ (3 <= General.unexplored "CRANE" ∅ ∅)%Z)
      \/ ((length (strict_words ["SLATE"]%string ["CRANE"; "SLATE"]%string ∅ ∅) < 50)%nat
          /\ (0 < score_word_frequency "CRANE"
                    (get_letter_frequencies ["SLATE"]%string))%Z)).
Proof.
  apply (elimination_set_shape ["SLATE"]%string ["CRANE"; "SLATE"]%string ∅ ∅ "CRANE").
  vm_compute. apply list_elem_of_here.
Defined.

(** ** [list.sort] sorts *)

Section SortSorted.

Context {A : Type} (cmp : A -> A -> comparison) `{!Ordering cmp}.

Lemma insert_sorted_sorted x s :
  StronglySorted (fun a b => cmp b a ≠ Lt) s ->
  StronglySorted (fun a b => cmp b a ≠ Lt) (insert_sorted cmp x s).
Proof.
  induction 1 as [|y s Hs IH Hy]; cbn.
  - repeat constructor.
  - destruct (is_lt (cmp y x)) eqn:Hyx.
    + constructor; [assumption|].
      apply Forall_forall. intros z Hz. apply (insert_sorted_elem cmp) in Hz as [->|Hz].
      * rewrite (ord_opp y x). destruct (cmp y x); done.
      * rewrite Forall_forall in Hy. by apply Hy.
    + assert (Hnlt : cmp y x ≠ Lt) by (intros E; by rewrite E in Hyx).
      constructor; [by constructor|].
      constructor; [assumption|].
      apply Forall_forall. intros z Hz. rewrite Forall_forall in Hy.
      apply (ord_not_lt cmp z y x); [by apply Hy | assumption].
Qed.

Lemma py_sort_sorted l : StronglySorted (fun a b => cmp b a ≠ Lt) (py_sort cmp l).
Proof.
  unfold py_sort. induction l as [|x l IH]; cbn; [constructor|].
  by apply insert_sorted_sorted.
Qed.

End SortSorted.

Lemma strongly_sorted_lookup {A : Type} (R : A -> A -> Prop) (l : list A) :
  StronglySorted R l ->
  forall i j x y, (i < j)%nat -> l !! i = Some x -> l !! j = Some y -> R x y.
Proof.
  induction 1 as [|z l Hl IH Hz]; intros i j x y Hij Hi Hj; [by rewrite lookup_nil in Hi|].
  destruct j as [|j]; [lia|]. cbn in Hj. destruct i as [|i]; cbn in Hi.
  - injection Hi as <-. rewrite Forall_forall in Hz. apply Hz.
    apply list_elem_of_lookup. by exists j.
  - apply (IH i j); [lia | assumption..].
Qed.

(** X17: between the medium and the elimination threshold the evaluation
    set has at most 100 words, all among the first 600 of the dictionary,
    none a candidate, each with two unexplored letters or more, and it
    lists them by decreasing number of unexplored letters. *)
Theorem medium_set_shape (possible_words all_words : list string)
    (known excluded : gset ascii) :
  (length (General.medium_set possible_words all_words known excluded) <= 100)%nat
  /\ (forall w, w ∈ General.medium_set possible_words all_words known excluded ->
        w ∈ take 600 all_words /\ (w ∉ possible_words)
        /\ (2 <= General.unexplored w known excluded)%Z)
  /\ (forall i j w1 w2, (i < j)%nat ->
        General.medium_set possible_words all_words known excluded !! i = Some w1 ->
        General.medium_set possible_words all_words known excluded !! j = Some w2 ->
        (General.unexplored w2 known excluded <= General.unexplored w1 known excluded)%Z).
Proof.
  split; [|split].
  - unfold General.medium_set. rewrite length_fmap, length_take. lia.
  - intros w. apply medium_set_elem.
  - unfold General.medium_set, py_sort_reverse.
    set (pairs := (fun word => (General.unexplored word known excluded, word)) <$> _).
    set (sorted := py_sort _ pairs).
    assert (Hpair : forall p, p ∈ sorted -> p.1 = General.unexplored p.2 known excluded).
    { intros p Hp. apply py_sort_elem in Hp.
      apply list_elem_of_fmap in Hp as (w & -> & _). reflexivity. }
    assert (Hsorted : StronglySorted
              (fun a b => General.compare_counted a b ≠ Lt) sorted).
    { apply (@py_sort_sorted _ (fun a b => General.compare_counted b a)
               (ordering_flip _ ordering_counted)). }
    intros i j w1 w2 Hij Hi Hj.
    rewrite list_lookup_fmap in Hi, Hj.
    destruct (take 100 sorted !! i) as [[n1 v1]|] eqn:Hi'; [|discriminate].
    destruct (take 100 sorted !! j) as [[n2 v2]|] eqn:Hj'; [|discriminate].
    cbn in Hi, Hj. injection Hi as ->. injection Hj as ->.
    apply lookup_take_Some in Hi' as [Hi' _]. apply lookup_take_Some in Hj' as [Hj' _].
    pose proof (strongly_sorted_lookup _ _ Hsorted i j _ _ Hij Hi' Hj') as Hcmp.
    assert (H1 : (n1, w1) ∈ sorted) by (apply list_elem_of_lookup; by exists i).
    assert (H2 : (n2, w2) ∈ sorted) by (apply list_elem_of_lookup; by exists j).
    apply Hpair in H1, H2. cbn in H1, H2. subst n1 n2.
    unfold General.compare_counted, lex in Hcmp. cbn [fst snd] in Hcmp.
    destruct (Z.compare_spec (General.unexplored w1 known excluded)
                (General.unexplored w2 known excluded)); [lia | done | lia].
Qed.

(** ** solve_wordle_auto on small dictionaries *)

Example solve_slate :
  solve_wordle_auto "SLATE" ["COURT"; "SLATE"; "CRANE"; "TRACE"]%string
  = inr (["COURT"; "SLATE"]%string, 2%Z).
Proof. vm_compute. reflexivity. Qed.

(** a target that is not in the dictionary can leave no candidate: the
    selector then returns [None], which [get_feedback] cannot take *)
Example solve_unknown_target :
  solve_wordle_auto "SLATE" ["COURT"]%string = inl Auto.TypeError.
Proof. vm_compute. reflexivity. Qed.

(** a letter that is Black before it is Green is excluded and known: E
    ends up excluded although THOSE has it *)
Example update_excludes_target_letter :
  get_feedback "GEESE" "THOSE" = Ret "BBBGG"%string
  /\ "E"%char ∈ (Knowledge.update "GEESE" "BBBGG" (∅, ∅)).2
  /\ "E"%char ∈ (Knowledge.update "GEESE" "BBBGG" (∅, ∅)).1.
Proof. split; [vm_compute; reflexivity|]. split; by vm_compute. Qed.

(** ** The knowledge update *)

Section KnowledgeFold.
Import Knowledge.

Lemma note_marked k e c m :
  marked_pair (c, m) -> note (k, e) (c, m) = (k ∪ {[c]}, e).
Proof.
  unfold marked_pair, note. cbn. intros [->| ->]; [reflexivity|].
  destruct (decide ("Y"%char = "G"%char)); [discriminate | reflexivity].
Qed.

Lemma note_unmarked k e c m :
  ¬ marked_pair (c, m) ->
  note (k, e) (c, m) = (k, if decide (c ∉ k) then e ∪ {[c]} else e).
Proof.
  unfold marked_pair, note. cbn. intros Hm.
  destruct (decide (m = "G"%char)); [tauto|].
  destruct (decide (m = "Y"%char)); [tauto|].
  destruct (decide (c ∉ k)); reflexivity.
Qed.

(** the known letters grow by the marked letters *)
Lemma update_known ps : forall k e,
  (foldl note (k, e) ps).1 = k ∪ list_to_set ((filter marked_pair ps).*1).
Proof.
  induction ps as [|[c m] ps IH]; intros k e; cbn [foldl].
  - cbn. by rewrite union_empty_r_L.
  - destruct (decide (marked_pair (c, m))) as [Hm|Hm].
    + rewrite note_marked, IH, filter_cons_True by assumption.
      rewrite fmap_cons, list_to_set_cons. cbn [fst].
      by rewrite (assoc_L (∪)).
    + rewrite note_unmarked, IH, filter_cons_False by assumption. reflexivity.
Qed.

Lemma update_excluded_mono ps : forall k e, e ⊆ (foldl note (k, e) ps).2.
Proof.
  induction ps as [|[c m] ps IH]; intros k e; cbn [foldl]; [done|].
  destruct (decide (marked_pair (c, m))) as [Hm|Hm].
  - rewrite note_marked by assumption. apply IH.
  - rewrite note_unmarked by assumption. etransitivity; [|apply IH].
    destruct (decide (c ∉ k)); [apply union_subseteq_l | done].
Qed.

(** an excluded letter was excluded before or has an unmarked position
    and was not known *)
Lemma update_excluded_from ps : forall k e c,
  c ∈ (foldl note (k, e) ps).2 ->
  c ∈ e \/ ((c ∉ k) /\ exists i m, ps !! i = Some (c, m) /\ ¬ marked_pair (c, m)).
Proof.
  induction ps as [|[x m] ps IH]; intros k e c; cbn [foldl]; [by left|].
  destruct (decide (marked_pair (x, m))) as [Hm|Hm].
  - rewrite note_marked by assumption. intros [He|(Hk & i & m' & Hi & Hm')]%IH.
    + by left.
    + right. split; [|by exists (S i), m'].
      intros Hin. apply Hk, elem_of_union. by left.
  - rewrite note_unmarked by assumption. intros [He|(Hk & i & m' & Hi & Hm')]%IH.
    + destruct (decide (x ∉ k)); [|by left].
      apply elem_of_union in He as [He|Hx]; [by left|].
      apply elem_of_singleton in Hx as ->.
      right. split; [assumption|]. by exists 0%nat, m.
    + right. split; [assumption|]. by exists (S i), m'.
Qed.

(** a letter that is never marked, has an unmarked position and was not
    known is excluded *)
Lemma update_excluded_to ps : forall k e c i m,
  ps !! i = Some (c, m) -> c ∉ k -> c ∉ (filter marked_pair ps).*1 ->
  c ∈ (foldl note (k, e) ps).2.
Proof.
  induction ps as [|[x m0] ps IH]; intros k e c i m Hi Hk Hnever; [by rewrite lookup_nil in Hi|].
  cbn [foldl].
  destruct (decide (marked_pair (x, m0))) as [Hm|Hm].
  - rewrite filter_cons_True in Hnever by assumption. cbn in Hnever.
    apply not_elem_of_cons in Hnever as [Hne Hnever].
    rewrite note_marked by assumption.
    destruct i as [|i]; cbn in Hi; [injection Hi as -> ->; done|].
    apply (IH _ _ c i m Hi); [|assumption].
    intros [Hin|Hin%elem_of_singleton]%elem_of_union; done.
  - rewrite filter_cons_False in Hnever by assumption.
    rewrite note_unmarked by assumption.
    destruct i as [|i]; cbn in Hi.
    + injection Hi as -> ->. rewrite decide_True by assumption.
      apply update_excluded_mono, elem_of_union. right. by apply elem_of_singleton.
    + by apply (IH _ _ c i m Hi).
Qed.

Lemma marked_letter_count (c : ascii) (gs fs : list ascii) :
  c ∈ (filter marked_pair (zip gs fs)).*1 <-> (1 <= cnt_marked c gs fs)%nat.
Proof.
  unfold cnt_marked. generalize (zip gs fs). intros ps.
  induction ps as [|[x m] ps IH].
  - cbn. split; [intros []%elem_of_nil | lia].
  - unfold marked_pair in *.
    rewrite !filter_cons. cbn [fst snd].
    destruct (decide (m = "G"%char \/ m = "Y"%char)) as [Hm|Hm].
    + cbn [fmap list_fmap fst]. rewrite elem_of_cons, IH.
      destruct (decide (x = c /\ (m = "G"%char \/ m = "Y"%char))) as [[-> _]|Hn];
        cbn [length]; [split; [lia | by left]|].
      split; [intros [->|?]; [tauto | assumption] | by right].
    + rewrite IH. rewrite decide_False by tauto. reflexivity.
Qed.

Lemma cnt_pos (c : ascii) (l : list ascii) : (1 <= cnt c l)%nat <-> c ∈ l.
Proof.
  unfold cnt. induction l as [|x l IH].
  - cbn. split; [lia | intros []%elem_of_nil].
  - rewrite filter_cons, elem_of_cons. destruct (decide (x = c)) as [->|Hne].
    + cbn. split; [by left | lia].
    + rewrite IH. split; [by right | intros [->|?]; done].
Qed.

End KnowledgeFold.

(** X18: after a guess with the feedback of a target, the known letters
    are those known before and the letters that guess and target share. *)
Theorem update_known_exact (guess target : string) (known excluded : gset ascii) :
  five guess -> five target ->
  exists fb,
    get_feedback guess target = Ret fb
    /\ (Knowledge.update guess fb (known, excluded)).1
       = known ∪ (letters guess ∩ letters target).
Proof.
  intros Hg Ht. eexists. split; [by apply get_feedback_marks|].
  unfold five in Hg, Ht. rewrite <- length_list_ascii_of_string in Hg, Ht.
  unfold Knowledge.update. rewrite update_known, list_ascii_of_string_of_list_ascii.
  apply set_eq. intros c. rewrite !elem_of_union, elem_of_intersection.
  unfold letters. rewrite !elem_of_list_to_set.
  rewrite marked_letter_count, marks_count by congruence.
  rewrite <- !cnt_pos.
  assert (Hmin : (1 <= Nat.min (cnt c (list_ascii_of_string guess))
                          (cnt c (list_ascii_of_string target)))%nat
                 <-> (1 <= cnt c (list_ascii_of_string guess))%nat
                     /\ (1 <= cnt c (list_ascii_of_string target))%nat) by lia.
  tauto.
Qed.

Lemma update_known_exact_witness :
  exists fb,
    get_feedback "GEESE" "THOSE" = Ret fb
    /\ (Knowledge.update "GEESE" fb (∅, ∅)).1 = ∅ ∪ (letters "GEESE" ∩ letters "THOSE").
Proof. apply (update_known_exact "GEESE" "THOSE" ∅ ∅); reflexivity. Defined.

(** X19: after a guess with the feedback of a target, the excluded
    letters of before are kept; every letter of the guess that the target
    lacks and that was not known is excluded; a newly excluded letter was
    not known and is a letter that the guess has more often than the
    target, so a letter of the target can be excluded only if the guess
    repeats it. *)
Theorem update_excluded_meaning (guess target : string) (known excluded : gset ascii) :
  five guess -> five target ->
  exists fb,
    get_feedback guess target = Ret fb
    /\ excluded ⊆ (Knowledge.update guess fb (known, excluded)).2
    /\ (forall c, c ∈ list_ascii_of_string guess -> c ∉ list_ascii_of_string target ->
          c ∉ known -> c ∈ (Knowledge.update guess fb (known, excluded)).2)
    /\ (forall c, c ∈ (Knowledge.update guess fb (known, excluded)).2 ->
          c ∈ excluded
          \/ ((c ∉ known) /\ (occurrences c target < occurrences c guess)%nat)).
Proof.
  intros Hg Ht. eexists. split; [by apply get_feedback_marks|].
  unfold five in Hg, Ht. rewrite <- length_list_ascii_of_string in Hg, Ht.
  unfold Knowledge.update. rewrite list_ascii_of_string_of_list_ascii.
  set (gs := list_ascii_of_string guess) in *.
  set (ts := list_ascii_of_string target) in *.
  assert (Hlen : length (Passes.marks gs ts) = 5%nat)
    by (rewrite marks_length; congruence).
  split; [apply update_excluded_mono|]. split.
  - intros c Hc Hnt Hk.
    apply list_elem_of_lookup in Hc as [i Hi].
    destruct (lookup_lt_is_Some_2 (Passes.marks gs ts) i) as [m Hm].
    { apply lookup_lt_Some in Hi. lia. }
    apply (update_excluded_to _ _ _ c i m); [by apply lookup_zip_Some | assumption |].
    rewrite marked_letter_count, marks_count by congruence.
    assert (cnt c ts = 0)%nat.
    { destruct (decide (1 <= cnt c ts)%nat) as [H1|]; [|lia]. by apply cnt_pos in H1. }
    lia.
  - intros c [He|(Hk & i & m & Hi & Hm)]%update_excluded_from; [by left|].
    right. split; [assumption|].
    apply lookup_zip_Some in Hi as [Hi1 Hi2].
    unfold marked_pair in Hm. cbn in Hm.
    pose proof (cnt_marked_lt c gs (Passes.marks gs ts) i m Hi1 Hi2) as Hlt.
    rewrite marks_count in Hlt by congruence.
    unfold occurrences. fold gs ts. fold (cnt c gs) (cnt c ts).
    assert (cnt_marked_ok : m ≠ "G"%char /\ m ≠ "Y"%char) by tauto.
    destruct cnt_marked_ok as [HG HY]. specialize (Hlt HG HY). lia.
Qed.

Lemma update_excluded_meaning_witness :
  exists fb,
    get_feedback "GEESE" "THOSE" = Ret fb
    /\ ∅ ⊆ (Knowledge.update "GEESE" fb (∅, ∅)).2
    /\ (forall c, c ∈ list_ascii_of_string "GEESE" -> c ∉ list_ascii_of_string "THOSE" ->
          c ∉ (∅ : gset ascii) -> c ∈ (Knowledge.update "GEESE" fb (∅, ∅)).2)
    /\ (forall c, c ∈ (Knowledge.update "GEESE" fb (∅, ∅)).2 ->
          c ∈ (∅ : gset ascii)
          \/ ((c ∉ (∅ : gset ascii))
              /\ (occurrences c "THOSE" < occurrences c "GEESE")%nat)).
Proof. apply (update_excluded_meaning "GEESE" "THOSE" ∅ ∅); reflexivity. Defined.

(** ** The board of the interactive helper *)

Section Board.
Import Knowledge.

(** what the loop of [update_board] leaves at a position *)
Lemma board_loop ps : forall a b,
  (a + length ps <= length (known_positions b))%nat ->
  exists b',
    for_each (zip (seq a (length ps)) ps) note_board b = Ret b'
    /\ (known_letters b', excluded_letters b')
       = foldl note (known_letters b, excluded_letters b) ps
    /\ length (known_positions b') = length (known_positions b)
    /\ forall i,
         known_positions b' !! i
         = match (if decide (a <= i)%nat then ps !! (i - a)%nat else None) with
           | Some (c, m) =>
               if decide (m = "G"%char) then Some (Some c) else known_positions b !! i
           | None => known_positions b !! i
           end.
Proof.
  induction ps as [|[c m] ps IH]; intros a b Hlen.
  - exists b. cbn. split; [reflexivity|]. split; [reflexivity|]. split; [reflexivity|].
    intros i. destruct (decide (a <= i)%nat); by rewrite ?lookup_nil.
  - cbn [length seq zip zip_with for_each foldl]. cbn [length] in Hlen.
    assert (Hstep : exists b1,
      note_board (a, (c, m)) b = Ret b1
      /\ (known_letters b1, excluded_letters b1)
         = note (known_letters b, excluded_letters b) (c, m)
      /\ known_positions b1
         = (if decide (m = "G"%char) then <[a := Some c]> (known_positions b)
            else known_positions b)).
    { unfold note_board, note.
      destruct (decide (m = "G"%char)) as [->|HG].
      - rewrite decide_True by lia. eexists. repeat split.
      - destruct (decide (m = "Y"%char)) as [->|HY]; [eexists; repeat split|].
        destruct (decide (c ∉ known_letters b)); eexists; repeat split. }
    destruct Hstep as (b1 & -> & Hk1 & Hp1). cbn [mbind outcome_bind].
    assert (Hlen1 : length (known_positions b1) = length (known_positions b)).
    { rewrite Hp1. destruct (decide (m = "G"%char)); by rewrite ?length_insert. }
    destruct (IH (S a) b1) as (b' & Hrun & Hk & Hl & Hpos); [lia|].
    exists b'. split; [exact Hrun|]. split; [by rewrite Hk, Hk1|].
    split; [by rewrite Hl|].
    intros i. rewrite Hpos, Hp1.
    destruct (decide (a <= i)%nat) as [Hai|Hai].
    + destruct (decide (S a <= i)%nat) as [Hsai|Hsai].
      * replace (i - a)%nat with (S (i - S a)) by lia. cbn [lookup list_lookup].
        assert (Hne : known_positions b !! i
                      = (if decide (m = "G"%char) then <[a := Some c]> (known_positions b)
                         else known_positions b) !! i).
        { destruct (decide (m = "G"%char)); [|reflexivity].
          rewrite list_lookup_insert_ne by lia. reflexivity. }
        rewrite <- Hne. reflexivity.
      * assert (i = a) as -> by lia. rewrite Nat.sub_diag. cbn [lookup list_lookup].
        destruct (decide (m = "G"%char)); [|reflexivity].
        apply list_lookup_insert_eq. lia.
    + rewrite decide_False by lia.
      destruct (decide (m = "G"%char)); [|reflexivity].
      rewrite list_lookup_insert_ne by lia. reflexivity.
Qed.

End Board.

(** X20: on a board with a position for every mark the update of the
    interactive helper raises nothing, keeps the number of positions, and
    leaves the known and excluded letters that the update of the
    automatic solver computes. *)
Theorem update_board_agrees (suggestion feedback : string) (b : Knowledge.board) :
  (String.length feedback <= length (Knowledge.known_positions b))%nat ->
  exists b',
    Knowledge.update_board suggestion feedback b = Ret b'
    /\ (Knowledge.known_letters b', Knowledge.excluded_letters b')
       = Knowledge.update suggestion feedback
           (Knowledge.known_letters b, Knowledge.excluded_letters b)
    /\ length (Knowledge.known_positions b') = length (Knowledge.known_positions b).
Proof.
  intros Hlen. unfold Knowledge.update_board, Knowledge.update.
  set (ps := zip (list_ascii_of_string suggestion) (list_ascii_of_string feedback)).
  destruct (board_loop ps 0 b) as (b' & Hrun & Hk & Hl & _).
  { unfold ps. rewrite length_zip_with, !length_list_ascii_of_string. lia. }
  exists b'. by repeat split.
Qed.

Lemma update_board_agrees_witness :
  exists b',
    Knowledge.update_board "GEESE" "BBBGG" Knowledge.empty_board = Ret b'
    /\ (Knowledge.known_letters b', Knowledge.excluded_letters b')
       = Knowledge.update "GEESE" "BBBGG"
           (Knowledge.known_letters Knowledge.empty_board,
            Knowledge.excluded_letters Knowledge.empty_board)
    /\ length (Knowledge.known_positions b')
       = length (Knowledge.known_positions Knowledge.empty_board).
Proof.
  apply (update_board_agrees "GEESE" "BBBGG" Knowledge.empty_board). cbn. lia.
Defined.

(** X21: with the feedback of the target, the positions that the board
    shows are letters of the target at these positions, if those shown
    before were, and every position where the suggestion has the letter
    of the target is shown. *)
Theorem update_board_positions (suggestion target : string) (b : Knowledge.board) :
  five suggestion -> five target ->
  length (Knowledge.known_positions b) = 5%nat ->
  (forall i c, Knowledge.known_positions b !! i = Some (Some c) ->
     String.get i target = Some c) ->
  exists fb b',
    get_feedback suggestion target = Ret fb
    /\ Knowledge.update_board suggestion fb b = Ret b'
    /\ (forall i c, Knowledge.known_positions b' !! i = Some (Some c) ->
          String.get i target = Some c)
    /\ (forall i c, String.get i suggestion = Some c -> String.get i target = Some c ->
          Knowledge.known_positions b' !! i = Some (Some c)).
Proof.
  intros Hs Ht Hlen Hold.
  eexists. rewrite (get_feedback_marks suggestion target Hs Ht).
  unfold five in Hs, Ht. rewrite <- length_list_ascii_of_string in Hs, Ht.
  set (gs := list_ascii_of_string suggestion) in *.
  set (ts := list_ascii_of_string target) in *.
  assert (Hm : length (Passes.marks gs ts) = 5%nat)
    by (rewrite marks_length; congruence).
  unfold Knowledge.update_board. rewrite list_ascii_of_string_of_list_ascii. fold gs.
  destruct (board_loop (zip gs (Passes.marks gs ts)) 0 b) as (b' & Hrun & _ & _ & Hpos).
  { rewrite length_zip_with. lia. }
  exists b'. split; [reflexivity|]. split; [exact Hrun|].
  assert (Hat : forall i,
    Knowledge.known_positions b' !! i
    = match zip gs (Passes.marks gs ts) !! i with
      | Some (c, m) =>
          if decide (m = "G"%char) then Some (Some c)
          else Knowledge.known_positions b !! i
      | None => Knowledge.known_positions b !! i
      end).
  { intros i. rewrite Hpos. rewrite decide_True by lia. by rewrite Nat.sub_0_r. }
  split.
  - intros i c. rewrite Hat.
    destruct (zip gs (Passes.marks gs ts) !! i) as [[x m]|] eqn:Hi; [|apply Hold].
    destruct (decide (m = "G"%char)) as [->|]; [|apply Hold].
    intros [= ->]. apply lookup_zip_Some in Hi as [Hi1 Hi2].
    apply marks_green in Hi2; [|congruence | apply lookup_lt_Some in Hi1; lia].
    rewrite get_lookup. fold ts. congruence.
  - intros i c. rewrite !get_lookup. fold gs ts. intros Hg Htc. rewrite Hat.
    assert (Hi : (i < 5)%nat) by (apply lookup_lt_Some in Hg; lia).
    assert (HG : Passes.marks gs ts !! i = Some "G"%char).
    { apply marks_green; [congruence | lia | congruence]. }
    rewrite (proj2 (lookup_zip_Some gs (Passes.marks gs ts) i c "G"%char))
      by (by split).
    rewrite decide_True by reflexivity. reflexivity.
Qed.

Lemma update_board_positions_witness :
  exists fb b',
    get_feedback "GEESE" "THOSE" = Ret fb
    /\ Knowledge.update_board "GEESE" fb Knowledge.empty_board = Ret b'
    /\ (forall i c, Knowledge.known_positions b' !! i = Some (Some c) ->
          String.get i "THOSE" = Some c)
    /\ (forall i c, String.get i "GEESE" = Some c -> String.get i "THOSE" = Some c ->
          Knowledge.known_positions b' !! i = Some (Some c)).
Proof.
  apply (update_board_positions "GEESE" "THOSE" Knowledge.empty_board);
    [reflexivity | reflexivity | reflexivity |].
  intros i c Hi. exfalso.
  cbn in Hi. do 5 (destruct i as [|i]; [discriminate|]). discriminate.
Defined.

(** ** solve_wordle_auto *)

Lemma find_best_distinguishing_word_none possible_words all_words known excluded :
  find_best_distinguishing_word possible_words all_words known excluded = Ret None ->
  possible_words = [].
Proof.
  unfold find_best_distinguishing_word.
  destruct (decide (length possible_words <= 1)%nat) as [Hle|Hgt].
  - destruct possible_words; [done | discriminate].
  - destruct (for_each _ _ _) as [b|e]; [|discriminate]. cbn [mbind outcome_bind].
    destruct (Distinguishing.best_word b) as [[|c w]|]; cbn [truthy andb].
    + unfold index. destruct (possible_words !! 0%nat); discriminate.
    + destruct (bool_decide _); [discriminate|].
      unfold index. destruct (possible_words !! 0%nat); discriminate.
    + unfold index. destruct (possible_words !! 0%nat); discriminate.
Qed.

(** [None] is returned for no candidates only *)
Lemma choose_best_word_none possible_words all_words turn known excluded :
  choose_best_word possible_words all_words turn known excluded = Ret None ->
  possible_words = [].
Proof.
  intros Hnone.
  destruct (decide (length possible_words = 1%nat)) as [Hone|Hone].
  { destruct possible_words as [|w [|? ?]]; try discriminate. }
  destruct (decide (turn = 1%Z)) as [->|Hturn].
  { rewrite choose_best_word_opening, opening_choose in Hnone by assumption.
    discriminate. }
  destruct (decide (length possible_words <= 10)%nat) as [Hten|Hten].
  - rewrite choose_best_word_small in Hnone by assumption.
    by apply find_best_distinguishing_word_none in Hnone.
  - rewrite choose_best_word_general in Hnone by lia.
    apply general_pick_word in Hnone as (w & [=] & _).
Qed.

(** the selector returns a five-letter word, or raises [IndexError] in
    the general case with nothing to evaluate, or returns [None] for no
    candidates after the first turn *)
Lemma choose_best_word_cases possible_words all_words turn known excluded :
  Forall five possible_words -> Forall five all_words ->
  (exists w, choose_best_word possible_words all_words turn known excluded = Ret (Some w)
             /\ five w)
  \/ (choose_best_word possible_words all_words turn known excluded = Raise IndexError
      /\ (10 < length possible_words)%nat)
  \/ (choose_best_word possible_words all_words turn known excluded = Ret None
      /\ possible_words = []).
Proof.
  intros Hposs Hall.
  pose proof (proj1 (Forall_forall _ _) Hposs) as Hposs'.
  pose proof (proj1 (Forall_forall _ _) Hall) as Hall'.
  destruct (decide (length possible_words = 1%nat)) as [Hone|Hone].
  { destruct possible_words as [|w [|? ?]]; try discriminate.
    left. exists w. rewrite choose_best_word_single. split; [reflexivity|].
    apply Hposs', list_elem_of_here. }
  destruct (decide (turn = 1%Z)) as [->|Hturn].
  { left. rewrite choose_best_word_opening, opening_choose by assumption.
    destruct (decide ("COURT"%string ∈ all_words)); eexists; split; reflexivity. }
  destruct (decide (length possible_words <= 10)%nat) as [Hten|Hten].
  - rewrite choose_best_word_small by assumption.
    destruct possible_words as [|w1 [|w2 rest]] eqn:Hp; [by right; right | done |].
    rewrite <- Hp in *. left.
    destruct (find_best_distinguishing_word_returns possible_words (default ∅ known)
                (default ∅ excluded) Hposs all_words Hall) as (w & -> & Hin & _).
    { rewrite Hp. cbn. lia. }
    exists w. split; [reflexivity|]. destruct Hin; auto.
  - rewrite choose_best_word_general by lia.
    set (pool := general_pool _ _ _ _).
    destruct (decide (pool = [])) as [->|Hpool].
    + right; left. split; [reflexivity | lia].
    + left.
      assert (Hfive : Forall five pool).
      { apply Forall_forall. intros w Hw. apply general_pool_elem in Hw as [Hw _]. auto. }
      destruct (general_pick possible_words all_words turn (default ∅ known)
                  (default ∅ excluded) Hposs pool Hfive Hpool)
        as (cands & h & _ & Hsc & Hin & ->).
      exists (General.sc_word h). split; [reflexivity|].
      rewrite Forall_forall in Hfive. apply Hfive.
      rewrite <- (scored_for_words _ _ _ _ _ _ Hsc). by apply list_elem_of_fmap_2.
Qed.

Section AutoTurns.
Import Auto.

Variables (target_word : string) (word_list : list string).

Hypothesis target_five : five target_word.
Hypothesis list_five : Forall five word_list.

(** a turn: the game is solved by guessing the target, or goes on with
    another guess and the candidates filtered by it, or the general case
    had nothing to evaluate, or there was no candidate *)
Lemma play_turn_cases (turn : Z) (st : state) :
  Forall five (possible_words st) ->
  (play_turn target_word word_list turn st
   = inr (Solved (guesses st ++ [target_word]) turn))
  \/ (exists guess fb st',
        guess ≠ target_word /\ five guess
        /\ get_feedback guess target_word = Ret fb
        /\ play_turn target_word word_list turn st = inr (Continue st')
        /\ guesses st' = guesses st ++ [guess]
        /\ possible_words st'
           = filter (fun c => get_feedback guess c = Ret fb) (possible_words st))
  \/ (play_turn target_word word_list turn st = inl (Core IndexError)
      /\ (10 < length (possible_words st))%nat)
  \/ (play_turn target_word word_list turn st = inl TypeError
      /\ possible_words st = []).
Proof.
  intros Hposs. unfold play_turn.
  destruct (choose_best_word_cases (possible_words st) word_list turn
              (Some (known_letters st)) (Some (excluded_letters st)) Hposs list_five)
    as [(guess & -> & Hguess)|[[-> Hten]|[-> Hnil]]];
    [|by right; right; left|by right; right; right].
  pose proof (get_feedback_marks guess target_word Hguess target_five) as Hfb.
  set (fb := string_of_list_ascii _) in Hfb. rewrite Hfb.
  destruct (decide (fb = "GGGGG"%string)) as [Hwin|Hnot].
  - left. rewrite Hwin in Hfb.
    apply (get_feedback_all_green_helper guess target_word Hguess target_five) in Hfb.
    by rewrite Hfb.
  - right; left. exists guess, fb. eexists. split.
    { intros ->. apply Hnot. unfold fb, Passes.marks.
      rewrite marks_same.
      unfold five in target_five. rewrite <- length_list_ascii_of_string in target_five.
      by rewrite target_five. }
    split; [assumption|]. split; [assumption|].
    rewrite (filter_words_is_filter _ guess fb Hguess Hposs).
    split; [reflexivity|]. split; reflexivity.
Qed.

(** what a run returns: after the guesses made so far, guesses that are
    not the target, and then the target on one of the turns, or no
    target and 7 *)
Lemma play_result (turns : list Z) : forall st gs n,
  Forall five (possible_words st) ->
  play target_word word_list turns st = inr (gs, n) ->
  exists more,
    (target_word ∉ more)
    /\ ((n = 7%Z /\ gs = guesses st ++ more /\ length more = length turns)
        \/ (gs = guesses st ++ more ++ [target_word]
            /\ turns !! length more = Some n)).
Proof.
  induction turns as [|turn turns IH]; intros st gs n Hposs Hrun; cbn [play] in Hrun.
  - injection Hrun as <- <-. exists []. split; [apply not_elem_of_nil|].
    left. by rewrite app_nil_r.
  - destruct (play_turn_cases turn st Hposs)
      as [Hwin|[(guess & fb & st' & Hne & Hguess & Hfb & Hturn & Hgs & Hps)
               |[[Herr _]|[Herr _]]]];
      try (rewrite Herr in Hrun; discriminate).
    + rewrite Hwin in Hrun. injection Hrun as <- <-.
      exists []. split; [apply not_elem_of_nil|]. right. by split.
    + rewrite Hturn in Hrun.
      destruct (IH st' gs n) as (more & Hnot & Hshape); [|assumption|].
      { rewrite Hps. by apply Forall_five_filter. }
      exists (guess :: more). split.
      { intros [Heq|Hin]%elem_of_cons; [by apply Hne | by apply Hnot]. }
      rewrite Hgs, <- !app_assoc in Hshape. cbn [app length lookup list_lookup].
      destruct Hshape as [(-> & -> & ->)|[-> Hk]]; [left | right]; by repeat split.
Qed.

(** with the target among the candidates a run returns, unless the
    general case has nothing to evaluate, for more than ten candidates *)
Lemma play_safe (turns : list Z) : forall st,
  Forall five (possible_words st) -> target_word ∈ possible_words st ->
  (exists r, play target_word word_list turns st = inr r)
  \/ (play target_word word_list turns st = inl (Core IndexError)
      /\ (10 < length (possible_words st))%nat).
Proof.
  induction turns as [|turn turns IH]; intros st Hposs Hin; cbn [play].
  - left. by eexists.
  - destruct (play_turn_cases turn st Hposs)
      as [->|[(guess & fb & st' & Hne & Hguess & Hfb & -> & Hgs & Hps)
             |[[-> Hten]|[_ Hnil]]]].
    + left. by eexists.
    + destruct (IH st') as [Hr|[Herr Hten]].
      * rewrite Hps. by apply Forall_five_filter.
      * rewrite Hps. by apply list_elem_of_filter.
      * by left.
      * right. split; [assumption|].
        rewrite Hps in Hten.
        pose proof (length_filter (fun c => get_feedback guess c = Ret fb)
                      (possible_words st)). lia.
    + right. by split.
    + rewrite Hnil in Hin. by apply elem_of_nil in Hin.
Qed.

End AutoTurns.

(** X22: what [solve_wordle_auto] returns on five-letter words: the
    guesses are words other than the target followed by the target, and
    the number returned is their count, from 1 to 6; or they are six
    words other than the target, and the number returned is 7. *)
Theorem solve_wordle_auto_result (target_word : string) (word_list guesses : list string)
    (turns : Z) :
  five target_word -> Forall five word_list ->
  solve_wordle_auto target_word word_list = inr (guesses, turns) ->
  exists earlier,
    (target_word ∉ earlier)
    /\ ((turns = 7%Z /\ guesses = earlier /\ length earlier = 6%nat)
        \/ (guesses = earlier ++ [target_word]
            /\ turns = Z.of_nat (length guesses) /\ (1 <= turns <= 6)%Z)).
Proof.
  intros Ht Hw Hrun. unfold solve_wordle_auto in Hrun.
  apply (play_result target_word word_list Ht Hw) in Hrun as (more & Hnot & Hshape);
    [|assumption].
  cbn [Auto.guesses app] in Hshape. exists more. split; [assumption|].
  destruct Hshape as [(-> & -> & Hlen)|[-> Hk]]; [left; by repeat split|].
  right. split; [reflexivity|]. rewrite length_app. cbn [length].
  do 6 (destruct more as [|? more]; [injection Hk as <-; cbn; lia|]).
  discriminate.
Qed.

Lemma solve_wordle_auto_result_witness :
  exists earlier,
    ("SLATE"%string ∉ earlier)
    /\ ((2%Z = 7%Z /\ ["COURT"; "SLATE"]%string = earlier /\ length earlier = 6%nat)
        \/ (["COURT"; "SLATE"]%string = earlier ++ ["SLATE"%string]
            /\ 2%Z = Z.of_nat (length ["COURT"; "SLATE"]%string) /\ (1 <= 2 <= 6)%Z)).
Proof.
  apply (solve_wordle_auto_result "SLATE" ["COURT"; "SLATE"; "CRANE"; "TRACE"]%string
           ["COURT"; "SLATE"]%string 2).
  - reflexivity.
  - repeat constructor.
  - vm_compute. reflexivity.
Defined.

(** X23: with a target that is in the dictionary, all words of five
    letters, [solve_wordle_auto] returns, unless the dictionary has more
    than ten words and the selector raises [IndexError] for want of a
    word to evaluate; it never passes [None] to [get_feedback]. *)
Theorem solve_wordle_auto_returns (target_word : string) (word_list : list string) :
  Forall five word_list -> target_word ∈ word_list ->
  (exists guesses turns, solve_wordle_auto target_word word_list = inr (guesses, turns))
  \/ (solve_wordle_auto target_word word_list = inl (Auto.Core IndexError)
      /\ (10 < length word_list)%nat).
Proof.
  intros Hw Hin.
  assert (Ht : five target_word) by (rewrite Forall_forall in Hw; by apply Hw).
  unfold solve_wordle_auto.
  destruct (play_safe target_word word_list Ht Hw [1; 2; 3; 4; 5; 6]%Z
              {| Auto.possible_words := word_list; Auto.guesses := [];
                 Auto.known_letters := ∅; Auto.excluded_letters := ∅ |} Hw Hin)
    as [[[gs n] Hr]|Herr]; [left; by exists gs, n | by right].
Qed.

Lemma solve_wordle_auto_returns_witness :
  (exists guesses turns,
     solve_wordle_auto "SLATE" ["COURT"; "SLATE"; "CRANE"; "TRACE"]%string
     = inr (guesses, turns))
  \/ (solve_wordle_auto "SLATE" ["COURT"; "SLATE"; "CRANE"; "TRACE"]%string
      = inl (Auto.Core IndexError)
      /\ (10 < length ["COURT"; "SLATE"; "CRANE"; "TRACE"]%string)%nat).
Proof.
  apply (solve_wordle_auto_returns "SLATE" ["COURT"; "SLATE"; "CRANE"; "TRACE"]%string).
  - repeat constructor.
  - apply list_elem_of_further, list_elem_of_here.
Defined.

(** ** Two candidates: the chosen word tells them apart *)

Lemma get_feedback_same (w : string) :
  five w -> get_feedback w w = Ret "GGGGG"%string.
Proof.
  intros Hw. rewrite (get_feedback_marks w w Hw Hw).
  unfold five in Hw. rewrite <- length_list_ascii_of_string in Hw.
  unfold Passes.marks. rewrite marks_same, Hw. reflexivity.
Qed.

(** the partitions of two candidates: one group of two, or two of one *)
Lemma two_partition_sizes (w a b : string) :
  five w -> five a -> five b ->
  exists m fa fb,
    get_feedback w a = Ret fa /\ get_feedback w b = Ret fb
    /\ calculate_partitions w [a; b] = Ret m
    /\ partition_sizes m = if decide (fa = fb) then [2%Z] else [1%Z; 1%Z].
Proof.
  intros Hw Ha Hb.
  pose proof (get_feedback_marks w a Hw Ha) as Hfa.
  pose proof (get_feedback_marks w b Hw Hb) as Hfb.
  set (fa := string_of_list_ascii _) in Hfa. set (fb := string_of_list_ascii _) in Hfb.
  exists (dict_append (dict_append ∅ fa a) fb b), fa, fb.
  split; [assumption|]. split; [assumption|]. split.
  { unfold calculate_partitions. cbn [for_each]. rewrite Hfa. cbn [mbind outcome_bind].
    rewrite Hfb. reflexivity. }
  unfold dict_append, partition_sizes. rewrite lookup_empty. cbn [default app].
  destruct (decide (fa = fb)) as [<-|Hne].
  - rewrite lookup_insert_eq. cbn [default app].
    rewrite insert_insert_eq, insert_empty, map_to_list_singleton. reflexivity.
  - rewrite lookup_insert_ne, lookup_empty by assumption. cbn [default app].
    symmetry. apply (replicate_Permutation 2 1%Z).
    rewrite map_to_list_insert by (by rewrite lookup_insert_ne, lookup_empty).
    rewrite insert_empty, map_to_list_singleton. reflexivity.
Qed.

(** the score of a candidate without excluded letters, of two candidates,
    is below the score of every word that does not tell them apart *)
Lemma two_candidates_own_score (a b c : string) (known excluded : gset ascii)
    (u2 e2 : Z) :
  five a -> five b -> a ≠ b -> c ∈ [a; b] -> letters c ∩ excluded = ∅ ->
  (0 <= u2 <= 5)%Z -> (0 <= e2 <= 5)%Z ->
  exists sc,
    distinguishing_score_of [a; b] known excluded c = Ret sc
    /\ Number.lt sc (small_score 2 2 1 u2 e2) = true.
Proof.
  intros Ha Hb Hab Hc Hclean Hu2 He2.
  assert (Hfive : five c).
  { apply elem_of_cons in Hc as [->|Hc]; [assumption|].
    apply elem_of_cons in Hc as [->|Hc]; [assumption|]. by apply elem_of_nil in Hc. }
  destruct (two_partition_sizes c a b Hfive Ha Hb) as (m & fa & fb & Hfa & Hfb & Hm & Hsizes).
  assert (Hne : fa ≠ fb).
  { intros Heq. apply Hab.
    apply elem_of_cons in Hc as [->|Hc].
    - rewrite (get_feedback_same a Ha) in Hfa. injection Hfa as <-.
      symmetry in Heq. subst fb. by apply get_feedback_all_green_helper.
    - apply elem_of_cons in Hc as [->|Hc]; [|by apply elem_of_nil in Hc].
      rewrite (get_feedback_same b Hb) in Hfb. injection Hfb as <-.
      subst fa. symmetry. by apply get_feedback_all_green_helper. }
  eexists. split.
  { unfold distinguishing_score_of. rewrite Hm. cbn [mbind outcome_bind].
    rewrite Hsizes, decide_False by assumption. rewrite Hclean. reflexivity. }
  change (len_set ∅) with 0%Z.
  apply (two_scores_apart_lt _ u2 e2); [by apply unexplored_bounds | lia | lia].
Qed.

(** X24: with exactly two different candidates after the first turn, one
    of them without an excluded letter, the word that [choose_best_word]
    returns gets different feedback from the two. *)
Theorem two_candidates_told_apart (a b : string) (all_words : list string) (turn : Z)
    (known excluded : gset ascii) :
  five a -> five b -> Forall five all_words -> a ≠ b -> turn ≠ 1%Z ->
  letters a ∩ excluded = ∅ \/ letters b ∩ excluded = ∅ ->
  exists w fa fb,
    choose_best_word [a; b] all_words turn (Some known) (Some excluded) = Ret (Some w)
    /\ get_feedback w a = Ret fa /\ get_feedback w b = Ret fb /\ fa ≠ fb.
Proof.
  intros Ha Hb Hall Hab Hturn Hclean.
  assert (Hposs : Forall five [a; b]) by (by repeat constructor).
  rewrite choose_best_word_small by (cbn; lia).
  change (default ∅ (Some known)) with known.
  change (default ∅ (Some excluded)) with excluded.
  set (pool := Distinguishing.evaluation_candidates [a; b] all_words).
  assert (Hpool : Forall five pool).
  { apply Forall_forall. intros w Hw.
    rewrite Forall_forall in Hall. rewrite Forall_forall in Hposs.
    apply evaluation_candidates_elem in Hw as [Hw|Hw]; auto. }
  assert (Hcand : forall c, c ∈ [a; b] -> c ∈ pool).
  { intros c Hc. unfold pool, Distinguishing.evaluation_candidates.
    rewrite decide_True by (cbn; lia). apply elem_of_app. by right. }
  destruct (best_after_loop [a; b] known excluded Hposs ltac:(cbn; lia) pool Hpool []
              Distinguishing.start) as (best & Hrun & Hbest);
    [constructor | left; by split|].
  cbn [app] in Hbest.
  destruct Hbest as [[Hnil _]|(i & w & s & info & Hlow & ->)].
  { specialize (Hcand a ltac:(apply list_elem_of_here)). rewrite Hnil in Hcand.
    by apply elem_of_nil in Hcand. }
  assert (Hw : five w).
  { destruct Hlow as (Hi & _). rewrite Forall_forall in Hpool.
    apply Hpool, list_elem_of_lookup. by exists i. }
  destruct (two_partition_sizes w a b Hw Ha Hb) as (m & fa & fb & Hfa & Hfb & Hm & Hsizes).
  exists w, fa, fb. split; [|split; [assumption|split; [assumption|]]].
  { unfold find_best_distinguishing_word.
    destruct (decide (length [a; b] <= 1)%nat) as [Hle|_]; [cbn in Hle; lia|].
    fold pool. rewrite Hrun.
    cbn [mbind outcome_bind Distinguishing.best_word Distinguishing.best_info].
    rewrite (five_truthy w Hw), bool_decide_eq_true_2 by (by eexists). reflexivity. }
  intros Hsame.
  (* the score of [w], which would not tell the candidates apart *)
  pose proof Hlow as (_ & Hs & Hmin). unfold distinguishing_score_of in Hs.
  rewrite Hm in Hs. cbn [mbind outcome_bind] in Hs. rewrite Hsizes in Hs.
  rewrite decide_True in Hs by assumption. injection Hs as Hs.
  assert (Hs' : s = small_score 2 2 1 (len_set (letters w ∖ known ∖ excluded))
                      (len_set (letters w ∩ excluded)))
    by (rewrite <- Hs; reflexivity).
  (* the score of a candidate without excluded letters *)
  assert (Hc : exists c, c ∈ [a; b] /\ letters c ∩ excluded = ∅).
  { destruct Hclean as [Hc|Hc]; [exists a | exists b]; (split; [|assumption]).
    - apply list_elem_of_here.
    - apply list_elem_of_further, list_elem_of_here. }
  destruct Hc as (c & Hc & Hcclean).
  destruct (two_candidates_own_score a b c known excluded
              (len_set (letters w ∖ known ∖ excluded)) (len_set (letters w ∩ excluded))
              Ha Hb Hab Hc Hcclean
              ltac:(by apply unexplored_bounds) ltac:(by apply overlap_bounds))
    as (sc & Hsc & Hlow_sc).
  apply Hcand, list_elem_of_lookup in Hc as [j Hj].
  destruct (Hmin j c sc Hj Hsc) as [Hnot _].
  rewrite Hs' in Hnot. congruence.
Qed.

Lemma two_candidates_told_apart_witness :
  exists w fa fb,
    choose_best_word ["BAKER"; "BAKED"]%string Inputs.bake_dictionary 2 (Some ∅) (Some ∅)
    = Ret (Some w)
    /\ get_feedback w "BAKER" = Ret fa /\ get_feedback w "BAKED" = Ret fb /\ fa ≠ fb.
Proof.
  apply (two_candidates_told_apart "BAKER" "BAKED" Inputs.bake_dictionary 2 ∅ ∅).
  - reflexivity.
  - reflexivity.
  - repeat constructor.
  - discriminate.
  - lia.
  - left. apply intersection_empty_r_L.
Defined.

(** ** The score of the general case *)

(** for up to five letters the exploration bonus of the source is the
    term as the specification writes it *)
Lemma exploration_bonus_stated (unexplored known_overlap : Z) :
  (0 <= unexplored <= 5)%Z -> (0 <= known_overlap <= 5)%Z ->
  Number.add (Number.mul (Int (- unexplored)) (Number.literal 5 1))
    (Number.mul (Int known_overlap) (Number.literal 3 1))
  = Number.add (Number.mul (Number.neg (Number.literal 5 1)) (Int unexplored))
      (Number.mul (Number.literal 3 1) (Int known_overlap)).
Proof.
  intros Hu Hk.
  assert (Hcu : (unexplored = 0 \/ unexplored = 1 \/ unexplored = 2 \/ unexplored = 3
                 \/ unexplored = 4 \/ unexplored = 5)%Z) by lia.
  assert (Hck : (known_overlap = 0 \/ known_overlap = 1 \/ known_overlap = 2
                 \/ known_overlap = 3 \/ known_overlap = 4 \/ known_overlap = 5)%Z)
    by lia.
  destruct Hcu as [-> | [-> | [-> | [-> | [-> | ->]]]]];
    destruct Hck as [-> | [-> | [-> | [-> | [-> | ->]]]]]; vm_compute; reflexivity.
Qed.

(** the score of a tuple, from the partitions of its word *)
Lemma entry_score (possible_words : list string) (turn : Z)
    (known excluded : gset ascii) (word : string) (m : gmap string (list string)) :
  five word -> possible_words ≠ [] ->
  calculate_partitions word possible_words = Ret m ->
  let is_answer := bool_decide (word ∈ possible_words) in
  let remaining := Z.of_nat (length possible_words) in
  General.sc_score (entry possible_words turn known excluded word m)
  = Stated.score_as_added (max_or_zero (partition_sizes m))
      (Stated.mean_case m possible_words)
      (Stated.exploration_term is_answer remaining
         (len_set (letters word ∖ known ∖ excluded)) (len_set (letters word ∩ known)))
      (Stated.answer_term is_answer remaining turn).
Proof.
  intros Hw Hne Hm.
  destruct (avg_or_zero_mean_case word possible_words m Hm Hne) as [_ Havg].
  cbn zeta. unfold entry. cbn [General.sc_score]. rewrite Havg.
  unfold General.final_score, Stated.score_as_added, Stated.exploration_term,
    Stated.answer_term, General.unexplored, MEDIUM_SET_THRESHOLD, SMALL_SET_THRESHOLD,
    LATE_GAME_TURN.
  destruct (bool_decide (word ∈ possible_words)); cbn [negb andb]; [reflexivity|].
  destruct (6 <? _)%Z; [|reflexivity].
  rewrite exploration_bonus_stated; [reflexivity | by apply unexplored_bounds
                                    | by apply overlap_bounds].
Qed.

(** C6, as stated, fails in the last bit: the source adds the answer term
    before the exploration term, and in floats the order matters.  For
    BAYOU against the eleven -IGHT words with A known, the score differs
    from the sum taken in the order in which the claim writes it. *)
Lemma score_order_counterexample :
  general_pool Inputs.ight (Inputs.ight ++ ["BAYOU"%string]) {["A"%char]} ∅
  = ["BAYOU"%string]
  /\ exists sc partitions,
       for_each ["BAYOU"%string]
         (General.step Inputs.ight (Inputs.ight ++ ["BAYOU"%string]) 2 {["A"%char]} ∅) []
       = Ret [sc]
       /\ calculate_partitions "BAYOU" Inputs.ight = Ret partitions
       /\ Stated.worst_case partitions 10
       /\ Number.eq (General.sc_score sc)
            (Stated.score_as_written 10 (Stated.mean_case partitions Inputs.ight)
               (Stated.exploration_term false 11
                  (len_set (letters "BAYOU" ∖ {["A"%char]} ∖ ∅))
                  (len_set (letters "BAYOU" ∩ {["A"%char]})))
               (Stated.answer_term false 11 2))
          = false.
Proof.
  split; [vm_compute; reflexivity|].
  destruct (calculate_partitions "BAYOU" Inputs.ight) as [m|] eqn:Hm;
    [|vm_compute in Hm; discriminate].
  eexists _, m. split; [|split; [reflexivity|split]].
  - unfold for_each. rewrite general_step, Hm. reflexivity.
  - assert (Hne : m ≠ ∅).
    { intros ->. vm_compute in Hm. discriminate. }
    pose proof (max_or_zero_worst_case m Hne) as Hworst.
    assert (Hmax : max_or_zero (partition_sizes m) = 10%Z).
    { injection Hm as <-. vm_compute. reflexivity. }
    by rewrite Hmax in Hworst.
  - injection Hm as <-. vm_compute. reflexivity.
Qed.

(** C6, amended: every tuple that the general case builds for a word of
    the evaluation set has the score
    ((worst_case + mean_case/1000) + answer_term) + exploration_term,
    added in this order in binary64 arithmetic, where worst_case is the
    size of a largest group of the candidates, mean_case the number of
    candidates divided by the number of groups, and the two other terms
    are as the specification words them. *)
Theorem general_score_terms (possible_words all_words pool : list string) (turn : Z)
    (known excluded : gset ascii) :
  possible_words ≠ [] -> Forall five possible_words -> Forall five pool ->
  exists candidates,
    for_each pool (General.step possible_words all_words turn known excluded) []
    = Ret candidates
    /\ Forall2
         (fun word sc =>
            General.sc_word sc = word
            /\ exists partitions worst_case,
                 calculate_partitions word possible_words = Ret partitions
                 /\ Stated.worst_case partitions worst_case
                 /\ let mean_case := Stated.mean_case partitions possible_words in
                    let is_answer := bool_decide (word ∈ possible_words) in
                    let remaining := Z.of_nat (length possible_words) in
                    let unexplored := len_set (letters word ∖ known ∖ excluded) in
                    let known_overlap := len_set (letters word ∩ known) in
                    General.sc_score sc
                    = Stated.score_as_added worst_case mean_case
                        (Stated.exploration_term is_answer remaining unexplored
                           known_overlap)
                        (Stated.answer_term is_answer remaining turn))
         pool candidates.
Proof.
  intros Hne Hposs Hpool.
  destruct (general_loop possible_words all_words turn known excluded Hposs pool Hpool [])
    as (cands & Hrun & Hall).
  exists cands. split; [exact Hrun|].
  apply Forall2_same_length_lookup. split; [by eapply Forall2_length|].
  intros i w sc Hi Hsc.
  pose proof (Forall2_lookup_lr _ _ _ _ _ _ Hall Hi Hsc) as (m & Hm & ->).
  assert (Hw : five w).
  { rewrite Forall_forall in Hpool. apply Hpool, list_elem_of_lookup. by exists i. }
  split; [reflexivity|].
  destruct (avg_or_zero_mean_case w possible_words m Hm Hne) as [Hm0 _].
  exists m, (max_or_zero (partition_sizes m)).
  split; [assumption|]. split; [by apply max_or_zero_worst_case|].
  by apply entry_score.
Qed.

Lemma general_score_terms_witness :
  exists candidates,
    for_each ["COCOA"; "KAYAK"]%string
      (General.step Inputs.ight Inputs.ight_dictionary 2 ∅ ∅) []
    = Ret candidates
    /\ Forall2
         (fun word sc =>
            General.sc_word sc = word
            /\ exists partitions worst_case,
                 calculate_partitions word Inputs.ight = Ret partitions
                 /\ Stated.worst_case partitions worst_case
                 /\ let mean_case := Stated.mean_case partitions Inputs.ight in
                    let is_answer := bool_decide (word ∈ Inputs.ight) in
                    let remaining := Z.of_nat (length Inputs.ight) in
                    let unexplored := len_set (letters word ∖ ∅ ∖ ∅) in
                    let known_overlap := len_set (letters word ∩ ∅) in
                    General.sc_score sc
                    = Stated.score_as_added worst_case mean_case
                        (Stated.exploration_term is_answer remaining unexplored
                           known_overlap)
                        (Stated.answer_term is_answer remaining 2))
         ["COCOA"; "KAYAK"]%string candidates.
Proof.
  apply (general_score_terms Inputs.ight Inputs.ight_dictionary
           ["COCOA"; "KAYAK"]%string 2 ∅ ∅).
  - discriminate.
  - repeat constructor.
  - repeat constructor.
Defined.

(** ** Ties of the general case *)

(** C4: KAYAK comes first in the evaluation set and has the score of
    COCOA, so that the scan which keeps the first lowest score, as the
    distinguishing search does it, would return KAYAK; [candidates.sort()]
    sorts the whole tuples and COCOA is returned. *)
Theorem general_tie_returns_later_word :
  general_pool Inputs.ight Inputs.ight_dictionary ∅ ∅ = ["KAYAK"; "COCOA"]%string
  /\ (exists kayak cocoa,
        for_each ["KAYAK"; "COCOA"]%string
          (General.step Inputs.ight Inputs.ight_dictionary 2 ∅ ∅) []
        = Ret [kayak; cocoa]
        /\ General.sc_word kayak = "KAYAK"%string
        /\ General.sc_word cocoa = "COCOA"%string
        /\ Number.eq (General.sc_score kayak) (General.sc_score cocoa) = true
        /\ General.sc_word <$> Stated.first_lowest None [kayak; cocoa]
           = Some "KAYAK"%string)
  /\ choose_best_word Inputs.ight Inputs.ight_dictionary 2 None None
     = Ret (Some "COCOA"%string).
Proof.
  split; [vm_compute; reflexivity|]. split; [|vm_compute; reflexivity].
  eexists _, _. split; [vm_compute; reflexivity|].
  repeat split; vm_compute; reflexivity.
Qed.
